(** * gobdd: step matching, outline expansion and scenario execution

    A shallow embedding of the gobdd suite ([gobdd.go]: [Suite], [AddStep],
    [findStepDef], [runStep], [getOutlineStep], ...) and of the [models]
    package ([Step.Run], [Scenario.Run]), with the properties the
    specification states about them.

    Go values are modelled as follows.
    - [string] and [[]byte] are Rocq [string]s (sequences of bytes).
    - [int] is [Z] on a 64-bit platform; lengths and indices are [nat].
    - a pointer receiver that is mutated ([*Suite], [*Step]) is threaded as
      explicit state; a [panic] is an outcome of the monad [M], and the state
      reached before the panic is kept, as in Go.
    - the packages [regexp] and [strconv.ParseFloat] are libraries outside the
      repository: the engine is a type class, and Go's thin wrappers
      ([MatchString], [FindAll], [FindSubmatch]) are written over it. *)

From Stdlib Require Import String Ascii List Arith NArith ZArith Lia Bool.
From Stdlib Require Import Permutation DecimalString.
Import ListNotations.
Open Scope string_scope.
Open Scope list_scope.
Open Scope nat_scope.

Set Implicit Arguments.

(** The one-byte string of a character code. *)
Definition chr (n : nat) : string := String (ascii_of_nat n) EmptyString.

(** ** Package [unicode/utf8] *)

Module utf8.

Definition RuneError : N := 65533%N.

(** The table [first] with [acceptRanges]: for a leading byte of a
    multi-byte sequence, its length and the range of the second byte. *)
Definition first (s0 : N) : option (nat * N * N) :=
  (if s0 <? 194 then None                       (* 0x80-0xC1: xx *)
   else if s0 <? 224 then Some (2%nat, 128, 191)    (* 0xC2-0xDF: s1 *)
   else if s0 =? 224 then Some (3%nat, 160, 191)    (* 0xE0: s2 *)
   else if s0 <? 237 then Some (3%nat, 128, 191)    (* 0xE1-0xEC: s3 *)
   else if s0 =? 237 then Some (3%nat, 128, 159)    (* 0xED: s4 *)
   else if s0 <? 240 then Some (3%nat, 128, 191)    (* 0xEE-0xEF: s3 *)
   else if s0 =? 240 then Some (4%nat, 144, 191)    (* 0xF0: s5 *)
   else if s0 <? 244 then Some (4%nat, 128, 191)    (* 0xF1-0xF3: s6 *)
   else if s0 =? 244 then Some (4%nat, 128, 143)    (* 0xF4: s7 *)
   else None)%N.                                (* 0xF5-0xFF: xx *)

Definition cont (c : N) : bool := ((128 <=? c) && (c <=? 191))%N.

(** [DecodeRuneInString s]: the first rune of [s] and its width in bytes. *)
Definition DecodeRuneInString (s : string) : N * nat :=
  match s with
  | EmptyString => (RuneError, 0)
  | String c0 t =>
    let s0 := N_of_ascii c0 in
    if (s0 <? 128)%N then (s0, 1)
    else
      match first s0 with
      | None => (RuneError, 1)
      | Some (sz, lo, hi) =>
        if String.length s <? sz then (RuneError, 1)
        else
          match t with
          | String c1 t1 =>
            let s1 := N_of_ascii c1 in
            if ((s1 <? lo) || (hi <? s1))%N then (RuneError, 1)
            else if sz <=? 2 then (((s0 mod 32) * 64 + s1 mod 64)%N, 2)
            else
              match t1 with
              | String c2 t2 =>
                let s2 := N_of_ascii c2 in
                if negb (cont s2) then (RuneError, 1)
                else if sz <=? 3
                then (((s0 mod 16) * 4096 + (s1 mod 64) * 64 + s2 mod 64)%N, 3)
                else
                  match t2 with
                  | String c3 _ =>
                    let s3 := N_of_ascii c3 in
                    if negb (cont s3) then (RuneError, 1)
                    else (((s0 mod 8) * 262144 + (s1 mod 64) * 4096
                           + (s2 mod 64) * 64 + s3 mod 64)%N, 4)
                  | EmptyString => (RuneError, 1)
                  end
              | EmptyString => (RuneError, 1)
              end
          | EmptyString => (RuneError, 1)
          end
      end
  end.

Definition width (s : string) : nat := snd (DecodeRuneInString s).

End utf8.

(** ** Package [strings] *)

Module strings.

Definition HasPrefix (s pre : string) : bool := String.prefix pre s.

(** [Index s substr]: the first byte offset of [substr] in [s]; [None] is
    Go's [-1]. *)
Fixpoint Index (s substr : string) : option nat :=
  if HasPrefix s substr then Some 0
  else
    match s with
    | EmptyString => None
    | String _ t => option_map S (Index t substr)
    end.

Definition Contains (s substr : string) : bool :=
  match Index s substr with Some _ => true | None => false end.

(** Replacement of the non-overlapping occurrences of a non-empty [old],
    leftmost first; [skip] counts the bytes of an occurrence still to drop. *)
Fixpoint replaceOld (skip : nat) (s old new : string) : string :=
  match s with
  | EmptyString => EmptyString
  | String c t =>
    match skip with
    | S k => replaceOld k t old new
    | O =>
      if HasPrefix s old
      then (new ++ replaceOld (String.length old - 1) t old new)%string
      else String c (replaceOld 0 t old new)
    end
  end.

(** With an empty [old], [Replace] inserts [new] before every rune and at
    the end; [skip] counts the bytes of the current rune still to copy. *)
Fixpoint replaceEmpty (skip : nat) (s new : string) : string :=
  match s with
  | EmptyString => new
  | String c t =>
    match skip with
    | S k => String c (replaceEmpty k t new)
    | O => (new ++ String c (replaceEmpty (utf8.width s - 1) t new))%string
    end
  end.

(** [ReplaceAll s old new] is [Replace s old new (-1)]. *)
Definition ReplaceAll (s old new : string) : string :=
  if String.eqb old new then s
  else
    match old with
    | EmptyString => replaceEmpty 0 s new
    | _ => replaceOld 0 s old new
    end.

End strings.

(** ** Package [strconv]: [Atoi] *)

Module strconv.

Inductive NumError := ErrSyntax | ErrRange.

Definition isDigit (c : ascii) : bool :=
  (48 <=? nat_of_ascii c) && (nat_of_ascii c <=? 57).

Definition maxUint64 : Z := 2 ^ 64 - 1.

(** The loop of [ParseUint] in base 10 at 64 bits, [n] being the value
    of the digits read so far: a byte that is not a digit is a syntax
    error, a value that leaves 64 bits a range error, whichever comes
    first from the left. *)
Fixpoint parseUintLoop (n : Z) (s : string) : Z * option NumError :=
  match s with
  | EmptyString => (n, None)
  | String c t =>
    if negb (isDigit c) then (0%Z, Some ErrSyntax)
    else if (maxUint64 / 10 + 1 <=? n)%Z then (maxUint64, Some ErrRange)
    else
      let n1 := (n * 10 + (Z.of_nat (nat_of_ascii c) - 48))%Z in
      if (maxUint64 <? n1)%Z then (maxUint64, Some ErrRange)
      else parseUintLoop n1 t
  end.

Definition maxInt : Z := 2 ^ 63 - 1.
Definition minInt : Z := - 2 ^ 63.

(** [Atoi] is [ParseInt(s, 10, 0)] with [int] of 64 bits (its fast path
    for short strings gives the same results): an optional sign, then
    [ParseUint] on the rest; a syntax error gives 0, and out of range the
    nearest bound is returned with [ErrRange]. *)
Definition Atoi (s : string) : Z * option NumError :=
  match s with
  | EmptyString => (0%Z, Some ErrSyntax)
  | String c t =>
    let neg := Ascii.eqb c "-" in
    let body := if Ascii.eqb c "-" || Ascii.eqb c "+" then t else s in
    match body with
    | EmptyString => (0%Z, Some ErrSyntax)
    | _ =>
      match parseUintLoop 0 body with
      | (_, Some ErrSyntax) => (0%Z, Some ErrSyntax)
      | (un, _) =>
        if negb neg && (2 ^ 63 <=? un)%Z then (maxInt, Some ErrRange)
        else if neg && (2 ^ 63 <? un)%Z then (minInt, Some ErrRange)
        else ((if neg then - un else un)%Z, None)
      end
    end
  end.

(** [%d] of a non-negative integer. *)
Definition Itoa (n : nat) : string := NilZero.string_of_uint (Nat.to_uint n).

End strconv.

(** ** Package [regexp]

    The matching engine itself ([Compile] and the search [doExecute]) is the
    library's; what the suite calls are the wrappers below, written as in
    [regexp.go]. *)

Module regexp.

(** A span [(start, end)] of byte offsets into the input. *)
Definition Span : Type := nat * nat.

Class Engine := {
  Regexp : Type;
  (** [regexp.Compile]: [None] is a compile error. *)
  Compile : string -> option Regexp;
  (** [re.doExecute] on input [b] from offset [pos]: the leftmost match at
      or after [pos] with the spans of its capture groups ([None] for a
      group that did not take part), or [None] when there is no match. *)
  doExecute : Regexp -> string -> nat -> option (Span * list (option Span))
}.

Section Wrappers.
Context {E : Engine}.

Definition MatchString (re : Regexp) (s : string) : bool :=
  match doExecute re s 0 with Some _ => true | None => false end.

Definition slice (b : string) (sp : Span) : string :=
  substring (fst sp) (snd sp - fst sp) b.

(** The loop of [allMatches]: [i] matches delivered so far out of at most
    [n], [prevMatchEnd] is [None] for Go's [-1]. An empty match right
    after the previous match is not delivered. *)
Fixpoint allMatchesLoop (fuel : nat) (re : Regexp) (b : string)
         (n pos i : nat) (prevMatchEnd : option nat) : list Span :=
  match fuel with
  | O => []
  | S fuel' =>
    if (i <? n) && (pos <=? String.length b) then
      match doExecute re b pos with
      | None => []
      | Some ((m0, m1), _) =>
        let empty := m1 =? pos in
        let accept :=
          negb (empty && match prevMatchEnd with
                         | Some p => m0 =? p
                         | None => false
                         end) in
        let pos' :=
          if empty then
            let w := utf8.width (substring pos (String.length b - pos) b) in
            if 0 <? w then pos + w else String.length b + 1
          else m1 in
        if accept
        then (m0, m1) :: allMatchesLoop fuel' re b n pos' (S i) (Some m1)
        else allMatchesLoop fuel' re b n pos' i (Some m1)
      end
    else []
  end.

(** [re.FindAll(b, -1)]: with [n < 0], at most [len(b)+1] matches. *)
Definition FindAll (re : Regexp) (b : string) : list string :=
  let n := String.length b + 1 in
  map (slice b)
      (allMatchesLoop ((String.length b + 2) * (String.length b + 3))
                      re b n 0 0 None).

(** [re.FindSubmatch(b)]: the whole match followed by one entry per
    capture group; the outer [None] is Go's nil slice. *)
Definition FindSubmatch (re : Regexp) (b : string)
  : option (list (option string)) :=
  match doExecute re b 0 with
  | None => None
  | Some (m, caps) => Some (Some (slice b m) :: map (option_map (slice b)) caps)
  end.

End Wrappers.

End regexp.

(** ** Package [strconv]: [ParseFloat]

    The floating-point numbers and their parser are the library's. *)

Module floats.

Class Floats := {
  float64 : Type;
  float32 : Type;
  (** [strconv.ParseFloat s bitSize]. *)
  ParseFloat : string -> nat -> float64 * option strconv.NumError;
  (** The conversion [float32(p)]. *)
  to_float32 : float64 -> float32
}.

End floats.

(** ** Package [context] *)

Module context.

Inductive Context := Background | WithValue (parent : Context) (key val : string).

End context.

(** ** Package [reflect] and the callables registered as steps *)

Module reflect.
Import floats.

Inductive Kind :=
| Invalid | Bool | Int | Int8 | Int16 | Int32 | Int64
| Uint | Uint8 | Uint16 | Uint32 | Uint64 | Uintptr
| Float32 | Float64 | Complex64 | Complex128
| Array | Chan | Func | Interface | Map | Pointer | Slice
| String | Struct | UnsafePointer.

(** [Kind.String()] *)
Definition KindString (k : Kind) : string :=
  match k with
  | Invalid => "invalid" | Bool => "bool" | Int => "int" | Int8 => "int8"
  | Int16 => "int16" | Int32 => "int32" | Int64 => "int64" | Uint => "uint"
  | Uint8 => "uint8" | Uint16 => "uint16" | Uint32 => "uint32"
  | Uint64 => "uint64" | Uintptr => "uintptr" | Float32 => "float32"
  | Float64 => "float64" | Complex64 => "complex64"
  | Complex128 => "complex128" | Array => "array" | Chan => "chan"
  | Func => "func" | Interface => "interface" | Map => "map"
  | Pointer => "ptr" | Slice => "slice" | String => "string"
  | Struct => "struct" | UnsafePointer => "unsafe.Pointer"
  end.

(** The kinds [IsNil] accepts. *)
Definition nillable (k : Kind) : bool :=
  match k with
  | Chan | Func | Interface | Map | Pointer | Slice | UnsafePointer => true
  | _ => false
  end.

(** A [reflect.Type], as far as the suite inspects it. *)
Record RType := {
  TypeString : string;
  TypeKind : Kind;
  (** [t.Implements(context.Context)] *)
  ImplementsContext : bool
}.

(** What a [panic] carries: [PNil] is [panic(nil)], for which [recover]
    returns nil under the module's [go 1.16]; [PVal msg] is any other
    value, with [msg] its rendering under [%s]. *)
Inductive PanicValue := PNil | PVal (msg : string).

Section Values.
Context {F : Floats}.

(** A [reflect.Value] passed to or returned by a callable. *)
Inductive Value :=
| VBytes (b : option string)           (* []uint8; [None] is the nil slice *)
| VString (s : string)
| VInt (n : Z)
| VFloat32 (x : float32)
| VFloat64 (x : float64)
| VContext (c : context.Context)
| VNil (k : Kind)                      (* the nil of a nillable kind *)
| VError (msg : string)                (* a non-nil interface or pointer that is an error *)
| VOther (k : Kind) (repr : string).   (* any other non-nil value *)

(** [v.IsNil()]: defined on the kinds that have a nil, a panic on the
    others. *)
Definition IsNil (v : Value) : PanicValue + bool :=
  let refuse k :=
    inl (PVal ("reflect: call of reflect.Value.IsNil on " ++ KindString k
               ++ " Value")%string) in
  match v with
  | VBytes None => inr true
  | VBytes (Some _) => inr false
  | VString _ => refuse String
  | VInt _ => refuse Int
  | VFloat32 _ => refuse Float32
  | VFloat64 _ => refuse Float64
  | VContext _ => inr false
  | VNil k => if nillable k then inr true else refuse k
  | VError _ => inr false
  | VOther k _ => if nillable k then inr false else refuse k
  end.

(** One entry of the execution trace: a callable or a hook was entered. *)
Inductive Event :=
| Called (name : string) (args : list Value)
| Hooked (name : string) (ctx : context.Context).

(** How a call ends, and the time it took on the clock. *)
Inductive CallOutcome :=
| Returns (ret : list Value) (elapsed : nat)
| Panics (v : PanicValue) (elapsed : nat).

(** A Go function value seen through [reflect]: its type and what
    [Call] does on given arguments after a given history. The checks
    [reflect] makes on the arguments are part of [body]. *)
Record FuncValue := {
  FuncName : string;
  FuncType : string;                   (* d.Type().String() *)
  Ins : list RType;                    (* d.Type().In(i), for i < NumIn *)
  body : list Value -> list Event -> CallOutcome
}.

Definition NumIn (d : FuncValue) : nat := length (Ins d).

(** An [interface{}] handed to [AddStep]. *)
Inductive Iface :=
| IFunc (d : FuncValue)
| INonFunc (k : Kind).

(** A lifecycle hook [func(ctx context.Context)]: [None] when it returns. *)
Record Hook := {
  HookName : string;
  hookBody : context.Context -> list Event -> option PanicValue
}.

End Values.

End reflect.

(** ** The runtime: clock, trace, map iteration order, panics *)

Module rt.
Import floats reflect.

Section Runtime.
Context {F : Floats}.

(** [now] is the clock [time.Now] reads; [trace] lists the calls made,
    oldest first; [sched] holds, for each [range] over a map still to
    come, the picks that fix its iteration order. *)
Record World := {
  now : nat;
  trace : list Event;
  sched : list (list nat)
}.

Inductive Res (A : Type) :=
| Ok (a : A)
| Panic (v : PanicValue).
Arguments Panic {A} v.

(** Computations over a state [S] that may panic; the state at the
    panic is kept. *)
Definition M (S A : Type) : Type := S -> Res A * S.

Definition ret {S A} (a : A) : M S A := fun s => (Ok a, s).

Definition bind {S A B} (c : M S A) (k : A -> M S B) : M S B :=
  fun s =>
    match c s with
    | (Ok a, s') => k a s'
    | (Panic v, s') => (Panic v, s')
    end.

Definition panic {S A} (v : PanicValue) : M S A := fun s => (Panic v, s).

Definition lift {S A} (r : Res A) : M S A := fun s => (r, s).

(** [defer d; body]: [d] runs when [body] ends, panicking or not; a
    panic of [d] replaces the one in flight. *)
Definition defer {S A} (d : M S unit) (body : M S A) : M S A :=
  fun s =>
    match body s with
    | (r, s') =>
      match d s' with
      | (Ok _, s'') => (r, s'')
      | (Panic v, s'') => (Panic v, s'')
      end
    end.

(** [defer func() { if r := recover(); r != nil { h r } }(); body]: a
    panic of [body] is stopped and the function returns; the handler
    runs unless the recovered value is nil. *)
Definition recovering {S} (h : PanicValue -> M S unit) (body : M S unit)
  : M S unit :=
  fun s =>
    match body s with
    | (Ok _, s') => (Ok tt, s')
    | (Panic PNil, s') => (Ok tt, s')
    | (Panic v, s') => h v s'
    end.

(** A [for ... range] loop over a slice whose body may panic. *)
Fixpoint forEach {S A} (l : list A) (f : A -> M S unit) : M S unit :=
  match l with
  | [] => ret tt
  | a :: l' => bind (f a) (fun _ => forEach l' f)
  end.

(** The order in which a [range] visits a map: at each step one of the
    remaining entries is picked; every order is some choice of picks. *)
Fixpoint pickOrder {A} (fuel : nat) (picks : list nat) (l : list A) : list A :=
  match fuel, l with
  | S fuel', a :: l' =>
    let k := hd 0 picks mod length l in
    nth k l a :: pickOrder fuel' (tl picks) (firstn k l ++ skipn (S k) l)
  | _, _ => []
  end.

Definition rangeOrder {A} (picks : list nat) (m : list A) : list A :=
  pickOrder (length m) picks m.

(** A [range] over the map [m]: the next picks of the schedule fix the
    order. *)
Definition rangeMap {A} (m : list A) : M World (list A) :=
  fun w =>
    (Ok (rangeOrder (hd [] (sched w)) m),
     {| now := now w; trace := trace w; sched := tl (sched w) |}).

(** [time.Now()] *)
Definition timeNow : M World nat := fun w => (Ok (now w), w).

(** Entering a hook or a callable is recorded in the trace; a call
    advances the clock by the time it takes. *)
Definition record (ev : Event) (elapsed : nat) : M World unit :=
  fun w =>
    (Ok tt, {| now := now w + elapsed;
               trace := trace w ++ [ev];
               sched := sched w |}).

Definition callHook (ctx : context.Context) (h : Hook) : M World unit :=
  fun w =>
    match hookBody h ctx (trace w) with
    | None => record (Hooked (HookName h) ctx) 0 w
    | Some v => bind (record (Hooked (HookName h) ctx) 0) (fun _ => panic v) w
    end.

(** [d.Call(in)] on a function value. *)
Definition Call (d : FuncValue) (args : list Value) : M World (list Value) :=
  fun w =>
    match body d args (trace w) with
    | Returns out elapsed =>
      bind (record (Called (FuncName d) args) elapsed) (fun _ => ret out) w
    | Panics v elapsed =>
      bind (record (Called (FuncName d) args) elapsed) (fun _ => panic v) w
    end.

(** A computation on a part [T] of the state [S]. *)
Definition zoom {S T A} (proj : S -> T) (upd : T -> S -> S) (c : M T A)
  : M S A :=
  fun s => match c (proj s) with (r, t') => (r, upd t' s) end.

End Runtime.

Arguments Panic {A} v.

End rt.

Declare Scope go_scope.
Delimit Scope go_scope with go.
Notation "x <- c ;; k" := (rt.bind c (fun x => k))
  (at level 61, c at next level, right associativity) : go_scope.
Notation "c ;; k" := (rt.bind c (fun _ => k))
  (at level 61, right associativity) : go_scope.

(** ** Package [messages] (cucumber): the parsed document tree *)

Module msgs.

Record Location := { Line : nat; Column : nat }.
Record Tag := { TagName : string }.
Record TableCell := { Value : string }.
Record TableRow := { Cells : list TableCell }.
(** [TableHeader] is a pointer: [None] is nil. *)
Record Examples := { TableHeader : option TableRow; TableBody : list TableRow }.
Record Step := {
  StepLocation : option Location;
  Keyword : string;
  KeywordType : string;
  Text : string;
  DocString : option string;
  DataTable : option (list TableRow)
}.
Record Background := { BackgroundSteps : list Step }.
Record Scenario := {
  ScenarioTags : list Tag;
  ScenarioSteps : list Step;
  ScenarioExamples : list Examples
}.
Record FeatureChild := {
  ChildScenario : option Scenario;
  ChildBackground : option Background
}.
Record Feature := { FeatureTags : list Tag; Children : list FeatureChild }.

(** What [gherkin.ParseGherkinDocument] gives for one path. *)
Inductive Parsed :=
| ParseError (err : string)
| Document (feature : option Feature).

End msgs.

(** ** Package [gobdd]: the suite *)

Module gobdd.
Import floats reflect rt regexp msgs.
Local Open Scope go_scope.

Section Suite.
Context {E : Engine} {F : Floats}.

Record stepDef := { expr : Regexp; f : Iface }.

Record SuiteOptions := {
  features : list string;
  ignoreTags : list string;
  tags : list string;
  beforeScenario : list Hook;
  afterScenario : list Hook;
  beforeStep : list Hook;
  afterStep : list Hook;
  runInParallel : bool
}.

(** [parameterTypes] is a Go map: an association list with distinct
    keys, visited in an order the runtime chooses ([rangeMap]). *)
Record Suite := {
  steps : list stepDef;
  options : SuiteOptions;
  parameterTypes : list (string * list string)
}.

(** The state the suite's methods run in: the receiver and the world. *)
Record Env := { suite : Suite; world : World }.

Definition SM (A : Type) : Type := M Env A.

Definition getSuite : SM Suite := fun e => (Ok (suite e), e).
Definition setSuite (s : Suite) : SM unit :=
  fun e => (Ok tt, {| suite := s; world := world e |}).

Definition inWorld {A} (c : M World A) : SM A :=
  zoom world (fun w e => {| suite := suite e; world := w |}) c.

Definition NewSuiteOptions : SuiteOptions :=
  {| features := []; ignoreTags := []; tags := [];
     beforeScenario := []; afterScenario := [];
     beforeStep := []; afterStep := []; runInParallel := false |}.

Definition RunInParallel (o : SuiteOptions) : SuiteOptions :=
  {| features := features o; ignoreTags := ignoreTags o; tags := tags o;
     beforeScenario := beforeScenario o; afterScenario := afterScenario o;
     beforeStep := beforeStep o; afterStep := afterStep o;
     runInParallel := true |}.

Definition WithFeaturesPath (path : list string) (o : SuiteOptions) : SuiteOptions :=
  {| features := path; ignoreTags := ignoreTags o; tags := tags o;
     beforeScenario := beforeScenario o; afterScenario := afterScenario o;
     beforeStep := beforeStep o; afterStep := afterStep o;
     runInParallel := runInParallel o |}.

Definition WithTags (ts : list string) (o : SuiteOptions) : SuiteOptions :=
  {| features := features o; ignoreTags := ignoreTags o; tags := ts;
     beforeScenario := beforeScenario o; afterScenario := afterScenario o;
     beforeStep := beforeStep o; afterStep := afterStep o;
     runInParallel := runInParallel o |}.

Definition WithIgnoredTags (ts : list string) (o : SuiteOptions) : SuiteOptions :=
  {| features := features o; ignoreTags := ts; tags := tags o;
     beforeScenario := beforeScenario o; afterScenario := afterScenario o;
     beforeStep := beforeStep o; afterStep := afterStep o;
     runInParallel := runInParallel o |}.

Definition WithBeforeScenario (h : Hook) (o : SuiteOptions) : SuiteOptions :=
  {| features := features o; ignoreTags := ignoreTags o; tags := tags o;
     beforeScenario := beforeScenario o ++ [h]; afterScenario := afterScenario o;
     beforeStep := beforeStep o; afterStep := afterStep o;
     runInParallel := runInParallel o |}.

Definition WithAfterScenario (h : Hook) (o : SuiteOptions) : SuiteOptions :=
  {| features := features o; ignoreTags := ignoreTags o; tags := tags o;
     beforeScenario := beforeScenario o; afterScenario := afterScenario o ++ [h];
     beforeStep := beforeStep o; afterStep := afterStep o;
     runInParallel := runInParallel o |}.

Definition WithBeforeStep (h : Hook) (o : SuiteOptions) : SuiteOptions :=
  {| features := features o; ignoreTags := ignoreTags o; tags := tags o;
     beforeScenario := beforeScenario o; afterScenario := afterScenario o;
     beforeStep := beforeStep o ++ [h]; afterStep := afterStep o;
     runInParallel := runInParallel o |}.

Definition WithAfterStep (h : Hook) (o : SuiteOptions) : SuiteOptions :=
  {| features := features o; ignoreTags := ignoreTags o; tags := tags o;
     beforeScenario := beforeScenario o; afterScenario := afterScenario o;
     beforeStep := beforeStep o; afterStep := afterStep o ++ [h];
     runInParallel := runInParallel o |}.

(** [m[k] = append(m[k], v)] *)
Fixpoint mapAppend (m : list (string * list string)) (k v : string)
  : list (string * list string) :=
  match m with
  | [] => [(k, [v])]
  | (k', vs) :: m' =>
    if String.eqb k' k then (k', vs ++ [v]) :: m'
    else (k', vs) :: mapAppend m' k v
  end.

Definition AddParameterTypes (from : string) (to : list string) : SM unit :=
  forEach to (fun t =>
    match Compile t with
    | None =>
      panic (PVal ("the regular expresion for key " ++ from
                   ++ " doesn't compile: " ++ t)%string)
    | Some _ =>
      s <- getSuite ;;
      setSuite {| steps := steps s; options := options s;
                  parameterTypes := mapAppend (parameterTypes s) from t |}
    end).

(** [validateStepFunc]: [None] is a nil error. *)
Definition validateStepFunc (fn : Iface) : option string :=
  match fn with
  | INonFunc _ => Some "the parameter should be a function"
  | IFunc d =>
    if NumIn d <? 1
    then Some "the function should have Context as the first argument"
    else
      match nth_error (Ins d) 0 with
      | Some val =>
        if negb (ImplementsContext val)
        then Some "the function should have Context as the first argument"
        else None
      | None => Some "the function should have Context as the first argument"
      end
  end.

(** The variants [applyParameterTypes] appends for one map entry. *)
Definition variantsOf (expr : string) (entry : string * list string) : list string :=
  let '(from, to) := entry in
  flat_map (fun t =>
              if strings.Contains expr from
              then [strings.ReplaceAll expr from t] else []) to.

Definition applyParameterTypes (expr : string) : SM (list string) :=
  s <- getSuite ;;
  entries <- inWorld (rangeMap (parameterTypes s)) ;;
  ret (expr :: flat_map (variantsOf expr) entries).

(** [regexp.MustCompile]; the text of the library's error is not
    modelled. *)
Definition MustCompile (str : string) : SM Regexp :=
  match Compile str with
  | Some re => ret re
  | None => panic (PVal ("regexp: Compile(" ++ str ++ "): error parsing regexp")%string)
  end.

Definition appendStep (d : stepDef) : SM unit :=
  s <- getSuite ;;
  setSuite {| steps := steps s ++ [d]; options := options s;
              parameterTypes := parameterTypes s |}.

Definition AddStep (expr0 : string) (step : Iface) : SM unit :=
  match validateStepFunc step with
  | Some err =>
    panic (PVal ("the step function for step `" ++ expr0
                 ++ "` is incorrect: %!w(*errors.errorString=&{" ++ err ++ "})")%string)
  | None =>
    exprs <- applyParameterTypes expr0 ;;
    forEach exprs (fun e =>
      compiled <- MustCompile e ;;
      appendStep {| expr := compiled; f := step |})
  end.

Definition AddRegexStep (re : Regexp) (step : Iface) : SM unit :=
  match validateStepFunc step with
  | Some err =>
    panic (PVal ("the step function is incorrect: %!w(*errors.errorString=&{"
                 ++ err ++ "})")%string)
  | None => appendStep {| expr := re; f := step |}
  end.

(** The body of the loop of [findStepDef] on the variables
    [(sd, found, matched)]; [sd = None] is the zero [stepDef]. *)
Definition findStepDefStep (text : string)
           (acc : option stepDef * nat * bool) (step : stepDef)
  : option stepDef * nat * bool :=
  let '(sd, found, matched) := acc in
  if negb (MatchString (expr step) text) then acc
  else
    let l := length (FindAll (expr step) text) in
    if found <? l then (Some step, l, true) else (sd, found, true).

Definition findStepDef (registered : list stepDef) (text : string)
  : option stepDef * option string :=
  let '(sd, _, matched) :=
    fold_left (findStepDefStep text) registered (None, 0, false) in
  if negb matched then (sd, Some "cannot find step definition")
  else (sd, None).

(** [contains] tells whether [a] contains [x]. *)
Fixpoint contains (a : list string) (x : string) : bool :=
  match a with
  | [] => false
  | n :: a' => if String.eqb x n then true else contains a' x
  end.

Definition skipScenario (o : SuiteOptions) (scenarioTags : list Tag) : bool :=
  if existsb (fun tag => contains (ignoreTags o) (TagName tag)) scenarioTags
  then true
  else if length (tags o) =? 0 then false
  else if existsb (fun tag => contains (tags o) (TagName tag)) scenarioTags
  then false
  else true.

(** The matcher's vocabulary: a definition matches a text, and how
    many non-overlapping matches its pattern has in it. *)
Definition matchesText (text : string) (d : stepDef) : bool :=
  MatchString (expr d) text.

Definition matchCount (text : string) (d : stepDef) : nat :=
  length (FindAll (expr d) text).

Definition getRegexpForVar (v : string) : string :=
  match snd (strconv.Atoi v) with
  | None => "(\d+)"
  | Some _ =>
    match snd (ParseFloat v 32) with
    | None => "([+-]?([0-9]*[.])?[0-9]+)"
    | Some _ => "(.*)"
    end
  end.

Definition indexOutOfRange {A} (i len : nat) : Res A :=
  Panic (PVal ("runtime error: index out of range [" ++ strconv.Itoa i
               ++ "] with length " ++ strconv.Itoa len)%string).

Definition nilDereference {A} : Res A :=
  Panic (PVal "runtime error: invalid memory address or nil pointer dereference").

(** The loop of [stepFromExample] from index [i] on: [row.Cells[i]]
    panics when the row is shorter than the header. *)
Fixpoint stepFromExampleLoop (i : nat) (placeholders : list string)
         (row : TableRow) (stepName expr0 : string) : Res (string * string) :=
  match placeholders with
  | [] => Ok (stepName, expr0)
  | ph :: rest =>
    match nth_error (Cells row) i with
    | None => indexOutOfRange i (length (Cells row))
    | Some cell =>
      let t := getRegexpForVar (Value cell) in
      stepFromExampleLoop (S i) rest row
                          (strings.ReplaceAll stepName ph (Value cell))
                          (strings.ReplaceAll expr0 ph t)
    end
  end.

Definition stepFromExample (stepName : string) (row : TableRow)
           (placeholders : list string) : Res (string * string) :=
  stepFromExampleLoop 0 placeholders row stepName stepName.

(** The step [stepsFromExamples] clones from the source step: the
    doc string and the table are not copied. *)
Definition cloneStep (sourceStep : Step) (stepText : string) : Step :=
  {| StepLocation := StepLocation sourceStep;
     Keyword := Keyword sourceStep;
     KeywordType := EmptyString;
     Text := stepText;
     DocString := None;
     DataTable := None |}.

(** The body of the loop of [stepsFromExamples] for one row: the new
    step, or [None] when no definition matches its text ([continue]). *)
Definition stepFromRow (sourceStep : Step) (placeholdersValues : list string)
           (row : TableRow) : SM (option Step) :=
  p <- lift (stepFromExample (Text sourceStep) row placeholdersValues) ;;
  let '(stepText, expr0) := p in
  s <- getSuite ;;
  match findStepDef (steps s) stepText with
  | (_, Some _) => ret None
  | (def, None) =>
    AddStep expr0 (match def with
                   | Some d => f d
                   | None => INonFunc Invalid
                   end) ;;
    ret (Some (cloneStep sourceStep stepText))
  end.

Fixpoint stepsFromRows (sourceStep : Step) (placeholdersValues : list string)
         (rows : list TableRow) : SM (list Step) :=
  match rows with
  | [] => ret []
  | row :: rows' =>
    o <- stepFromRow sourceStep placeholdersValues row ;;
    rest <- stepsFromRows sourceStep placeholdersValues rows' ;;
    ret (match o with Some st => st :: rest | None => rest end)
  end.

(** The placeholders [<name>] of a table header. *)
Definition placeholdersOf (header : TableRow) : list string :=
  map (fun placeholder => ("<" ++ Value placeholder ++ ">")%string) (Cells header).

Definition stepsFromExamples (sourceStep : Step) (example : Examples)
  : SM (list Step) :=
  match TableHeader example with
  | None => lift nilDereference
  | Some header =>
    stepsFromRows sourceStep (placeholdersOf header) (TableBody example)
  end.

(** The concrete step of an outline step for one row of a table: the
    clone with the row's values substituted, when the row has a cell for
    every placeholder. *)
Definition concreteStep (sourceStep : Step) (header row : TableRow) : option Step :=
  match stepFromExample (Text sourceStep) row (placeholdersOf header) with
  | Ok (stepText, _) => Some (cloneStep sourceStep stepText)
  | Panic _ => None
  end.

(** [stepsList[i]] for one outline step: the steps of every example
    table, appended. *)
Fixpoint stepsOfOutlineStep (outlineStep : Step) (examples : list Examples)
  : SM (list Step) :=
  match examples with
  | [] => ret []
  | example :: examples' =>
    l <- stepsFromExamples outlineStep example ;;
    rest <- stepsOfOutlineStep outlineStep examples' ;;
    ret (l ++ rest)
  end.

Fixpoint buildStepsList (outline : list Step) (examples : list Examples)
  : SM (list (list Step)) :=
  match outline with
  | [] => ret []
  | outlineStep :: outline' =>
    l <- stepsOfOutlineStep outlineStep examples ;;
    rest <- buildStepsList outline' examples ;;
    ret (l :: rest)
  end.

(** [stepsList[si][ci]] *)
Definition index2 (stepsList : list (list Step)) (si ci : nat) : Res Step :=
  match nth_error stepsList si with
  | None => indexOutOfRange si (length stepsList)
  | Some l =>
    match nth_error l ci with
    | None => indexOutOfRange ci (length l)
    | Some st => Ok st
    end
  end.

(** A loop whose body yields one element to append, or panics. *)
Fixpoint collect {A B} (l : list A) (g : A -> Res (list B)) : Res (list B) :=
  match l with
  | [] => Ok []
  | a :: l' =>
    match g a with
    | Panic v => Panic v
    | Ok x =>
      match collect l' g with
      | Panic v => Panic v
      | Ok rest => Ok (x ++ rest)
      end
    end
  end.

(** The three nested loops that fill [newSteps]: tables [ei], rows [ci]
    of that table, steps [si]. *)
Definition pickSteps (stepsList : list (list Step)) (nsteps : nat)
           (examples : list Examples) : Res (list Step) :=
  collect examples (fun example =>
    collect (seq 0 (length (TableBody example))) (fun ci =>
      collect (seq 0 nsteps) (fun si =>
        match index2 stepsList si ci with
        | Ok st => Ok [st]
        | Panic v => Panic v
        end))).

Definition getOutlineStep (outline : list Step) (examples : list Examples)
  : SM (list Step) :=
  stepsList <- buildStepsList outline examples ;;
  if length stepsList =? 0 then ret []
  else lift (pickSteps stepsList (length outline) examples).

Definition callBeforeScenarios (ctx : context.Context) : SM unit :=
  s <- getSuite ;; forEach (beforeScenario (options s)) (fun h => inWorld (callHook ctx h)).

Definition callAfterScenarios (ctx : context.Context) : SM unit :=
  s <- getSuite ;; forEach (afterScenario (options s)) (fun h => inWorld (callHook ctx h)).

Definition callBeforeSteps (ctx : context.Context) : SM unit :=
  s <- getSuite ;; forEach (beforeStep (options s)) (fun h => inWorld (callHook ctx h)).

Definition callAfterSteps (ctx : context.Context) : SM unit :=
  s <- getSuite ;; forEach (afterStep (options s)) (fun h => inWorld (callHook ctx h)).

Definition bytesToString (b : option string) : string :=
  match b with Some s => s | None => EmptyString end.

Definition paramType (param : option string) (inType : RType) : reflect.Value :=
  match TypeKind inType with
  | String => VString (bytesToString param)
  | Int => VInt (fst (strconv.Atoi (bytesToString param)))
  | Float32 => VFloat32 (to_float32 (fst (ParseFloat (bytesToString param) 32)))
  | Float64 => VFloat64 (fst (ParseFloat (bytesToString param) 32))
  | _ => VBytes param
  end.

(** The loop of [run] that builds the arguments after the context. *)
Fixpoint coerce (i : nat) (params : list (option string)) (d : FuncValue)
  : Res (list reflect.Value) :=
  match params with
  | [] => Ok []
  | v :: rest =>
    match nth_error (Ins d) (i + 1) with
    | None => Panic (PVal "reflect: Func index out of bounds")
    | Some inType =>
      match coerce (S i) rest d with
      | Ok vs => Ok (paramType v inType :: vs)
      | Panic p => Panic p
      end
    end
  end.

Definition arityMessage (d : FuncValue) (received : nat) : string :=
  ("the step function <" ++ FuncType d ++ " Value> accepts "
   ++ strconv.Itoa (NumIn d) ++ " arguments but "
   ++ strconv.Itoa received ++ " received")%string.

(** The body of [def.run], without its deferred function. *)
Definition runBody (def : option stepDef) (ctx : context.Context)
           (params : list (option string)) : SM unit :=
  match def with
  | None => panic (PVal "reflect: call of reflect.Value.Type on zero Value")
  | Some sd =>
    match f sd with
    | INonFunc _ => panic (PVal "reflect: NumIn of non-func type")
    | IFunc d =>
      if negb (length params + 1 =? NumIn d)
      then panic (PVal (arityMessage d (length params + 1)))
      else
        rest <- lift (coerce 0 params d) ;;
        _ <- inWorld (Call d (VContext ctx :: rest)) ;;
        ret tt
    end
  end.

(** [def.run]: the deferred [recover] has an empty handler. *)
Definition run (def : option stepDef) (ctx : context.Context)
           (params : list (option string)) : SM unit :=
  recovering (fun _ => ret tt) (runBody def ctx params).

(** [def.expr.FindSubmatch([]byte(step.Text))[1:]] *)
Definition submatches (def : option stepDef) (text : string)
  : Res (list (option string)) :=
  match def with
  | None => nilDereference
  | Some sd =>
    match FindSubmatch (expr sd) text with
    | Some (_ :: params) => Ok params
    | _ => Panic (PVal "runtime error: slice bounds out of range [1:0]")
    end
  end.

Definition runStep (ctx : context.Context) (step : Step) : SM unit :=
  s <- getSuite ;;
  match findStepDef (steps s) (Text step) with
  | (_, Some _) =>
    panic (PVal ("cannot find step definition for step: "
                 ++ Keyword step ++ Text step)%string)
  | (def, None) =>
    params <- lift (submatches def (Text step)) ;;
    callBeforeSteps ctx ;;
    defer (callAfterSteps ctx) (run def ctx params)
  end.

Definition runScenario (scenario : Scenario) (bkg : option Background)
  : SM unit :=
  let ctx := context.Background in
  callBeforeScenarios ctx ;;
  defer (callAfterScenarios ctx)
    ((match bkg with
      | Some b => forEach (BackgroundSteps b) (runStep ctx)
      | None => ret tt
      end) ;;
     if 0 <? length (ScenarioExamples scenario) then
       sts <- getOutlineStep (ScenarioSteps scenario) (ScenarioExamples scenario) ;;
       forEach sts (runStep context.Background)
     else forEach (ScenarioSteps scenario) (runStep ctx)).

Definition runFeature (feature : Feature) : SM unit :=
  s <- getSuite ;;
  if existsb (fun tag => contains (ignoreTags (options s)) (TagName tag))
             (FeatureTags feature)
  then ret tt
  else
    forEach (Children feature) (fun child =>
      match ChildScenario child with
      | None => ret tt
      | Some scenario =>
        s' <- getSuite ;;
        if skipScenario (options s') (ScenarioTags scenario) then ret tt
        else runScenario scenario (ChildBackground child)
      end).

(** [Suite.Run]; [load] stands for opening and parsing a path. *)
Definition Run (load : string -> Parsed) : SM unit :=
  s <- getSuite ;;
  forEach (features (options s)) (fun featurePath =>
    match load featurePath with
    | ParseError err =>
      panic (PVal ("error while loading document: " ++ err
                   ++ chr 10)%string)
    | Document None => ret tt
    | Document (Some feature) => runFeature feature
    end).

(** [NewSuite]: the options, then the four default parameter types. *)
Definition NewSuite (optionClosures : list (SuiteOptions -> SuiteOptions))
  : M World Suite :=
  fun w =>
    let opts := fold_left (fun o c => c o) optionClosures NewSuiteOptions in
    let s := {| steps := []; options := opts; parameterTypes := [] |} in
    match (AddParameterTypes "{int}" ["(\d)"] ;;
           AddParameterTypes "{float}" ["([-+]?\d*\.?\d*)"] ;;
           AddParameterTypes "{word}" ["([\d\w]+)"] ;;
           AddParameterTypes "{text}"
             [chr 34 ++ "([\d\w\-\s]+)" ++ chr 34;
              "'([\d\w\-\s]+)'"]%string)
            {| suite := s; world := w |} with
    | (Ok _, e) => (Ok (suite e), world e)
    | (Panic v, e) => (Panic v, world e)
    end.

End Suite.

End gobdd.

(** ** Package [models]: steps and scenarios with recorded executions *)

Module models.
Import floats reflect rt.
Local Open Scope go_scope.

(** [type Result int] with [Passed Result = iota], [Failed], [Skipped]. *)
Definition ResultInt : Type := Z.
Definition Passed : ResultInt := 0%Z.
Definition Failed : ResultInt := 1%Z.
Definition Skipped : ResultInt := 2%Z.

(** A [time.Time] is an instant of the clock; [0] is the zero [Time]. *)
Definition Time : Type := nat.

Record StepExecution := {
  Result : ResultInt;
  StartTime : Time;
  EndTime : Time;
  Err : option string
}.

(** The zero value of [StepExecution]. *)
Definition zeroExecution : StepExecution :=
  {| Result := 0%Z; StartTime := 0; EndTime := 0; Err := None |}.

Section Models.
Context {F : Floats}.

Record Step := {
  Location : option msgs.Location;
  Keyword : string;
  KeywordType : string;
  Text : string;
  DocString : option string;
  DataTable : option (list msgs.TableRow);
  Func : Iface;
  Args : list Value;
  Execution : StepExecution
}.

Definition withExecution (x : StepExecution) (s : Step) : Step :=
  {| Location := Location s; Keyword := Keyword s;
     KeywordType := KeywordType s; Text := Text s;
     DocString := DocString s; DataTable := DataTable s;
     Func := Func s; Args := Args s; Execution := x |}.

(** The receiver [s *Step] and the world. *)
Record StepState := { self : Step; world : World }.

Definition getSelf : M StepState Step := fun e => (Ok (self e), e).

Definition modifyExecution (g : StepExecution -> StepExecution)
  : M StepState unit :=
  fun e => (Ok tt, {| self := withExecution (g (Execution (self e))) (self e);
                      world := world e |}).

Definition inWorld {A} (c : M World A) : M StepState A :=
  zoom world (fun w e => {| self := self e; world := w |}) c.

(** [v.Call(args)] on any [reflect.Value]. *)
Definition CallValue (fv : Iface) (args : list Value) : M World (list Value) :=
  match fv with
  | IFunc d => Call d args
  | INonFunc Invalid => panic (PVal "reflect: call of reflect.Value.Call on zero Value")
  | INonFunc k =>
    panic (PVal ("reflect: call of reflect.Value.Call on " ++ KindString k
                 ++ " Value")%string)
  end.

(** [fmt.Errorf("%s", r)] *)
Definition render (r : PanicValue) : string :=
  match r with PVal msg => msg | PNil => "%!s(<nil>)" end.

Definition onlyErrorOrNil : PanicValue :=
  PVal "steps should only return a single error or nil".

Definition Run (ctx : context.Context) : M StepState unit :=
  s <- getSelf ;;
  let args := VContext ctx :: Args s in
  recovering
    (fun r => modifyExecution (fun x =>
       {| Result := Failed; StartTime := StartTime x;
          EndTime := EndTime x; Err := Some (render r) |}))
    (t0 <- inWorld timeNow ;;
     modifyExecution (fun x =>
       {| Result := Result x; StartTime := t0;
          EndTime := EndTime x; Err := Err x |}) ;;
     out <- inWorld (CallValue (Func s) args) ;;
     t1 <- inWorld timeNow ;;
     modifyExecution (fun x =>
       {| Result := Result x; StartTime := StartTime x;
          EndTime := t1; Err := Err x |}) ;;
     match out with
     | [r0] =>
       match IsNil r0 with
       | inl v => panic v
       | inr true =>
         modifyExecution (fun x =>
           {| Result := Passed; StartTime := StartTime x;
              EndTime := EndTime x; Err := Err x |})
       | inr false =>
         match r0 with
         | VError err =>
           modifyExecution (fun x =>
             {| Result := Failed; StartTime := StartTime x;
                EndTime := EndTime x; Err := Some err |})
         | _ => panic onlyErrorOrNil
         end
       end
     | _ => panic onlyErrorOrNil
     end).

(** The trace entry of the call that running a step makes, when its
    [Func] is a function. *)
Definition callOf (ctx : context.Context) (s : Step) : list Event :=
  match Func s with
  | IFunc d => [Called (FuncName d) (VContext ctx :: Args s)]
  | INonFunc _ => []
  end.

(** [NewStep]; [scheme] is [scheme.StepDefFor], which binds the step to
    its definition and may fail. *)
Definition NewStep (stepDoc : msgs.Step)
           (scheme : Step -> Step * option string) : option Step * option string :=
  let s := {| Location := msgs.StepLocation stepDoc;
              Keyword := msgs.Keyword stepDoc;
              KeywordType := msgs.KeywordType stepDoc;
              Text := msgs.Text stepDoc;
              DocString := msgs.DocString stepDoc;
              DataTable := msgs.DataTable stepDoc;
              Func := INonFunc Invalid;
              Args := [];
              Execution := zeroExecution |} in
  match scheme s with
  | (_, Some err) => (None, Some err)
  | (s', None) => (Some s', None)
  end.

Fixpoint GenerateSteps (stepDocs : list msgs.Step)
         (scheme : Step -> Step * option string)
  : option (list Step) * option string :=
  match stepDocs with
  | [] => (Some [], None)
  | stepDoc :: rest =>
    match NewStep stepDoc scheme with
    | (Some step, None) =>
      match GenerateSteps rest scheme with
      | (Some l, None) => (Some (step :: l), None)
      | other => other
      end
    | (_, err) => (None, err)
    end
  end.

Record Scenario := {
  ScenarioLocation : option msgs.Location;
  Tags : list msgs.Tag;
  ScenarioKeyword : string;
  Name : string;
  Description : string;
  Background : option msgs.Background;
  Steps : list Step
}.

(** The loop of [Scenario.Run] on the steps still to run: each is run in
    place, and the loop breaks after one whose result is not [Passed]. *)
Fixpoint runSteps (ctx : context.Context) (sts : list Step) (w : World)
  : Res unit * (list Step * World) :=
  match sts with
  | [] => (Ok tt, ([], w))
  | step :: rest =>
    match Run ctx {| self := step; world := w |} with
    | (Panic v, e) => (Panic v, (self e :: rest, world e))
    | (Ok _, e) =>
      if negb (Result (Execution (self e)) =? Passed)%Z
      then (Ok tt, (self e :: rest, world e))
      else
        match runSteps ctx rest (world e) with
        | (r, (rest', w')) => (r, (self e :: rest', w'))
        end
    end
  end.

Record ScenarioState := { this : Scenario; sworld : World }.

Definition ScenarioRun (ctx : context.Context) : M ScenarioState unit :=
  fun e =>
    match runSteps ctx (Steps (this e)) (sworld e) with
    | (r, (sts, w)) =>
      (r, {| this := {| ScenarioLocation := ScenarioLocation (this e);
                        Tags := Tags (this e);
                        ScenarioKeyword := ScenarioKeyword (this e);
                        Name := Name (this e);
                        Description := Description (this e);
                        Background := Background (this e);
                        Steps := sts |};
             sworld := w |})
    end.

End Models.

End models.

(** ** A regular-expression engine

    An instance of [regexp.Engine] for the fragment of the RE2 syntax that
    the suite's templates and synthesized fragments are written in:
    literals, [.], bracket classes with ranges and the Perl classes
    [\d \w \s], escaped punctuation, groups, alternation, [* + ?] (greedy
    and lazy), counted repetition, [^] and [$]. A brace that does not open
    a counted repetition is a literal, as in Go. Patterns outside the
    fragment are refused. Matching is leftmost-first by backtracking. *)

Module re2.
Import regexp.

Inductive node :=
| Empty
| Lit (c : ascii)
| AnyNotNL
| Class (neg : bool) (ranges : list (N * N))
| BeginText
| EndText
| Cat (a b : node)
| Alt (a b : node)
| Star (greedy : bool) (a : node)
| Quest (greedy : bool) (a : node)
| Capture (i : nat) (a : node).

Record prog := { root : node; NumCap : nat }.

Definition Caps : Type := list (option Span).

Fixpoint dropS (n : nat) (s : string) : string :=
  match n, s with
  | S n', String _ t => dropS n' t
  | _, _ => s
  end.

Fixpoint setCap (i : nat) (sp : Span) (caps : Caps) : Caps :=
  match i, caps with
  | O, _ :: t => Some sp :: t
  | S i', c :: t => c :: setCap i' sp t
  | _, [] => []
  end.

Definition inRanges (rn : N) (ranges : list (N * N)) : bool :=
  existsb (fun r => (fst r <=? rn)%N && (rn <=? snd r)%N) ranges.

Definition orElse {A} (x y : option A) : option A :=
  match x with Some _ => x | None => y end.

(** [m total r pos rest caps k]: match [r] at offset [pos], where [rest]
    is the input from [pos] on, then continue with [k]; alternatives are
    tried in priority order. [total] bounds the iterations of a star,
    each of which must consume input. *)
Fixpoint m (total : nat) (r : node) (pos : nat) (rest : string) (caps : Caps)
         (k : nat -> string -> Caps -> option (nat * Caps)) {struct r}
  : option (nat * Caps) :=
  match r with
  | Empty => k pos rest caps
  | Lit c =>
    match rest with
    | String c' t => if Ascii.eqb c c' then k (S pos) t caps else None
    | EmptyString => None
    end
  | AnyNotNL =>
    match utf8.DecodeRuneInString rest with
    | (rn, w) =>
      if (w =? 0) || (rn =? 10)%N then None
      else k (pos + w) (dropS w rest) caps
    end
  | Class neg ranges =>
    match utf8.DecodeRuneInString rest with
    | (rn, w) =>
      if (w =? 0) || negb (xorb neg (inRanges rn ranges)) then None
      else k (pos + w) (dropS w rest) caps
    end
  | BeginText => if pos =? 0 then k pos rest caps else None
  | EndText =>
    match rest with
    | EmptyString => k pos rest caps
    | _ => None
    end
  | Cat a b => m total a pos rest caps (fun p r' c => m total b p r' c k)
  | Alt a b => orElse (m total a pos rest caps k) (m total b pos rest caps k)
  | Quest greedy a =>
    if greedy
    then orElse (m total a pos rest caps k) (k pos rest caps)
    else orElse (k pos rest caps) (m total a pos rest caps k)
  | Star greedy a =>
    (fix loop (n : nat) (pos : nat) (rest : string) (caps : Caps) {struct n}
       : option (nat * Caps) :=
       match n with
       | O => k pos rest caps
       | S n' =>
         let again :=
           m total a pos rest caps
             (fun p r' c => if pos <? p then loop n' p r' c else None) in
         if greedy then orElse again (k pos rest caps)
         else orElse (k pos rest caps) again
       end) (S total) pos rest caps
  | Capture i a =>
    m total a pos rest caps (fun p r' c => k p r' (setCap i (pos, p) c))
  end.

(** The leftmost start at or after [start] from which the program
    matches. *)
Fixpoint search (total : nat) (p : prog) (start : nat) (rest : string)
  : option (Span * Caps) :=
  match m total (root p) start rest (repeat None (NumCap p))
          (fun e _ c => Some (e, c)) with
  | Some (e, caps) => Some ((start, e), caps)
  | None =>
    match rest with
    | EmptyString => None
    | String _ t => search total p (S start) t
    end
  end.

Definition exec (p : prog) (b : string) (pos : nat) : option (Span * Caps) :=
  if pos <=? String.length b
  then search (String.length b) p pos (dropS pos b)
  else None.

(** *** The parser *)

Definition digit : list (N * N) := [(48, 57)]%N.
Definition word : list (N * N) := [(48, 57); (65, 90); (95, 95); (97, 122)]%N.
Definition space : list (N * N) := [(9, 10); (12, 13); (32, 32)]%N.

Definition isAlnum (c : ascii) : bool :=
  let n := nat_of_ascii c in
  ((48 <=? n) && (n <=? 57)) || ((65 <=? n) && (n <=? 90))
  || ((97 <=? n) && (n <=? 122)).

Definition isAscii (c : ascii) : bool := nat_of_ascii c <? 128.

(** The complement of a Perl class, as ranges over all runes. *)
Definition negate (rs : list (N * N)) : list (N * N) :=
  let fix go (lo : N) (rs : list (N * N)) : list (N * N) :=
      match rs with
      | [] => [(lo, 1114111%N)]
      | (a, b) :: rs' =>
        (if (lo <? a)%N then [(lo, a - 1)%N] else []) ++ go (b + 1)%N rs'
      end in
  go 0%N rs.

(** An escape after the backslash: a set of runes and the rest. *)
Definition escape (s : string) : option (list (N * N) * string) :=
  match s with
  | String c t =>
    if Ascii.eqb c "d" then Some (digit, t)
    else if Ascii.eqb c "w" then Some (word, t)
    else if Ascii.eqb c "s" then Some (space, t)
    else if Ascii.eqb c "D" then Some (negate digit, t)
    else if Ascii.eqb c "W" then Some (negate word, t)
    else if Ascii.eqb c "S" then Some (negate space, t)
    else if Ascii.eqb c "n" then Some ([(10, 10)]%N, t)
    else if Ascii.eqb c "t" then Some ([(9, 9)]%N, t)
    else if Ascii.eqb c "r" then Some ([(13, 13)]%N, t)
    else if Ascii.eqb c "f" then Some ([(12, 12)]%N, t)
    else if Ascii.eqb c "v" then Some ([(11, 11)]%N, t)
    else if isAscii c && negb (isAlnum c)
         then Some ([(N_of_ascii c, N_of_ascii c)], t)
    else None
  | EmptyString => None
  end.

(** One element of a bracket class: a single rune or the low end of a
    range; [None] for a Perl class, which cannot bound a range. *)
Definition classAtom (s : string) : option (list (N * N) * bool * string) :=
  match s with
  | String c t =>
    if Ascii.eqb c "\" then
      match escape t with
      | Some (rs, t') =>
        match rs with
        | [(a, b)] => Some (rs, (a =? b)%N, t')
        | _ => Some (rs, false, t')
        end
      | None => None
      end
    else if isAscii c then Some ([(N_of_ascii c, N_of_ascii c)], true, t)
    else None
  | EmptyString => None
  end.

(** The items of a bracket class up to the closing bracket; [first]
    holds at the first item, where a bracket is a literal. *)
Fixpoint classItems (fuel : nat) (first : bool) (s : string)
  : option (list (N * N) * string) :=
  match fuel with
  | O => None
  | S fuel' =>
    match s with
    | EmptyString => None
    | String c t =>
      if Ascii.eqb c "]" && negb first then Some ([], t)
      else if Ascii.eqb c "[" && match t with
                                 | String c1 _ => Ascii.eqb c1 ":"
                                 | _ => false
                                 end
      then None
      else
        match classAtom s with
        | None => None
        | Some (rs, single, t1) =>
          match t1 with
          | String d (String c2 t2) =>
            if Ascii.eqb d "-" && negb (Ascii.eqb c2 "]") then
              if negb single then None
              else
                match classAtom (String c2 t2), rs with
                | Some ([(hi, hi')], true, t3), [(lo, _)] =>
                  if (hi <? lo)%N then None
                  else
                    match classItems fuel' false t3 with
                    | Some (more, t4) => Some ((lo, hi) :: more, t4)
                    | None => None
                    end
                | _, _ => None
                end
            else
              match classItems fuel' false t1 with
              | Some (more, t4) => Some (rs ++ more, t4)
              | None => None
              end
          | _ =>
            match classItems fuel' false t1 with
            | Some (more, t4) => Some (rs ++ more, t4)
            | None => None
            end
          end
        end
    end
  end.

Definition bracket (s : string) : option (node * string) :=
  let '(neg, body) :=
    match s with
    | String c t => if Ascii.eqb c "^" then (true, t) else (false, s)
    | EmptyString => (false, s)
    end in
  match classItems (S (String.length body)) true body with
  | Some (rs, t) => Some (Class neg rs, t)
  | None => None
  end.

(** Decimal digits at the head of [s]. *)
Fixpoint number (fuel : nat) (acc : nat) (seen : bool) (s : string)
  : option (nat * string) :=
  match fuel, s with
  | S fuel', String c t =>
    if strconv.isDigit c
    then if 1000 <? acc then None
         else number fuel' (acc * 10 + (nat_of_ascii c - 48)) true t
    else if seen then Some (acc, s) else None
  | _, _ => if seen then Some (acc, s) else None
  end.

(** A counted repetition [{n}], [{n,}] or [{n,m}] after the brace:
    the bounds ([None] for no upper bound) and the rest. *)
Definition counted (s : string) : option (nat * option nat * string) :=
  match number (String.length s) 0 false s with
  | Some (lo, String c t) =>
    if Ascii.eqb c "}" then Some (lo, Some lo, t)
    else if Ascii.eqb c "," then
      match t with
      | String c' t' =>
        if Ascii.eqb c' "}" then Some (lo, None, t')
        else
          match number (String.length t) 0 false t with
          | Some (hi, String c'' t'') =>
            if Ascii.eqb c'' "}" then Some (lo, Some hi, t'') else None
          | _ => None
          end
      | EmptyString => None
      end
    else None
  | _ => None
  end.

Fixpoint times (n : nat) (a rest : node) : node :=
  match n with
  | O => rest
  | S n' => Cat a (times n' a rest)
  end.

Fixpoint optional (n : nat) (greedy : bool) (a : node) : node :=
  match n with
  | O => Empty
  | S n' => Quest greedy (Cat a (optional n' greedy a))
  end.

Definition repeatOf (lo : nat) (hi : option nat) (greedy : bool) (a : node)
  : node :=
  match hi with
  | None => times lo a (Star greedy a)
  | Some h => times lo a (optional (h - lo) greedy a)
  end.

Definition lazySuffix (s : string) : bool * string :=
  match s with
  | String c t => if Ascii.eqb c "?" then (false, t) else (true, s)
  | EmptyString => (true, s)
  end.

Definition startsRepeat (s : string) : bool :=
  match s with
  | String c t =>
    Ascii.eqb c "*" || Ascii.eqb c "+" || Ascii.eqb c "?"
    || (Ascii.eqb c "{" && match counted t with Some _ => true | None => false end)
  | EmptyString => false
  end.

(** The repetition operator, if any, after the atom [a]; a second
    operator stacked on the first is an error. *)
Definition postfix (a : node) (s : string) : option (node * string) :=
  let done (r : node) (t : string) :=
    if startsRepeat t then None else Some (r, t) in
  match s with
  | String c t =>
    if Ascii.eqb c "*" then
      let '(g, t') := lazySuffix t in done (Star g a) t'
    else if Ascii.eqb c "+" then
      let '(g, t') := lazySuffix t in done (Cat a (Star g a)) t'
    else if Ascii.eqb c "?" then
      let '(g, t') := lazySuffix t in done (Quest g a) t'
    else if Ascii.eqb c "{" then
      match counted t with
      | Some (lo, hi, t0) =>
        if (1000 <? lo) || match hi with
                           | Some h => (1000 <? h) || (h <? lo)
                           | None => false
                           end
        then None
        else let '(g, t') := lazySuffix t0 in done (repeatOf lo hi g a) t'
      | None => Some (a, s)
      end
    else Some (a, s)
  | EmptyString => Some (a, s)
  end.

(** Alternation, concatenation and atoms; [n] is the number of capture
    groups opened so far, [fuel] bounds the depth of the descent. *)
Fixpoint pAlt (fuel : nat) (s : string) (n : nat) : option (node * string * nat) :=
  match fuel with
  | O => None
  | S fuel' =>
    match pCat fuel' s n with
    | Some (a, String c t, n1) =>
      if Ascii.eqb c "|" then
        match pAlt fuel' t n1 with
        | Some (b, t', n2) => Some (Alt a b, t', n2)
        | None => None
        end
      else Some (a, String c t, n1)
    | other => other
    end
  end
with pCat (fuel : nat) (s : string) (n : nat) : option (node * string * nat) :=
  match fuel with
  | O => None
  | S fuel' =>
    match s with
    | EmptyString => Some (Empty, s, n)
    | String c t =>
      if Ascii.eqb c "|" || Ascii.eqb c ")" then Some (Empty, s, n)
      else
        match pAtom fuel' s n with
        | Some (a, t1, n1) =>
          match postfix a t1 with
          | Some (r, t2) =>
            match pCat fuel' t2 n1 with
            | Some (Empty, t3, n2) => Some (r, t3, n2)
            | Some (b, t3, n2) => Some (Cat r b, t3, n2)
            | None => None
            end
          | None => None
          end
        | None => None
        end
    end
  end
with pAtom (fuel : nat) (s : string) (n : nat) : option (node * string * nat) :=
  match fuel with
  | O => None
  | S fuel' =>
    match s with
    | EmptyString => None
    | String c t =>
      if Ascii.eqb c "(" then
        match t with
        | String q (String col t') =>
          if Ascii.eqb q "?" then
            if Ascii.eqb col ":" then
              match pAlt fuel' t' n with
              | Some (a, String cl t'', n1) =>
                if Ascii.eqb cl ")" then Some (a, t'', n1) else None
              | _ => None
              end
            else None
          else
            match pAlt fuel' t (S n) with
            | Some (a, String cl t'', n1) =>
              if Ascii.eqb cl ")" then Some (Capture n a, t'', n1) else None
            | _ => None
            end
        | _ =>
          match pAlt fuel' t (S n) with
          | Some (a, String cl t'', n1) =>
            if Ascii.eqb cl ")" then Some (Capture n a, t'', n1) else None
          | _ => None
          end
        end
      else if Ascii.eqb c "[" then
        match bracket t with
        | Some (a, t') => Some (a, t', n)
        | None => None
        end
      else if Ascii.eqb c "." then Some (AnyNotNL, t, n)
      else if Ascii.eqb c "^" then Some (BeginText, t, n)
      else if Ascii.eqb c "$" then Some (EndText, t, n)
      else if Ascii.eqb c "\" then
        match escape t with
        | Some ([(a, b)], t') =>
          if (a =? b)%N then Some (Lit (ascii_of_N a), t', n)
          else Some (Class false [(a, b)], t', n)
        | Some (rs, t') => Some (Class false rs, t', n)
        | None => None
        end
      else if Ascii.eqb c "*" || Ascii.eqb c "+" || Ascii.eqb c "?" then None
      else if Ascii.eqb c "{" && match counted t with
                                 | Some _ => true
                                 | None => false
                                 end
      then None
      else if isAscii c then Some (Lit c, t, n)
      else None
    end
  end.

Definition parse (s : string) : option prog :=
  match pAlt (3 * String.length s + 3) s 0 with
  | Some (a, EmptyString, n) => Some {| root := a; NumCap := n |}
  | _ => None
  end.

#[export] Instance engine : Engine :=
  {| Regexp := prog; Compile := parse; doExecute := exec |}.

End re2.

(** ** Floating-point numbers

    An instance of [floats.Floats]: a binary floating-point number is kept
    exactly, as a sign, an odd mantissa and a binary exponent; [ParseFloat]
    reads the syntax of [strconv] and rounds the exact value to the nearest
    number of the given size, ties to even. *)

Module ieee.

Inductive float :=
| NaN
| Inf (neg : bool)
| Fin (neg : bool) (m : N) (e : Z).        (* (-1)^neg * m * 2^e *)

(** Trailing zero bits of the mantissa move into the exponent. *)
Fixpoint strip (m : positive) (e : Z) : positive * Z :=
  match m with
  | xO m' => strip m' (e + 1)
  | _ => (m, e)
  end.

Definition normal (neg : bool) (m : N) (e : Z) : float :=
  match m with
  | N0 => Fin neg 0 0
  | Npos p => let '(p', e') := strip p e in Fin neg (Npos p') e'
  end.

(** [num / den] against [2^k]. *)
Definition geq_pow2 (num den : Z) (k : Z) : bool :=
  if (0 <=? k)%Z then (den * 2 ^ k <=? num)%Z
  else (den <=? num * 2 ^ (- k))%Z.

(** The quotient [num / (den * 2^e)] rounded to the nearest integer,
    ties to even. *)
Definition roundQuot (num den : Z) (e : Z) : Z :=
  let n := if (0 <=? e)%Z then num else (num * 2 ^ (- e))%Z in
  let d := if (0 <=? e)%Z then (den * 2 ^ e)%Z else den in
  let q := (n / d)%Z in
  let r := (n mod d)%Z in
  if (2 * r <? d)%Z then q
  else if (d <? 2 * r)%Z then (q + 1)%Z
  else if Z.even q then q else (q + 1)%Z.

(** The number of [p] bits of precision and exponents up to [emax]
    nearest to [num / den] ([num >= 0], [den > 0]); out of range, the
    infinity with [ErrRange]. *)
Definition round (p emax : Z) (neg : bool) (num den : Z)
  : float * option strconv.NumError :=
  if (num =? 0)%Z then (Fin neg 0 0, None)
  else
    let k := (Z.log2 num - Z.log2 den)%Z in
    let e0 := if geq_pow2 num den k then k else (k - 1)%Z in
    let e := Z.max (e0 - (p - 1)) (2 - emax - p) in
    let m := roundQuot num den e in
    if (m =? 0)%Z then (Fin neg 0 0, None)
    else if (emax + 1 <=? Z.log2 m + e)%Z then (Inf neg, Some strconv.ErrRange)
    else (normal neg (Z.to_N m) e, None).

Definition round32 := round 24 127.
Definition round64 := round 53 1023.

Definition to_float32 (x : float) : float :=
  match x with
  | Fin neg m e =>
    if (0 <=? e)%Z then fst (round32 neg (Z.of_N m * 2 ^ e) 1)
    else fst (round32 neg (Z.of_N m) (2 ^ (- e)))
  | _ => x
  end.

Definition lower (c : ascii) : ascii :=
  ascii_of_nat (Nat.lor (nat_of_ascii c) 32).

Fixpoint commonPrefixLenIgnoreCase (s pre : string) : nat :=
  match s, pre with
  | String c t, String c' t' =>
    let c1 := if (65 <=? nat_of_ascii c) && (nat_of_ascii c <=? 90)
              then lower c else c in
    if Ascii.eqb c1 c' then S (commonPrefixLenIgnoreCase t t') else 0
  | _, _ => 0
  end.

(** [special]: the infinities and NaN, with the number of bytes read. *)
Definition special (s : string) : option (float * nat) :=
  let inf (neg : bool) (nsign : nat) (t : string) :=
    let n := commonPrefixLenIgnoreCase t "infinity" in
    let n := if (3 <? n) && (n <? 8) then 3 else n in
    if (n =? 3) || (n =? 8) then Some (Inf neg, nsign + n) else None in
  match s with
  | EmptyString => None
  | String c t =>
    if Ascii.eqb c "+" then inf false 1 t
    else if Ascii.eqb c "-" then inf true 1 t
    else if Ascii.eqb c "i" || Ascii.eqb c "I" then inf false 0 s
    else if Ascii.eqb c "n" || Ascii.eqb c "N" then
      if commonPrefixLenIgnoreCase s "nan" =? 3 then Some (NaN, 3) else None
    else None
  end.

Definition hexDigit (c : ascii) : option N :=
  let n := nat_of_ascii (lower c) in
  if strconv.isDigit c then Some (N.of_nat (nat_of_ascii c - 48))
  else if (97 <=? n) && (n <=? 102) then Some (N.of_nat (n - 87))
  else None.

(** The variables of the digit loop of [readFloat]; [mantissa] keeps
    every digit. *)
Record digits := {
  mantissa : N; nd : Z; dp : Z;
  sawdot : bool; sawdigits : bool; underscores : bool
}.

Fixpoint readDigits (hex : bool) (s : string) (st : digits) : digits * string :=
  match s with
  | EmptyString => (st, s)
  | String c t =>
    if Ascii.eqb c "_" then
      readDigits hex t
        {| mantissa := mantissa st; nd := nd st; dp := dp st;
           sawdot := sawdot st; sawdigits := sawdigits st; underscores := true |}
    else if Ascii.eqb c "." then
      if sawdot st then (st, s)
      else readDigits hex t
             {| mantissa := mantissa st; nd := nd st; dp := nd st;
                sawdot := true; sawdigits := sawdigits st;
                underscores := underscores st |}
    else if strconv.isDigit c then
      if Ascii.eqb c "0" && (nd st =? 0)%Z then
        readDigits hex t
          {| mantissa := mantissa st; nd := nd st; dp := (dp st - 1)%Z;
             sawdot := sawdot st; sawdigits := true;
             underscores := underscores st |}
      else
        readDigits hex t
          {| mantissa := (mantissa st * (if hex then 16 else 10)
                          + N.of_nat (nat_of_ascii c - 48))%N;
             nd := (nd st + 1)%Z; dp := dp st;
             sawdot := sawdot st; sawdigits := true;
             underscores := underscores st |}
    else
      match hex, hexDigit c with
      | true, Some v =>
        readDigits hex t
          {| mantissa := (mantissa st * 16 + v)%N;
             nd := (nd st + 1)%Z; dp := dp st;
             sawdot := sawdot st; sawdigits := true;
             underscores := underscores st |}
      | _, _ => (st, s)
      end
  end.

(** The digits of the exponent, with their underscores; the value stops
    growing at 10000. *)
Fixpoint readExp (s : string) (e : Z) (us : bool) : Z * bool * string :=
  match s with
  | String c t =>
    if Ascii.eqb c "_" then readExp t e true
    else if strconv.isDigit c then
      readExp t (if (e <? 10000)%Z
                 then (e * 10 + Z.of_nat (nat_of_ascii c - 48))%Z else e) us
    else (e, us, s)
  | EmptyString => (e, us, s)
  end.

(** [underscoreOK]: an underscore only between digits, or between the
    base prefix and a digit. *)
Fixpoint underscoreLoop (hex : bool) (saw : nat) (s : string) : bool :=
  (* saw: 0 for a digit or the prefix, 1 for an underscore, 2 otherwise *)
  match s with
  | EmptyString => negb (saw =? 1)
  | String c t =>
    if strconv.isDigit c
       || (hex && match hexDigit c with Some _ => true | None => false end)
    then underscoreLoop hex 0 t
    else if Ascii.eqb c "_" then
      if saw =? 0 then underscoreLoop hex 1 t else false
    else if saw =? 1 then false
    else underscoreLoop hex 2 t
  end.

Definition underscoreOK (s : string) : bool :=
  let s1 := match s with
            | String c t => if Ascii.eqb c "-" || Ascii.eqb c "+" then t else s
            | EmptyString => s
            end in
  match s1 with
  | String c0 (String c1 t) =>
    if Ascii.eqb c0 "0"
       && (Ascii.eqb (lower c1) "b" || Ascii.eqb (lower c1) "o"
           || Ascii.eqb (lower c1) "x")
    then underscoreLoop (Ascii.eqb (lower c1) "x") 0 t
    else underscoreLoop false 3 s1
  | _ => underscoreLoop false 3 s1
  end.

(** [readFloat] on the whole of [s]: the sign, the exact mantissa, the
    exponent of the base (10, or 2 for a hexadecimal number), and
    whether the number is hexadecimal; [None] when [s] is not a number
    from end to end. *)
Definition readFloat (s : string) : option (bool * N * Z * bool) :=
  match s with
  | EmptyString => None
  | String c t =>
    let neg := Ascii.eqb c "-" in
    let s1 := if Ascii.eqb c "+" || Ascii.eqb c "-" then t else s in
    let '(hex, s2) :=
      match s1 with
      | String c0 (String c1 (String c2 t2)) =>
        if Ascii.eqb c0 "0" && Ascii.eqb (lower c1) "x"
        then (true, String c2 t2) else (false, s1)
      | _ => (false, s1)
      end in
    let '(st, s3) :=
      readDigits hex s2
        {| mantissa := 0; nd := 0; dp := 0;
           sawdot := false; sawdigits := false; underscores := false |} in
    if negb (sawdigits st) then None
    else
      let dp0 := if sawdot st then dp st else nd st in
      let dp1 := if hex then (dp0 * 4)%Z else dp0 in
      let nd1 := if hex then (nd st * 4)%Z else nd st in
      let expChar := if hex then "p"%char else "e"%char in
      let finish (dp2 : Z) (us : bool) (rest : string) :=
        match rest with
        | EmptyString =>
          if us && negb (underscoreOK s) then None
          else Some (neg, mantissa st,
                     (if (mantissa st =? 0)%N then 0 else dp2 - nd1)%Z, hex)
        | _ => None
        end in
      match s3 with
      | String ce t3 =>
        if Ascii.eqb (lower ce) expChar then
          match t3 with
          | EmptyString => None
          | String cs t4 =>
            let esign := if Ascii.eqb cs "-" then (-1)%Z else 1%Z in
            let s4 := if Ascii.eqb cs "+" || Ascii.eqb cs "-" then t4 else t3 in
            match s4 with
            | String cd _ =>
              if strconv.isDigit cd then
                let '(e, us, s5) := readExp s4 0 (underscores st) in
                finish (dp1 + e * esign)%Z us s5
              else None
            | EmptyString => None
            end
          end
        else if hex then None
        else finish dp1 (underscores st) s3
      | EmptyString =>
        if hex then None else finish dp1 (underscores st) s3
      end
  end.

(** [strconv.ParseFloat]: a [bitSize] other than 32 is 64. *)
Definition ParseFloat (s : string) (bitSize : nat)
  : float * option strconv.NumError :=
  let rnd := if bitSize =? 32 then round32 else round64 in
  match special s with
  | Some (x, n) =>
    if n =? String.length s then (x, None)
    else (Fin false 0 0, Some strconv.ErrSyntax)
  | None =>
    match readFloat s with
    | None => (Fin false 0 0, Some strconv.ErrSyntax)
    | Some (neg, mant, ex, hex) =>
      let m := Z.of_N mant in
      if (m =? 0)%Z then (Fin neg 0 0, None)
      else
        let base := if hex then 2%Z else 10%Z in
        if (0 <=? ex)%Z then rnd neg (m * base ^ ex)%Z 1%Z
        else rnd neg m (base ^ (- ex))%Z
    end
  end.

#[export] Instance IEEE : floats.Floats :=
  {| floats.float64 := float; floats.float32 := float;
     floats.ParseFloat := ParseFloat; floats.to_float32 := to_float32 |}.

End ieee.

(** ** Concrete suites and documents, for the examples below *)

Module Fixtures.
Import floats reflect rt regexp msgs gobdd.
#[export] Existing Instance re2.engine.
#[export] Existing Instance ieee.IEEE.

(** The world at the start: the clock already runs, nothing was called,
    maps are visited in insertion order. *)
Definition w0 : World := {| now := 1000; trace := []; sched := [] |}.

Definition ContextType : RType :=
  {| TypeString := "context.Context"; TypeKind := Interface;
     ImplementsContext := true |}.

Definition IntType : RType :=
  {| TypeString := "int"; TypeKind := Int; ImplementsContext := false |}.

(** [func cucumbers(ctx context.Context, n int) {}] *)
Definition cucumbers : FuncValue :=
  {| FuncName := "cucumbers"; FuncType := "func(context.Context, int)";
     Ins := [ContextType; IntType];
     body := fun _ _ => Returns [] 1 |}.

Definition given (text : string) : Step :=
  {| StepLocation := None; Keyword := "Given "; KeywordType := "Context";
     Text := text; DocString := None; DataTable := None |}.

(** A step as [stepsFromExamples] clones it. *)
Definition given' (text : string) : Step :=
  {| StepLocation := None; Keyword := "Given "; KeywordType := EmptyString;
     Text := text; DocString := None; DataTable := None |}.

(** The state after [s := NewSuite()] in the world [w]. *)
Definition newSuiteEnv (w : World) : Res unit * Env :=
  match NewSuite [] w with
  | (Ok s, w') => (Ok tt, {| suite := s; world := w' |})
  | (Panic v, w') =>
    (Panic v, {| suite := {| steps := []; options := NewSuiteOptions;
                             parameterTypes := [] |};
                 world := w' |})
  end.

(** [s := NewSuite()] at the start. *)
Definition defaultEnv : Env := snd (newSuiteEnv w0).

(** [s := NewSuite(); s.AddStep("I have {int} cucumbers", cucumbers)] *)
Definition cucumberEnv : Env :=
  snd (rt.bind (fun _ => newSuiteEnv w0)
               (fun _ => AddStep "I have {int} cucumbers" (IFunc cucumbers))
               {| suite := {| steps := []; options := NewSuiteOptions;
                              parameterTypes := [] |};
                  world := w0 |}).

(** [s := NewSuite(); s.AddStep(`I have (\d+) (\w+)`, cucumbers)]: two
    capture groups for a function of one argument after the context. *)
Definition arityEnv : Env :=
  snd (rt.bind (fun _ => newSuiteEnv w0)
               (fun _ => AddStep "I have (\d+) (\w+)" (IFunc cucumbers))
               {| suite := {| steps := []; options := NewSuiteOptions;
                              parameterTypes := [] |};
                  world := w0 |}).

(** A hook that returns. *)
Definition noting (name : string) : Hook :=
  {| HookName := name; hookBody := fun _ _ => None |}.

(** [s := NewSuite(WithFeaturesPath(...), WithAfterScenario(after));
     s.AddStep("I have {int} cucumbers", cucumbers)] *)
Definition twoScenarioEnv : Env :=
  match NewSuite [WithFeaturesPath ["cucumbers.feature"];
                  WithAfterScenario (noting "after")] w0 with
  | (Ok s, w) =>
    snd (AddStep "I have {int} cucumbers" (IFunc cucumbers)
                 {| suite := s; world := w |})
  | (Panic _, _) => defaultEnv
  end.

Definition scenarioOf (sts : list Step) : Scenario :=
  {| ScenarioTags := []; ScenarioSteps := sts; ScenarioExamples := [] |}.

(** A feature of two scenarios: the step of the first has no definition,
    the step of the second has one. *)
Definition secondScenario : Scenario := scenarioOf [given "I have 4 cucumbers"].



(** [func apples(ctx context.Context, n int) {}] *)
Definition apples : FuncValue :=
  {| FuncName := "apples"; FuncType := "func(context.Context, int)";
     Ins := [ContextType; IntType];
     body := fun _ _ => Returns [] 1 |}.

(** [s := NewSuite(); s.AddStep("I eat {int} apples", apples);
     s.AddStep("I have {int} apples left", apples)] *)
Definition applesEnv : Env :=
  snd (rt.bind (fun _ => newSuiteEnv w0)
               (fun _ =>
                  rt.bind (AddStep "I eat {int} apples" (IFunc apples))
                          (fun _ => AddStep "I have {int} apples left" (IFunc apples)))
               {| suite := {| steps := []; options := NewSuiteOptions;
                              parameterTypes := [] |};
                  world := w0 |}).

Definition row (cells : list string) : TableRow :=
  {| Cells := map (fun v => {| Value := v |}) cells |}.

Definition table (header : list string) (rows : list (list string)) : Examples :=
  {| TableHeader := Some (row header); TableBody := map row rows |}.

(** An outline of one step with two example tables of one row each. *)
Definition eating : list Step := [given "I eat <n> apples"].
Definition twoTables : list Examples := [table ["n"] [["1"]]; table ["n"] [["2"]]].

(** An outline of two steps with one example table of two rows. *)
Definition eatingAndLeft : list Step :=
  [given "I eat <n> apples"; given "I have <left> apples left"].
Definition applesTable : Examples := table ["n"; "left"] [["1"; "4"]; ["2"; "3"]].
Definition oneTable : list Examples := [applesTable].

(** A step function that panics. *)
Definition rotten : FuncValue :=
  {| FuncName := "rotten"; FuncType := "func(context.Context)";
     Ins := [ContextType];
     body := fun _ _ => Panics (PVal "a rotten apple") 1 |}.

(** [s := NewSuite(); s.AddStep("I eat a rotten apple", rotten);
     s.AddStep("I have {int} cucumbers", cucumbers)] *)
Definition rottenEnv : Env :=
  snd (rt.bind (fun _ => newSuiteEnv w0)
               (fun _ =>
                  rt.bind (AddStep "I eat a rotten apple" (IFunc rotten))
                          (fun _ => AddStep "I have {int} cucumbers" (IFunc cucumbers)))
               {| suite := {| steps := []; options := NewSuiteOptions;
                              parameterTypes := [] |};
                  world := w0 |}).

Definition Float64Type : RType :=
  {| TypeString := "float64"; TypeKind := Float64; ImplementsContext := false |}.

End Fixtures.

(** ** Concrete steps and scenarios of the package [models] *)

Module StepFixtures.
Import floats reflect rt models.
#[export] Existing Instance ieee.IEEE.

(** A step function [func(ctx context.Context) error] that returns [out]
    after five ticks of the clock. *)
Definition returning (name : string) (out : list Value) : FuncValue :=
  {| FuncName := name; FuncType := "func(context.Context) error";
     Ins := [Fixtures.ContextType];
     body := fun _ _ => Returns out 5 |}.

(** A step function that panics with the message [msg] after five ticks. *)
Definition panicking (name msg : string) : FuncValue :=
  {| FuncName := name; FuncType := "func(context.Context) error";
     Ins := [Fixtures.ContextType];
     body := fun _ _ => Panics (PVal msg) 5 |}.

(** [scheme.StepDefFor] binding every step to [fn], without arguments. *)
Definition bindTo (fn : FuncValue) (s : Step) : Step * option string :=
  ({| Location := Location s; Keyword := Keyword s;
      KeywordType := KeywordType s; Text := Text s;
      DocString := DocString s; DataTable := DataTable s;
      Func := IFunc fn; Args := []; Execution := Execution s |}, None).

(** The step [NewStep] makes of the text, bound to [fn]. *)
Definition fresh (text : string) (fn : FuncValue) : Step :=
  match NewStep (Fixtures.given text) (bindTo fn) with
  | (Some s, _) => s
  | (None, _) => fst (bindTo fn {| Location := None; Keyword := EmptyString;
                                   KeywordType := EmptyString; Text := text;
                                   DocString := None; DataTable := None;
                                   Func := INonFunc Invalid; Args := [];
                                   Execution := zeroExecution |})
  end.

(** Four steps that would yield [Passed, Passed, Failed, Passed]. *)
Definition fourSteps : list Step :=
  [fresh "a first step" (returning "first" [VNil Interface]);
   fresh "a second step" (returning "second" [VNil Interface]);
   fresh "a third step" (returning "third" [VError "third step failed"]);
   fresh "a fourth step" (returning "fourth" [VNil Interface])].

Definition fourStepScenario : Scenario :=
  {| ScenarioLocation := None; Tags := []; ScenarioKeyword := "Scenario";
     Name := "four steps"; Description := EmptyString; Background := None;
     Steps := fourSteps |}.

(** A fresh step whose function panics. *)
Definition faulty : Step := fresh "a faulty step" (panicking "faulty" "fault").

End StepFixtures.

(** ** Vocabulary of the properties *)

Module Vocabulary.
Import floats reflect rt regexp msgs gobdd.

Section Relations.
Context {S : Type}.
Variable R : S -> S -> Prop.

(** Whatever the state a computation starts in and however it ends, the
    state it leaves is related by [R] to the one it started in. *)
Definition keeps {A} (c : M S A) : Prop := forall s, R s (snd (c s)).

End Relations.

Section Suite.
Context {E : Engine} {F : Floats}.

(** [m[k]] on the map of parameter types: nil for a missing key. *)
Fixpoint mapLookup (m : list (string * list string)) (k : string) : list string :=
  match m with
  | [] => []
  | (k', vs) :: m' => if String.eqb k' k then vs else mapLookup m' k
  end.

(** The world moved on: the clock did not go back and the trace was
    only extended. *)
Definition movedOn (w w' : World) : Prop :=
  now w <= now w' /\ exists more, trace w' = trace w ++ more.

(** The suite kept its options and its parameter types, and its list of
    definitions was only appended to. *)
Definition onlyRegistered (s s' : Suite) : Prop :=
  options s' = options s
  /\ parameterTypes s' = parameterTypes s
  /\ exists added, steps s' = steps s ++ added.

Definition carriedOn (e e' : Env) : Prop :=
  onlyRegistered (suite e) (suite e') /\ movedOn (world e) (world e').

(** A hook that returns, whatever the context and the history. *)
Definition returns (h : Hook) : Prop :=
  forall ctx tr, hookBody h ctx tr = None.

(** The trace entries of hooks entered one after the other. *)
Definition hooked (ctx : context.Context) (hooks : list Hook) : list Event :=
  map (fun h => Hooked (HookName h) ctx) hooks.

(** The arguments [def.run] builds after the context: each captured
    group converted for the parameter it is passed as. *)
Definition argumentsOf (d : FuncValue) (params : list (option string))
  : list reflect.Value :=
  map (fun pt => paramType (fst pt) (snd pt)) (combine params (tl (Ins d))).

(** The state [e] once the events [evs] were recorded and [ticks] ticks
    of the clock went by. *)
Definition after (e : Env) (evs : list Event) (ticks : nat) : Env :=
  {| suite := suite e;
     world := {| now := now (world e) + ticks;
                 trace := trace (world e) ++ evs;
                 sched := sched (world e) |} |}.

(** The time a call takes. *)
Definition elapsed (o : CallOutcome) : nat :=
  match o with Returns _ t => t | Panics _ t => t end.

(** The call [def.run] makes for the captured groups [groups]: none when
    the value is not a function or the arity does not fit. *)
Definition callsOf (ctx : context.Context) (fn : Iface)
           (groups : list (option string)) : list Event :=
  match fn with
  | IFunc d =>
    if length groups + 1 =? NumIn d
    then [Called (FuncName d) (VContext ctx :: argumentsOf d groups)]
    else []
  | INonFunc _ => []
  end.

(** The text of an outline step with each placeholder replaced in turn,
    everywhere it occurs, by what [sub] makes of the cell in its column. *)
Definition substituted (sub : string -> string) (stepName : string)
           (placeholders : list string) (row : TableRow) : string :=
  fold_left (fun s pc => strings.ReplaceAll s (fst pc) (sub (Value (snd pc))))
            (combine placeholders (Cells row)) stepName.

(** What running one step records when the step resolves and the hooks
    return: the before-step hooks, the call [def.run] makes for the
    groups of [FindSubmatch], the after-step hooks. *)
Definition stepEvents (ctx : context.Context) (s : Suite) (step : Step)
  : list Event :=
  hooked ctx (beforeStep (options s))
  ++ match findStepDef (steps s) (Text step) with
     | (Some sd, None) =>
       match FindSubmatch (expr sd) (Text step) with
       | Some (_ :: groups) => callsOf ctx (f sd) groups
       | _ => []
       end
     | _ => []
     end
  ++ hooked ctx (afterStep (options s)).

(** The features of the documents that load, in the order of the paths. *)
Definition loaded (load : string -> Parsed) (paths : list string) : list Feature :=
  flat_map (fun featurePath =>
              match load featurePath with
              | Document (Some feature) => [feature]
              | _ => []
              end) paths.

(** The scenarios of a feature that the tags let run, with their
    backgrounds, in the order of the document. *)
Definition selected (o : SuiteOptions) (feature : Feature)
  : list (Scenario * option Background) :=
  if existsb (fun tag => contains (ignoreTags o) (TagName tag)) (FeatureTags feature)
  then []
  else
    flat_map (fun child =>
                match ChildScenario child with
                | None => []
                | Some scenario =>
                  if skipScenario o (ScenarioTags scenario) then []
                  else [(scenario, ChildBackground child)]
                end) (Children feature).

End Suite.

End Vocabulary.

(** ** The four steps of the halting example, registered in a suite *)

Module HaltFixtures.
Import floats reflect rt regexp msgs gobdd Fixtures.

(** [s := NewSuite()] followed by one [s.AddStep] per step, with the
    four functions of [StepFixtures.fourSteps]: the third returns an
    error, the others nil. *)
Definition fourStepEnv : Env :=
  snd (rt.bind
         (fun _ => newSuiteEnv w0)
         (fun _ =>
            rt.bind
              (AddStep "a first step"
                       (IFunc (StepFixtures.returning "first" [VNil Interface])))
              (fun _ =>
                 rt.bind
                   (AddStep "a second step"
                            (IFunc (StepFixtures.returning "second" [VNil Interface])))
                   (fun _ =>
                      rt.bind
                        (AddStep "a third step"
                                 (IFunc (StepFixtures.returning
                                           "third" [VError "third step failed"])))
                        (fun _ =>
                           AddStep "a fourth step"
                                   (IFunc (StepFixtures.returning
                                             "fourth" [VNil Interface]))))))
         {| suite := {| steps := []; options := NewSuiteOptions;
                        parameterTypes := [] |};
            world := w0 |}).

(** The scenario of the four steps, as the document has it. *)
Definition fourStepDoc : Scenario :=
  scenarioOf [given "a first step"; given "a second step";
              given "a third step"; given "a fourth step"].

End HaltFixtures.

(** ** A suite with hooks *)

Module HookFixtures.
Import floats reflect rt regexp msgs gobdd Fixtures.

(** A hook that panics. *)
Definition refusing (name msg : string) : Hook :=
  {| HookName := name; hookBody := fun _ _ => Some (PVal msg) |}.

(** [s := NewSuite(WithBeforeScenario(..), WithAfterScenario(..),
     WithBeforeStep(..), WithAfterStep(..));
     s.AddStep("I have {int} cucumbers", cucumbers)] *)
Definition hookedEnv : Env :=
  match NewSuite [WithBeforeScenario (noting "before scenario");
                  WithAfterScenario (noting "after scenario");
                  WithBeforeStep (noting "before step");
                  WithAfterStep (noting "after step")] w0 with
  | (Ok s, w) =>
    snd (AddStep "I have {int} cucumbers" (IFunc cucumbers)
                 {| suite := s; world := w |})
  | (Panic _, _) => defaultEnv
  end.

(** A suite whose second before-scenario hook and second before-step
    hook panic. *)
Definition refusingEnv : Env :=
  match NewSuite [WithBeforeScenario (noting "before");
                  WithBeforeScenario (refusing "guard" "not today");
                  WithAfterScenario (noting "after scenario");
                  WithBeforeStep (noting "before");
                  WithBeforeStep (refusing "guard" "not today");
                  WithAfterStep (noting "after step")] w0 with
  | (Ok s, w) =>
    snd (AddStep "I have {int} cucumbers" (IFunc cucumbers)
                 {| suite := s; world := w |})
  | (Panic _, _) => defaultEnv
  end.

End HookFixtures.

(** ** Package [models]: [NewScenario] *)

Module scenario.
Import floats reflect rt models.

Section Scenario.
Context {F : Floats}.

(** The fields of a [messages.Scenario] that [NewScenario] copies and
    the suite does not read. *)
Record Heading := {
  HeadingLocation : option msgs.Location;
  HeadingKeyword : string;
  HeadingName : string
}.

Definition withSteps (sts : list Step) (s : Scenario) : Scenario :=
  {| ScenarioLocation := ScenarioLocation s; Tags := Tags s;
     ScenarioKeyword := ScenarioKeyword s; Name := Name s;
     Description := Description s; Background := Background s;
     Steps := sts |}.

(** [NewScenario]: [scn] is the scenario document, its heading beside
    the part the suite reads; [None] is a nil pointer, and reading a
    field through it panics. The result is the pair Go returns, the
    scenario and the error. *)
Definition NewScenario (bkg : option msgs.Background)
           (scn : option (Heading * msgs.Scenario))
           (scheme : Step -> Step * option string)
  : Res (Scenario * option string) :=
  match scn with
  | None => gobdd.nilDereference
  | Some (heading, doc) =>
    let s := {| ScenarioLocation := HeadingLocation heading;
                Tags := msgs.ScenarioTags doc;
                ScenarioKeyword := HeadingKeyword heading;
                Name := HeadingName heading;
                Description := EmptyString;
                Background := bkg;
                Steps := [] |} in
    match bkg with
    | None => gobdd.nilDereference
    | Some b =>
      match GenerateSteps (msgs.BackgroundSteps b) scheme with
      | (_, Some err) => Ok (s, Some err)
      | (bkgSteps, None) =>
        match GenerateSteps (msgs.ScenarioSteps doc) scheme with
        | (_, Some err) => Ok (s, Some err)
        | (scnSteps, None) =>
          Ok (withSteps (match bkgSteps with Some l => l | None => [] end
                         ++ match scnSteps with Some l => l | None => [] end) s,
              None)
        end
      end
    end
  end.

End Scenario.

End scenario.

(** ** Vocabulary of the recorded executions *)

Module Records.
Import floats reflect rt models.

Section Steps.
Context {F : Floats}.

(** A failure on record carries its error. *)
Definition sound (x : StepExecution) : Prop :=
  Result x = Failed -> Err x <> None.

(** The step is bound to a function that, called with the context and
    the arguments of the step, returns a single nil whatever happened
    before. *)
Definition passes (ctx : context.Context) (st : Step) : Prop :=
  exists d,
    Func st = IFunc d
    /\ forall tr, exists r0 ticks,
        body d (VContext ctx :: Args st) tr = Returns [r0] ticks
        /\ IsNil r0 = inr true.

(** The elements of a slice that may be nil. *)
Definition elements {A} (o : option (list A)) : list A :=
  match o with Some l => l | None => [] end.

End Steps.

End Records.

(** ** A scenario whose steps all pass *)

Module RecordFixtures.
Import floats reflect rt models StepFixtures.

Definition passingScenario : Scenario :=
  {| ScenarioLocation := None; Tags := []; ScenarioKeyword := "Scenario";
     Name := "two steps"; Description := EmptyString; Background := None;
     Steps := [fresh "a first step" (returning "first" [VNil Interface]);
               fresh "a second step" (returning "second" [VNil Interface])] |}.

End RecordFixtures.

(** * Properties *)

(** Closed equations are settled by evaluating their left-hand side on the
    virtual machine. *)
Ltac vm_eval t :=
  let t' := eval vm_compute in t in
  replace t with t' by (vm_cast_no_check (@eq_refl _ t')).

Ltac vm_eval_in t H :=
  let t' := eval vm_compute in t in
  replace t with t' in H by (vm_cast_no_check (@eq_refl _ t')).

Ltac by_evaluation :=
  match goal with
  | |- ?l = ?r => vm_cast_no_check (@eq_refl _ r)
  | |- ?l <> ?r => vm_eval l; vm_eval r; discriminate
  end.

(** ** The wrappers of [regexp] *)

Module RegexpFacts.
Import regexp.

Section Facts.
Context {E : Engine}.

(** A pattern that matches somewhere has at least one match in the
    list [FindAll] returns: the first match found is always kept. *)
Lemma MatchString_FindAll (re : Regexp) (s : string) :
  MatchString re s = true -> 1 <= length (FindAll re s).
Proof.
  unfold MatchString, FindAll.
  destruct (doExecute re s 0) as [[[m0 m1] caps]|] eqn:Hex; [intros _|discriminate].
  rewrite length_map.
  replace ((String.length s + 2) * (String.length s + 3))
    with (S ((String.length s + 2) * (String.length s + 3) - 1)) by lia.
  cbn [allMatchesLoop].
  replace (0 <? String.length s + 1) with true
    by (symmetry; apply Nat.ltb_lt; lia).
  cbn [andb Nat.leb].
  rewrite Hex.
  rewrite andb_false_r. cbn [negb length]. lia.
Qed.

Lemma FindAll_MatchString (re : Regexp) (s : string) :
  MatchString re s = false -> FindAll re s = [].
Proof.
  unfold MatchString, FindAll.
  destruct (doExecute re s 0) as [[[m0 m1] caps]|] eqn:Hex; [discriminate|intros _].
  replace ((String.length s + 2) * (String.length s + 3))
    with (S ((String.length s + 2) * (String.length s + 3) - 1)) by lia.
  cbn [allMatchesLoop].
  rewrite Hex. destruct (_ && _); reflexivity.
Qed.

End Facts.
End RegexpFacts.

(** ** Resolution: [findStepDef] *)

Module Resolve.
Import floats reflect rt regexp gobdd.

Section Facts.
Context {E : Engine} {F : Floats}.

Lemma matchCount_pos (text : string) (d : stepDef) :
  matchesText text d = true -> 1 <= matchCount text d.
Proof. apply RegexpFacts.MatchString_FindAll. Qed.

(** What the loop of [findStepDef] leaves in [(sd, found, matched)]:
    either nothing beat [found], or the winner is the first of the
    definitions of greatest count. *)
Lemma findStepDef_loop (text : string) (l : list stepDef) :
  forall sd found matched,
    match fold_left (findStepDefStep text) l (sd, found, matched) with
    | (sd', found', matched') =>
      matched' = matched || existsb (matchesText text) l
      /\ ((sd' = sd /\ found' = found
           /\ forall d, In d l -> matchesText text d = true ->
                        matchCount text d <= found)
          \/ exists before d after,
              l = before ++ d :: after
              /\ sd' = Some d /\ found' = matchCount text d
              /\ matchesText text d = true
              /\ found < matchCount text d
              /\ (forall d', In d' before -> matchesText text d' = true ->
                             matchCount text d' < matchCount text d)
              /\ (forall d', In d' after -> matchesText text d' = true ->
                             matchCount text d' <= matchCount text d))
    end.
Proof.
  induction l as [|a l IH]; intros sd found matched; cbn [fold_left].
  - split; [now rewrite orb_false_r|]. left. repeat split. intros d [].
  - unfold findStepDefStep at 2. fold (matchesText text a).
    fold (matchCount text a).
    destruct (matchesText text a) eqn:Ha; cbn [negb].
    + destruct (found <? matchCount text a) eqn:Hlt.
      * apply Nat.ltb_lt in Hlt.
        specialize (IH (Some a) (matchCount text a) true).
        destruct (fold_left _ l _) as [[sd' found'] matched'].
        destruct IH as [Hm IH]. split.
        { rewrite Hm. cbn [existsb]. rewrite Ha. now rewrite orb_true_r. }
        right. destruct IH as [(-> & -> & Hle)|(before & d & after & -> & -> & -> & Hd & Hgt & Hb & Haf)].
        -- exists [], a, l. repeat split; auto. intros d' [].
        -- exists (a :: before), d, after. repeat split; auto; try lia.
           intros d' [<-|Hin] Hd'; [lia|auto].
      * apply Nat.ltb_ge in Hlt.
        specialize (IH sd found true).
        destruct (fold_left _ l _) as [[sd' found'] matched'].
        destruct IH as [Hm IH]. split.
        { rewrite Hm. cbn [existsb]. rewrite Ha. now rewrite orb_true_r. }
        destruct IH as [(-> & -> & Hle)|(before & d & after & -> & -> & -> & Hd & Hgt & Hb & Haf)].
        -- left. repeat split. intros d [<-|Hin] Hd; auto.
        -- right. exists (a :: before), d, after. repeat split; auto.
           intros d' [<-|Hin] Hd'; [lia|auto].
    + specialize (IH sd found matched).
      destruct (fold_left _ l _) as [[sd' found'] matched'].
      destruct IH as [Hm IH]. split; [cbn [existsb]; rewrite Ha; exact Hm|].
      destruct IH as [(-> & -> & Hle)|(before & d & after & -> & -> & -> & Hd & Hgt & Hb & Haf)].
      * left. repeat split. intros d [<-|Hin] Hd; [congruence|auto].
      * right. exists (a :: before), d, after. repeat split; auto.
        intros d' [<-|Hin] Hd'; [congruence|auto].
Qed.

(** [findStepDef] either fails because no definition matches, or
    returns the first definition of greatest match count. *)
Lemma findStepDef_cases (registered : list stepDef) (text : string) :
  ((forall d, In d registered -> matchesText text d = false)
   /\ findStepDef registered text = (None, Some "cannot find step definition"))
  \/ exists before d after,
      registered = before ++ d :: after
      /\ findStepDef registered text = (Some d, None)
      /\ matchesText text d = true
      /\ (forall d', In d' before -> matchesText text d' = true ->
                     matchCount text d' < matchCount text d)
      /\ (forall d', In d' after -> matchesText text d' = true ->
                     matchCount text d' <= matchCount text d).
Proof.
  unfold findStepDef.
  pose proof (findStepDef_loop text registered None 0 false) as H.
  destruct (fold_left _ registered _) as [[sd' found'] matched'].
  destruct H as [Hm [(-> & -> & Hle)|(before & d & after & Hl & -> & -> & Hd & Hgt & Hb & Haf)]].
  - assert (Hno : forall d, In d registered -> matchesText text d = false).
    { intros d Hin. destruct (matchesText text d) eqn:Hd; [|reflexivity].
      pose proof (matchCount_pos _ _ Hd). specialize (Hle d Hin Hd). lia. }
    left. split; [exact Hno|].
    assert (matched' = false) as ->; [|reflexivity].
    rewrite Hm. cbn. apply not_true_is_false. intros Hex.
    apply existsb_exists in Hex as (d & Hin & Hd).
    rewrite (Hno d Hin) in Hd. discriminate.
  - right. exists before, d, after. repeat split; auto.
    assert (matched' = true) as ->; [|reflexivity].
    rewrite Hm. cbn. apply existsb_exists. exists d. split; [|exact Hd].
    rewrite Hl. apply in_elt.
Qed.

(** C1. [findStepDef] scans the definitions in registration order and keeps
    only those whose pattern matches the text somewhere. If none does, it
    fails with "cannot find step definition". Otherwise it returns the
    definition [d] with the greatest number of non-overlapping matches:
    every matching definition registered before [d] has strictly fewer
    matches and every one registered after [d] has at most as many, so on
    equal counts the earlier one wins. In particular, when exactly one
    definition matches, it is returned whatever the registration order. *)
Theorem findStepDef_first_of_greatest_count
        (registered : list stepDef) (text : string) :
  (((forall d, In d registered -> matchesText text d = false)
    /\ findStepDef registered text = (None, Some "cannot find step definition"))
   \/ exists before d after,
       registered = before ++ d :: after
       /\ findStepDef registered text = (Some d, None)
       /\ matchesText text d = true
       /\ (forall d', In d' before -> matchesText text d' = true ->
                      matchCount text d' < matchCount text d)
       /\ (forall d', In d' after -> matchesText text d' = true ->
                      matchCount text d' <= matchCount text d))
  /\ (forall d registered',
         Permutation registered registered' ->
         In d registered -> matchesText text d = true ->
         (forall d', In d' registered -> matchesText text d' = true -> d' = d) ->
         findStepDef registered' text = (Some d, None)).
Proof.
  split; [apply findStepDef_cases|].
  intros d registered' Hperm Hin Hd Huniq.
  destruct (findStepDef_cases registered' text)
    as [[Hno _]|(before & d0 & after & Hl & Hfind & Hd0 & _)].
  - rewrite (Hno d) in Hd; [discriminate|].
    eapply Permutation_in; eauto.
  - rewrite Hfind. f_equal. f_equal. apply Huniq; [|exact Hd0].
    eapply Permutation_in; [apply Permutation_sym; exact Hperm|].
    rewrite Hl. apply in_elt.
Qed.

End Facts.
End Resolve.

(** ** Parameter templates: [applyParameterTypes] and [AddStep] *)

Module Templates.
Import floats reflect rt regexp gobdd.

Section Facts.
Context {E : Engine} {F : Floats}.

(** Every choice of picks visits each entry of the map once. *)
Lemma pickOrder_Permutation {A} (fuel : nat) :
  forall (picks : list nat) (l : list A),
    length l = fuel -> Permutation (pickOrder fuel picks l) l.
Proof.
  induction fuel as [|fuel IH]; intros picks l Hlen.
  - destruct l; [constructor|discriminate].
  - destruct l as [|a l']; [discriminate|].
    cbn [pickOrder].
    set (l := a :: l') in *.
    set (k := hd 0 picks mod length l).
    assert (Hk : k < length l).
    { apply Nat.mod_upper_bound. subst l. cbn. lia. }
    assert (Hsplit : l = firstn k l ++ nth k l a :: skipn (S k) l).
    { clearbody k. clear -Hk. revert k Hk.
      induction l as [|x l IHl]; intros k Hk; [cbn in Hk; lia|].
      destruct k as [|k]; cbn; [reflexivity|].
      f_equal. rewrite <- (firstn_skipn k l) at 1.
      cbn in Hk. specialize (IHl k ltac:(lia)).
      rewrite (firstn_skipn k l). exact IHl. }
    transitivity (nth k l a :: (firstn k l ++ skipn (S k) l)).
    + apply perm_skip. apply IH.
      apply (f_equal (@length A)) in Hsplit.
      rewrite length_app in Hsplit |- *. cbn [length] in Hsplit. lia.
    + transitivity (firstn k l ++ nth k l a :: skipn (S k) l).
      * apply Permutation_middle.
      * rewrite <- Hsplit. reflexivity.
Qed.

Lemma rangeOrder_Permutation {A} (picks : list nat) (m : list A) :
  Permutation (rangeOrder picks m) m.
Proof. apply pickOrder_Permutation. reflexivity. Qed.

Lemma flat_map_all_nil {A B} (g : A -> list B) (l : list A) :
  (forall y, In y l -> g y = []) -> flat_map g l = [].
Proof.
  induction l as [|a l IH]; intros H; [reflexivity|].
  cbn [flat_map]. rewrite (H a (or_introl eq_refl)), IH; [reflexivity|].
  intros y Hy. apply H. now right.
Qed.

(** When a single entry of a duplicate-free list contributes, the
    concatenation is that entry's contribution. *)
Lemma flat_map_single {A B} (g : A -> list B) (x : A) (l : list A) :
  NoDup l -> In x l -> (forall y, In y l -> y <> x -> g y = []) ->
  flat_map g l = g x.
Proof.
  induction l as [|a l IH]; intros Hnd Hin Hothers; [destruct Hin|].
  inversion Hnd as [|? ? Hnotin Hnd']; subst. cbn [flat_map].
  destruct Hin as [->|Hin].
  - rewrite flat_map_all_nil; [apply app_nil_r|].
    intros y Hy. apply Hothers; [now right|].
    intros ->. contradiction.
  - rewrite (Hothers a (or_introl eq_refl)); [|intros ->; contradiction].
    cbn [app]. apply IH; auto.
    intros y Hy. apply Hothers. now right.
Qed.

Lemma variantsOf_absent (expr0 from : string) (to : list string) :
  strings.Contains expr0 from = false -> variantsOf expr0 (from, to) = [].
Proof.
  intros H. unfold variantsOf. rewrite H.
  induction to as [|t to IH]; [reflexivity|exact IH].
Qed.

Lemma variantsOf_present (expr0 from : string) (to : list string) :
  strings.Contains expr0 from = true ->
  variantsOf expr0 (from, to) = map (strings.ReplaceAll expr0 from) to.
Proof.
  intros H. unfold variantsOf. rewrite H.
  induction to as [|t to IH]; [reflexivity|].
  cbn [flat_map map app]. now rewrite IH.
Qed.

(** In a map, a key has one value. *)
Lemma map_key_unique {V} (m : list (string * V)) (k : string) (v v' : V) :
  NoDup (map fst m) -> In (k, v) m -> In (k, v') m -> v = v'.
Proof.
  induction m as [|[k0 v0] m IH]; intros Hnd Hin Hin'; [destruct Hin|].
  cbn [map fst] in Hnd. inversion Hnd as [|? ? Hnotin Hnd']; subst.
  destruct Hin as [Heq|Hin], Hin' as [Heq'|Hin'].
  - congruence.
  - inversion Heq; subst. exfalso. apply Hnotin.
    apply (in_map fst) in Hin'. exact Hin'.
  - inversion Heq'; subst. exfalso. apply Hnotin.
    apply (in_map fst) in Hin. exact Hin.
  - eauto.
Qed.

Lemma applyParameterTypes_eq (expr0 : string) (e : Env) :
  applyParameterTypes expr0 e
  = (Ok (expr0 :: flat_map (variantsOf expr0)
                   (rangeOrder (hd [] (sched (world e))) (parameterTypes (suite e)))),
     {| suite := suite e;
        world := {| now := now (world e); trace := trace (world e);
                    sched := tl (sched (world e)) |} |}).
Proof. reflexivity. Qed.

Lemma forEach_cons {S A} (a : A) (l : list A) (g : A -> M S unit) (s : S) :
  forEach (a :: l) g s
  = match g a s with
    | (Ok _, s') => forEach l g s'
    | (Panic v, s') => (Panic v, s')
    end.
Proof. reflexivity. Qed.

Lemma registerOne (step : Iface) (p : string) (re : Regexp) (e : Env) :
  Compile p = Some re ->
  rt.bind (MustCompile p)
          (fun compiled => appendStep {| expr := compiled; f := step |}) e
  = (Ok tt, {| suite := {| steps := steps (suite e) ++ [{| expr := re; f := step |}];
                           options := options (suite e);
                           parameterTypes := parameterTypes (suite e) |};
               world := world e |}).
Proof. intros Hp. unfold rt.bind, MustCompile. rewrite Hp. reflexivity. Qed.

(** Compiling and appending one definition per pattern. *)
Lemma registerAll (step : Iface) (ps : list string) :
  forall e : Env,
    (forall p, In p ps -> Compile p <> None) ->
    exists defs,
      forEach ps (fun p =>
                    rt.bind (MustCompile p)
                            (fun compiled => appendStep {| expr := compiled; f := step |})) e
      = (Ok tt, {| suite := {| steps := steps (suite e) ++ defs;
                               options := options (suite e);
                               parameterTypes := parameterTypes (suite e) |};
                   world := world e |})
      /\ map (fun d => Some (expr d)) defs = map Compile ps
      /\ map (@f E F) defs = repeat step (length ps).
Proof.
  induction ps as [|p ps IH]; intros e Hc.
  - exists []. cbn. rewrite app_nil_r. destruct e as [[? ? ?] ?]. auto.
  - destruct (Compile p) as [re|] eqn:Hp;
      [|exfalso; apply (Hc p); [now left|exact Hp]].
    rewrite forEach_cons, (registerOne step p e Hp).
    match goal with |- context [forEach ps _ ?e1] => destruct (IH e1) as (defs & Hrun & Hex & Hf) end.
    { intros q Hq. apply Hc. now right. }
    exists ({| expr := re; f := step |} :: defs).
    rewrite Hrun. cbn [suite steps options parameterTypes world].
    rewrite <- app_assoc. cbn [app map length repeat expr f].
    rewrite Hex, Hf, Hp. auto.
Qed.

(** C3 (amended). [applyParameterTypes] always returns the original
    pattern first, followed by one variant per fragment of every
    registered token that the pattern contains, the pattern with every
    occurrence of the token replaced by the fragment; the variants are the
    same, up to order, whatever order the map is visited in. So a pattern
    with no registered token expands to itself alone, and a pattern whose
    only registered token has the fragments [to] expands to itself followed
    by one variant per element of [to]. Registering the pattern with a
    valid step function, when every pattern of the expansion compiles,
    appends one definition per pattern of the expansion: one more than
    the number of variants. *)
Theorem applyParameterTypes_original_then_variants (e : Env) (expr0 : string) :
  let registered := parameterTypes (suite e) in
  let variants :=
    flat_map (variantsOf expr0)
             (rangeOrder (hd [] (sched (world e))) registered) in
  fst (applyParameterTypes expr0 e) = Ok (expr0 :: variants)
  /\ Permutation variants (flat_map (variantsOf expr0) registered)
  /\ ((forall from to, In (from, to) registered ->
                       strings.Contains expr0 from = false) ->
      variants = [])
  /\ (forall from to,
         NoDup (map fst registered) ->
         In (from, to) registered ->
         strings.Contains expr0 from = true ->
         (forall from' to', In (from', to') registered -> from' <> from ->
                            strings.Contains expr0 from' = false) ->
         variants = map (strings.ReplaceAll expr0 from) to)
  /\ (forall step,
         validateStepFunc step = None ->
         (forall p, In p (expr0 :: variants) -> Compile p <> None) ->
         exists defs,
           fst (AddStep expr0 step e) = Ok tt
           /\ steps (suite (snd (AddStep expr0 step e))) = steps (suite e) ++ defs
           /\ length defs = 1 + length variants
           /\ map (fun d => Some (expr d)) defs = map Compile (expr0 :: variants)
           /\ map (@f E F) defs = repeat step (1 + length variants)).
Proof.
  intros registered variants.
  pose proof (rangeOrder_Permutation (hd [] (sched (world e))) registered) as Hperm.
  repeat split.
  - apply Permutation_flat_map. exact Hperm.
  - intros Hnone. apply flat_map_all_nil. intros [from to] Hin.
    apply variantsOf_absent. apply (Hnone from to).
    eapply Permutation_in; eauto.
  - intros from to Hnd Hin Hc Hothers. subst variants.
    rewrite (@flat_map_single _ _ (variantsOf expr0) (from, to)).
    + apply variantsOf_present. exact Hc.
    + eapply Permutation_NoDup; [apply Permutation_sym; exact Hperm|].
      eapply NoDup_map_inv. exact Hnd.
    + eapply Permutation_in; [apply Permutation_sym; exact Hperm|exact Hin].
    + intros [from' to'] Hin' Hne. apply variantsOf_absent.
      assert (Hreg : In (from', to') registered)
        by (eapply Permutation_in; eauto).
      apply (Hothers from' to' Hreg). intros ->. apply Hne. f_equal.
      eapply map_key_unique; eauto.
  - intros step Hvalid Hcompile.
    set (e1 := {| suite := suite e;
                  world := {| now := now (world e); trace := trace (world e);
                              sched := tl (sched (world e)) |} |}).
    destruct (registerAll step (expr0 :: variants) e1 Hcompile)
      as (defs & Hrun & Hex & Hf).
    assert (Hadd : AddStep expr0 step e
                   = (Ok tt, {| suite := {| steps := steps (suite e) ++ defs;
                                            options := options (suite e);
                                            parameterTypes := parameterTypes (suite e) |};
                                world := world e1 |})).
    { unfold AddStep. rewrite Hvalid. unfold rt.bind at 1.
      rewrite applyParameterTypes_eq. exact Hrun. }
    exists defs. rewrite Hadd. cbn [fst snd suite steps].
    repeat split; auto.
    apply (f_equal (@length _)) in Hex. rewrite !length_map in Hex. exact Hex.
Qed.

End Facts.
End Templates.

(** ** The default suite: the template [{int}] *)

Module DefaultSuite.
Import floats reflect rt regexp msgs gobdd Fixtures.

(** C3, counterexample. In the default suite the token [{int}] has the one
    fragment [(\d)] and the pattern "I have {int} cucumbers" contains it,
    yet the expansion holds two patterns, the original and the variant, and
    registering the pattern adds two definitions: not one per fragment. *)
Lemma expansion_keeps_the_original_pattern :
  In ("{int}", ["(\d)"]) (parameterTypes (suite defaultEnv))
  /\ strings.Contains "I have {int} cucumbers" "{int}" = true
  /\ fst (applyParameterTypes "I have {int} cucumbers" defaultEnv)
     = Ok ["I have {int} cucumbers"; "I have (\d) cucumbers"]
  /\ fst (applyParameterTypes "I have {int} cucumbers" defaultEnv)
     <> Ok (map (strings.ReplaceAll "I have {int} cucumbers" "{int}") ["(\d)"])
  /\ length (steps (suite cucumberEnv)) = 2
  /\ length (steps (suite cucumberEnv)) <> length ["(\d)"].
Proof.
  split; [left; reflexivity|].
  repeat split; by_evaluation.
Qed.

(** C3, an instance: registering "I have {int} cucumbers" in the default
    suite appends two definitions. *)
Lemma cucumbers_registers_two_definitions :
  exists defs,
    fst (AddStep "I have {int} cucumbers" (IFunc cucumbers) defaultEnv) = Ok tt
    /\ steps (suite (snd (AddStep "I have {int} cucumbers" (IFunc cucumbers) defaultEnv)))
       = steps (suite defaultEnv) ++ defs
    /\ length defs = 2.
Proof.
  destruct (Templates.applyParameterTypes_original_then_variants
              defaultEnv "I have {int} cucumbers")
    as (_ & _ & _ & _ & Hadd).
  destruct (Hadd (IFunc cucumbers)) as (defs & H1 & H2 & H3 & _).
  - reflexivity.
  - intros p Hp.
    vm_eval_in (flat_map (variantsOf "I have {int} cucumbers")
                         (rangeOrder (hd [] (sched (world defaultEnv)))
                                     (parameterTypes (suite defaultEnv)))) Hp.
    destruct Hp as [<-|[<-|[]]]; by_evaluation.
  - exists defs. repeat split; assumption.
Defined.

(** C2, on the code. After [NewSuite()] and
    [AddStep("I have {int} cucumbers", cucumbers)] the step "I have 42
    cucumbers" is not resolved: the fragment of [{int}] is [(\d)], one
    digit, so neither the pattern nor its variant matches, [runStep]
    panics and the callable is never invoked. With one digit, "I have 4
    cucumbers", the step resolves, "4" becomes the integer 4 and the
    callable is invoked with the context and 4. *)
Theorem cucumbers_42_is_not_resolved :
  findStepDef (steps (suite cucumberEnv)) "I have 42 cucumbers"
  = (None, Some "cannot find step definition")
  /\ runStep context.Background (given "I have 42 cucumbers") cucumberEnv
     = (Panic (PVal "cannot find step definition for step: Given I have 42 cucumbers"),
        cucumberEnv)
  /\ trace (world cucumberEnv) = []
  /\ fst (runStep context.Background (given "I have 4 cucumbers") cucumberEnv) = Ok tt
  /\ trace (world (snd (runStep context.Background (given "I have 4 cucumbers")
                                cucumberEnv)))
     = [Called "cucumbers" [VContext context.Background; VInt 4]].
Proof. repeat split; by_evaluation. Qed.

End DefaultSuite.

(** ** Package [models]: [Step.Run] and [Scenario.Run] *)

Module Execution.
Import floats reflect rt models.

Section Facts.
Context {F : Floats}.

(** The call a step makes when it is run, as the trace records it. *)
Lemma Run_of_function_that_returns
      (ctx : context.Context) (st : Step) (w : World)
      (d : FuncValue) (out : list Value) (elapsed : nat) :
  Func st = IFunc d ->
  body d (VContext ctx :: Args st) (trace w) = Returns out elapsed ->
  exists res err,
    Run ctx {| self := st; world := w |}
    = (Ok tt,
       {| self := withExecution {| Result := res; StartTime := now w;
                                   EndTime := now w + elapsed; Err := err |} st;
          world := {| now := now w + elapsed;
                      trace := trace w ++ [Called (FuncName d) (VContext ctx :: Args st)];
                      sched := sched w |} |})
    /\ (res = Passed \/ res = Failed)
    /\ (res = Passed <-> exists r0, out = [r0] /\ IsNil r0 = inr true).
Proof.
  intros Hf Hb. destruct st as [loc kw kt tx ds dt fn args x]. cbn in Hf, Hb. subst fn.
  unfold Run, recovering, rt.bind, inWorld, zoom, getSelf, modifyExecution,
    timeNow, CallValue, Call, record, rt.ret, rt.panic.
  cbn. rewrite Hb. cbn.
  destruct out as [|r0 [|r1 out']]; cbn.
  - do 2 eexists. split; [reflexivity|]. split; [now right|].
    split; [discriminate|]. intros (r & Hr & _). discriminate.
  - assert (Hnil : (exists msg, IsNil r0 = inl (PVal msg)) \/ exists b, IsNil r0 = inr b).
    { destruct r0 as [[b|]| | | | | |k| |k r]; cbn; eauto;
        destruct (nillable k); eauto. }
    destruct Hnil as [[msg Hnil]|[[|] Hnil]]; rewrite Hnil; cbn.
    + do 2 eexists. split; [reflexivity|]. split; [now right|].
      split; [discriminate|]. intros (r & Hr & Hn). inversion Hr; subst.
      rewrite Hnil in Hn. discriminate.
    + do 2 eexists. split; [reflexivity|]. split; [now left|].
      split; [intros _; eauto|reflexivity].
    + destruct r0; cbn; do 2 eexists; (split; [reflexivity|]); (split; [now right|]).
      all: split; [discriminate|]; intros (r & Hr & Hn); inversion Hr; subst;
        rewrite Hnil in Hn; discriminate.
  - do 2 eexists. split; [reflexivity|]. split; [now right|].
    split; [discriminate|]. intros (r & Hr & _). discriminate.
Qed.

Lemma Run_of_function_that_panics
      (ctx : context.Context) (st : Step) (w : World)
      (d : FuncValue) (v : PanicValue) (elapsed : nat) :
  Func st = IFunc d ->
  body d (VContext ctx :: Args st) (trace w) = Panics v elapsed ->
  Run ctx {| self := st; world := w |}
  = (Ok tt,
     {| self := withExecution
                  {| Result := match v with
                               | PNil => Result (Execution st)
                               | PVal _ => Failed
                               end;
                     StartTime := now w;
                     EndTime := EndTime (Execution st);
                     Err := match v with
                            | PNil => Err (Execution st)
                            | PVal msg => Some msg
                            end |} st;
        world := {| now := now w + elapsed;
                    trace := trace w ++ [Called (FuncName d) (VContext ctx :: Args st)];
                    sched := sched w |} |}).
Proof.
  intros Hf Hb. destruct st as [loc kw kt tx ds dt fn args x]. cbn in Hf, Hb. subst fn.
  unfold Run, recovering, rt.bind, inWorld, zoom, getSelf, modifyExecution,
    timeNow, CallValue, Call, record, rt.ret, rt.panic.
  cbn. rewrite Hb. cbn. destruct v; reflexivity.
Qed.

Lemma Run_of_non_function
      (ctx : context.Context) (st : Step) (w : World) (k : Kind) :
  Func st = INonFunc k ->
  exists msg,
    Run ctx {| self := st; world := w |}
    = (Ok tt,
       {| self := withExecution {| Result := Failed; StartTime := now w;
                                   EndTime := EndTime (Execution st);
                                   Err := Some msg |} st;
          world := w |}).
Proof.
  intros Hf. destruct st as [loc kw kt tx ds dt fn args x]. cbn in Hf. subst fn.
  unfold Run, recovering, rt.bind, inWorld, zoom, getSelf, modifyExecution,
    timeNow, CallValue, rt.ret, rt.panic.
  destruct k; cbn; eexists; reflexivity.
Qed.

(** [Step.Run] always returns: the step keeps everything but its
    execution, the trace gains the call, and the result is [Passed],
    [Failed], or, after [panic(nil)], what it was. *)
Lemma Run_summary (ctx : context.Context) (st : Step) (w : World) :
  exists x' w',
    Run ctx {| self := st; world := w |}
    = (Ok tt, {| self := withExecution x' st; world := w' |})
    /\ trace w' = trace w ++ callOf ctx st
    /\ sched w' = sched w
    /\ now w <= now w'
    /\ StartTime x' = now w
    /\ (Result x' = Passed \/ Result x' = Failed
        \/ Result x' = Result (Execution st)).
Proof.
  unfold callOf.
  destruct (Func st) as [d|k] eqn:Hf.
  - destruct (body d (VContext ctx :: Args st) (trace w)) as [out el|v el] eqn:Hb.
    + destruct (Run_of_function_that_returns ctx st w Hf Hb)
        as (res & err & Hrun & Hres & _).
      do 2 eexists. split; [exact Hrun|]. cbn.
      repeat split; auto; try lia; destruct Hres; auto.
    + rewrite (Run_of_function_that_panics ctx st w Hf Hb).
      do 2 eexists. split; [reflexivity|]. cbn.
      repeat split; auto; try lia; destruct v; auto.
  - destruct (Run_of_non_function ctx st w Hf) as (msg & Hrun).
    do 2 eexists. split; [exact Hrun|]. cbn. rewrite app_nil_r.
    repeat split; auto.
Qed.

(** The loop of [Scenario.Run] runs the first [n] steps and stops: the
    steps from index [n] on are untouched, the trace gained the calls of
    the first [n] steps in order, all of them but the last recorded
    [Passed], and if steps remain, the last one run did not. *)
Lemma runSteps_halts (ctx : context.Context) (sts : list Step) :
  forall w : World,
  exists n sts' w',
    runSteps ctx sts w = (Ok tt, (sts', w'))
    /\ n <= length sts
    /\ length sts' = length sts
    /\ skipn n sts' = skipn n sts
    /\ trace w' = trace w ++ flat_map (callOf ctx) (firstn n sts)
    /\ (forall i st, i + 1 < n -> nth_error sts' i = Some st ->
                     Result (Execution st) = Passed)
    /\ (n < length sts ->
        0 < n /\ exists st, nth_error sts' (n - 1) = Some st
                            /\ Result (Execution st) <> Passed)
    /\ (sts <> [] -> 0 < n).
Proof.
  induction sts as [|step rest IH]; intros w.
  - exists 0, [], w. cbn. rewrite app_nil_r.
    repeat split; auto; try lia; intros; try lia; congruence.
  - destruct (Run_summary ctx step w) as (x' & w1 & Hrun & Htr & _ & _ & _ & _).
    cbn [runSteps]. rewrite Hrun. cbn [self world].
    destruct (Z.eqb_spec (Result (Execution (withExecution x' step))) Passed) as [Hp|Hp];
      cbn [negb].
    + destruct (IH w1) as (n & rest' & w' & Hrest & Hn & Hlen & Hskip & Htr' & Hpass & Hlast & _).
      rewrite Hrest.
      exists (S n), (withExecution x' step :: rest'), w'.
      split; [reflexivity|]. cbn [length skipn firstn flat_map].
      split; [lia|]. split; [lia|]. split; [exact Hskip|].
      split; [rewrite Htr', Htr, app_assoc; reflexivity|].
      split; [|split; [|intros _; lia]].
      * intros [|i] st Hi Hnth; cbn in Hnth.
        -- inversion Hnth; subst. exact Hp.
        -- apply (Hpass i); [lia|exact Hnth].
      * intros Hlt. split; [lia|].
        destruct Hlast as (Hpos & st & Hnth & Hres); [lia|].
        exists st. split; [|exact Hres].
        replace (S n - 1) with (S (n - 1)) by lia. exact Hnth.
    + exists 1, (withExecution x' step :: rest), w1.
      split; [reflexivity|]. cbn [length skipn firstn flat_map].
      split; [lia|]. split; [reflexivity|]. split; [reflexivity|].
      split; [rewrite app_nil_r; exact Htr|].
      split; [intros i st Hi; lia|]. split; [|intros _; lia].
      intros _. split; [lia|]. exists (withExecution x' step). split; [reflexivity|exact Hp].
Qed.

End Facts.
End Execution.

Module ScenarioRunProps.
Import floats reflect rt models StepFixtures.

(** The halting rule of [Scenario.Run]. It returns after running the
    first [n] steps of the
    scenario in order, for some [n]: the trace gains exactly the calls of
    those steps, in order, and the steps from index [n] on are left as
    they were. Every step run before the last one run recorded [Passed];
    a step whose recorded result is not [Passed] is therefore the last one
    run or was not run at all, and if steps remain unrun, the last one run
    recorded a result other than [Passed]. Concretely, of four steps that
    would yield Passed, Passed, Failed, Passed, exactly three are run and
    the fourth is never called. *)
Theorem ScenarioRun_halts_at_first_non_Passed :
  (forall (F : Floats) (ctx : context.Context) (sc : Scenario) (w : World),
      let e' := snd (ScenarioRun ctx {| this := sc; sworld := w |}) in
      fst (ScenarioRun ctx {| this := sc; sworld := w |}) = Ok tt
      /\ exists n,
          n <= length (Steps sc)
          /\ length (Steps (this e')) = length (Steps sc)
          /\ skipn n (Steps (this e')) = skipn n (Steps sc)
          /\ trace (sworld e')
             = trace w ++ flat_map (callOf ctx) (firstn n (Steps sc))
          /\ (forall i st, i + 1 < n -> nth_error (Steps (this e')) i = Some st ->
                           Result (Execution st) = Passed)
          /\ (forall j st, nth_error (Steps (this e')) j = Some st ->
                           Result (Execution st) <> Passed -> n <= j + 1)
          /\ (n < length (Steps sc) ->
              0 < n /\ exists st, nth_error (Steps (this e')) (n - 1) = Some st
                                  /\ Result (Execution st) <> Passed))
  /\ (let e' := snd (ScenarioRun context.Background
                                 {| this := fourStepScenario; sworld := Fixtures.w0 |}) in
      map (fun st => Result (Execution st)) (Steps (this e'))
      = [Passed; Passed; Failed; Passed]
      /\ trace (sworld e')
         = [Called "first" [VContext context.Background];
            Called "second" [VContext context.Background];
            Called "third" [VContext context.Background]]
      /\ nth_error (Steps (this e')) 3 = nth_error fourSteps 3).
Proof.
  split.
  - intros F ctx sc w e'. subst e'. unfold ScenarioRun. cbn [this sworld].
    destruct (Execution.runSteps_halts ctx (Steps sc) w)
      as (n & sts' & w' & Hrun & Hn & Hlen & Hskip & Htr & Hpass & Hlast & _).
    rewrite Hrun. cbn [fst snd this sworld Steps].
    split; [reflexivity|]. exists n. repeat split; auto.
    + intros j st Hnth Hres.
      destruct (Nat.lt_ge_cases (j + 1) n) as [Hlt|Hge]; [|exact Hge].
      exfalso. apply Hres. eapply Hpass; eauto.
    + apply Hlast; assumption.
    + apply Hlast; assumption.
  - cbv zeta. repeat split; by_evaluation.
Qed.

End ScenarioRunProps.

Module StepRunProps.
Import floats reflect rt models StepFixtures.

(** C9, on the code. When the function of a step panics, [Step.Run]
    recovers after [StartTime] was set and before [EndTime] is: the
    handler records [Failed] and the error only, so [EndTime] keeps the
    value it had. For a fresh step that is the zero time, earlier than
    [StartTime]. When the function returns, [EndTime] is read after
    [StartTime] and is not earlier, and the result is [Passed] or
    [Failed]. *)
Theorem Run_panic_leaves_EndTime_unset :
  (forall (F : Floats) (ctx : context.Context) (st : Step) (w : World)
          (d : FuncValue) (v : PanicValue) (elapsed : nat),
      Func st = IFunc d ->
      body d (VContext ctx :: Args st) (trace w) = Panics v elapsed ->
      let x' := Execution (self (snd (Run ctx {| self := st; world := w |}))) in
      StartTime x' = now w /\ EndTime x' = EndTime (Execution st))
  /\ (forall (F : Floats) (ctx : context.Context) (st : Step) (w : World)
             (d : FuncValue) (out : list Value) (elapsed : nat),
         Func st = IFunc d ->
         body d (VContext ctx :: Args st) (trace w) = Returns out elapsed ->
         let x' := Execution (self (snd (Run ctx {| self := st; world := w |}))) in
         StartTime x' <= EndTime x' /\ (Result x' = Passed \/ Result x' = Failed))
  /\ (let x' := Execution (self (snd (Run context.Background
                                          {| self := faulty; world := Fixtures.w0 |}))) in
      Execution faulty = zeroExecution
      /\ Result x' = Failed /\ Err x' = Some "fault"
      /\ StartTime x' = 1000 /\ EndTime x' = 0
      /\ EndTime x' < StartTime x').
Proof.
  split; [|split].
  - intros F ctx st w d v elapsed Hf Hb x'. subst x'.
    rewrite (Execution.Run_of_function_that_panics ctx st w Hf Hb).
    split; reflexivity.
  - intros F ctx st w d out elapsed Hf Hb x'. subst x'.
    destruct (Execution.Run_of_function_that_returns ctx st w Hf Hb)
      as (res & err & Hrun & Hres & _).
    rewrite Hrun. cbn. split; [lia|exact Hres].
  - cbv zeta. repeat split; try by_evaluation.
    vm_eval (Execution (self (snd (Run context.Background
                                      {| self := faulty; world := Fixtures.w0 |})))).
    cbn. lia.
Qed.

(** C10. The zero value of [Result] is [Passed], so the step [NewStep]
    builds, before it is ever run, already reads [Passed]: the same
    [Result] as a step whose function ran and returned nil. In the
    scenario of four steps, the fourth step is never run, its execution is
    still the zero value, and its [Result] equals that of the first step,
    which ran and passed. *)
Theorem never_run_step_reads_Passed :
  Result zeroExecution = Passed
  /\ (forall (F : Floats) (stepDoc : msgs.Step) (scheme : Step -> Step * option string),
         exists s0 : Step,
           Execution s0 = zeroExecution
           /\ Result (Execution s0) = Passed
           /\ NewStep stepDoc scheme
              = match scheme s0 with
                | (_, Some err) => (None, Some err)
                | (s', None) => (Some s', None)
                end)
  /\ (forall (F : Floats) (ctx : context.Context) (st : Step) (w : World)
             (d : FuncValue) (r0 : Value) (elapsed : nat),
         Func st = IFunc d ->
         body d (VContext ctx :: Args st) (trace w) = Returns [r0] elapsed ->
         IsNil r0 = inr true ->
         Result (Execution (self (snd (Run ctx {| self := st; world := w |}))))
         = Result zeroExecution)
  /\ (let e' := snd (ScenarioRun context.Background
                                 {| this := fourStepScenario; sworld := Fixtures.w0 |}) in
      exists st1 st4,
        nth_error (Steps (this e')) 0 = Some st1
        /\ nth_error (Steps (this e')) 3 = Some st4
        /\ In (Called "first" [VContext context.Background]) (trace (sworld e'))
        /\ ~ In (Called "fourth" [VContext context.Background]) (trace (sworld e'))
        /\ Execution st4 = zeroExecution
        /\ Result (Execution st1) = Passed
        /\ Result (Execution st4) = Passed).
Proof.
  split; [reflexivity|]. split; [|split].
  - intros F stepDoc scheme. eexists. split; [|split; [|reflexivity]]; reflexivity.
  - intros F ctx st w d r0 elapsed Hf Hb Hnil.
    destruct (Execution.Run_of_function_that_returns ctx st w Hf Hb)
      as (res & err & Hrun & _ & Hres).
    rewrite Hrun. cbn. apply Hres. eauto.
  - cbv zeta.
    vm_eval (snd (ScenarioRun context.Background
                              {| this := fourStepScenario; sworld := Fixtures.w0 |})).
    cbn [this sworld Steps trace nth_error]. do 2 eexists.
    split; [reflexivity|]. split; [reflexivity|].
    split; [now left|].
    split; [intros [H|[H|[H|[]]]]; discriminate|].
    repeat split.
Qed.

End StepRunProps.

(** ** Invocation: [paramType] and [def.run] *)

Module Invocation.
Import floats reflect rt regexp msgs gobdd Fixtures.

(** C8, on the code. [paramType] gives a string target the captured bytes
    as a string, an int target their [Atoi], a float32 target the float32
    of their [ParseFloat] at 32 bits, and any target of another kind the
    captured bytes unchanged. A float64 target gets [ParseFloat] at 32
    bits as well, not at 64: the bytes "0.1" become the float32 nearest to
    0.1, which is not the float64 nearest to 0.1. *)
Theorem paramType_float64_parses_32_bits :
  (forall (F : Floats) (param : option string) (inType : RType),
      (TypeKind inType = String ->
       paramType param inType = VString (bytesToString param))
      /\ (TypeKind inType = Int ->
          paramType param inType = VInt (fst (strconv.Atoi (bytesToString param))))
      /\ (TypeKind inType = Float32 ->
          paramType param inType
          = VFloat32 (to_float32 (fst (ParseFloat (bytesToString param) 32))))
      /\ (TypeKind inType = Float64 ->
          paramType param inType
          = VFloat64 (fst (ParseFloat (bytesToString param) 32)))
      /\ (TypeKind inType <> String -> TypeKind inType <> Int ->
          TypeKind inType <> Float32 -> TypeKind inType <> Float64 ->
          paramType param inType = VBytes param))
  /\ paramType (Some "0.1") Float64Type = VFloat64 (ieee.Fin false 13421773 (-27))
  /\ fst (ParseFloat "0.1" 64) = ieee.Fin false 3602879701896397 (-55)
  /\ paramType (Some "0.1") Float64Type <> VFloat64 (fst (ParseFloat "0.1" 64)).
Proof.
  split; [|repeat split; by_evaluation].
  intros F param inType. unfold paramType.
  repeat split; try (intros ->; reflexivity).
  intros H1 H2 H3 H4. destruct (TypeKind inType); congruence.
Qed.

(** C7, on the code. When the number of captured groups plus one differs
    from the number of parameters of the step function, the body of
    [def.run] panics with the arity message before anything is called;
    the deferred [recover] of [def.run] then stops the panic and does
    nothing with it: [def.run] returns normally and the state is as it
    was, nothing called, nothing recorded. With two groups for the
    function [cucumbers] of one argument, [runStep] ends without a call
    and without an error. *)
Theorem arity_mismatch_is_dropped :
  (forall (E : Engine) (F : Floats) (sd : stepDef) (d : FuncValue)
          (ctx : context.Context) (params : list (option string)) (e : Env),
      f sd = IFunc d ->
      length params + 1 <> NumIn d ->
      runBody (Some sd) ctx params e
      = (Panic (PVal (arityMessage d (length params + 1))), e)
      /\ run (Some sd) ctx params e = (Ok tt, e))
  /\ option_map (@length _)
                (FindSubmatch (expr (nth 0 (steps (suite arityEnv))
                                         {| expr := {| re2.root := re2.Empty; re2.NumCap := 0 |};
                                            f := INonFunc Invalid |}))
                              "I have 4 cucumbers")
     = Some 3
  /\ NumIn cucumbers = 2
  /\ arityMessage cucumbers 3
     = "the step function <func(context.Context, int) Value> accepts 2 arguments but 3 received"
  /\ runStep context.Background (given "I have 4 cucumbers") arityEnv
     = (Ok tt, arityEnv)
  /\ trace (world arityEnv) = [].
Proof.
  split; [|repeat split; by_evaluation].
  intros E F sd d ctx params e Hf Hne.
  unfold run, recovering, runBody. rewrite Hf.
  destruct (Nat.eqb_spec (length params + 1) (NumIn d)) as [Heq|_]; [contradiction|].
  cbn. split; reflexivity.
Qed.

(** [def.run] never lets a panic out: whatever its body does, the
    deferred [recover] stops it, so [runScenario] goes on to the next
    step after a step function that panics. *)
Theorem run_never_panics :
  (forall (E : Engine) (F : Floats) (def : option stepDef)
          (ctx : context.Context) (params : list (option string)) (e : Env),
      fst (run def ctx params e) = Ok tt)
  /\ fst (runScenario (scenarioOf [given "I eat a rotten apple";
                                   given "I have 4 cucumbers"]) None rottenEnv)
     = Ok tt
  /\ trace (world (snd (runScenario (scenarioOf [given "I eat a rotten apple";
                                                 given "I have 4 cucumbers"])
                                    None rottenEnv)))
     = [Called "rotten" [VContext context.Background];
        Called "cucumbers" [VContext context.Background; VInt 4]].
Proof.
  split; [|split; by_evaluation].
  intros E F def ctx params e. unfold run, recovering.
  destruct (runBody def ctx params e) as [[u|[|msg]] e']; reflexivity.
Qed.

(** Tag filtering: a scenario is skipped exactly when it carries an
    ignored tag, or when tags are required and it carries none of them. *)
Theorem skipScenario_policy :
  forall (F : Floats) (o : SuiteOptions) (scenarioTags : list Tag),
    skipScenario o scenarioTags = true
    <-> ((exists tag, In tag scenarioTags /\ In (TagName tag) (ignoreTags o))
         \/ (tags o <> []
             /\ forall tag, In tag scenarioTags -> ~ In (TagName tag) (tags o))).
Proof.
  intros F o scenarioTags.
  assert (Hc : forall a x, contains a x = true <-> In x a).
  { induction a as [|n a IH]; intros x; cbn; [split; [discriminate|tauto]|].
    destruct (String.eqb_spec x n) as [->|Hne].
    - split; auto.
    - rewrite IH. split; [auto|]. intros [H|H]; [congruence|exact H]. }
  unfold skipScenario.
  destruct (existsb (fun tag => contains (ignoreTags o) (TagName tag)) scenarioTags)
    eqn:Hign.
  - split; [intros _|reflexivity]. left.
    apply existsb_exists in Hign as (tag & Hin & Ht).
    exists tag. split; [exact Hin|]. apply Hc. exact Ht.
  - assert (Hnoign : ~ exists tag, In tag scenarioTags /\ In (TagName tag) (ignoreTags o)).
    { intros (tag & Hin & Ht). apply Hc in Ht.
      assert (existsb (fun tag => contains (ignoreTags o) (TagName tag)) scenarioTags = true)
        by (apply existsb_exists; eauto).
      congruence. }
    destruct (tags o) as [|t ts] eqn:Htags; cbn [length Nat.eqb].
    + split; [discriminate|]. intros [H|[H _]]; [contradiction|congruence].
    + destruct (existsb (fun tag => contains (t :: ts) (TagName tag)) scenarioTags)
        eqn:Hreq.
      * split; [discriminate|]. intros [H|[_ H]]; [contradiction|].
        apply existsb_exists in Hreq as (tag & Hin & Ht).
        apply Hc in Ht. exfalso. exact (H tag Hin Ht).
      * split; [intros _|reflexivity]. right. split; [discriminate|].
        intros tag Hin Ht. apply Hc in Ht.
        assert (existsb (fun tag => contains (t :: ts) (TagName tag)) scenarioTags = true)
          by (apply existsb_exists; eauto).
        congruence.
Qed.

End Invocation.

(** ** Resolution errors: [runStep] and the suite *)

Module Unresolved.
Import floats reflect rt regexp msgs gobdd.

Section Facts.
Context {E : Engine} {F : Floats}.





End Facts.

Import Fixtures.



End Unresolved.

(** ** Outline expansion: [getOutlineStep] *)

Module Outline.
Import floats reflect rt regexp msgs gobdd Fixtures.

Lemma collect_Ok {A B} (l : list A) (g : A -> Res (list B)) (h : A -> list B) :
  (forall a, In a l -> g a = Ok (h a)) -> collect l g = Ok (flat_map h l).
Proof.
  induction l as [|a l IH]; intros H; [reflexivity|].
  cbn [collect flat_map]. rewrite (H a (or_introl eq_refl)), IH; [reflexivity|].
  intros b Hb. apply H. now right.
Qed.

Lemma map_nth_seq {A B} (g : A -> B) (d : A) (l : list A) :
  map (fun i => g (nth i l d)) (seq 0 (length l)) = map g l.
Proof.
  induction l as [|a l IH]; [reflexivity|].
  cbn [length seq map nth]. f_equal.
  rewrite <- seq_shift, map_map. exact IH.
Qed.

Lemma flat_map_singleton {A B} (g : A -> B) (l : list A) :
  flat_map (fun a => [g a]) l = map g l.
Proof. induction l as [|a l IH]; [reflexivity|]. cbn. now rewrite IH. Qed.

(** What the three loops at the end of [getOutlineStep] pick: for every
    table in turn, for every row index [ci] of that table counted from
    zero, the entry [ci] of every list of [stepsList]. The lists hold the
    steps of all the tables one after the other, so for each table after
    the first these are again the steps of the first rows. *)
Lemma pickSteps_restarts_at_row_zero
      (d : Step) (stepsList : list (list Step)) (examples : list Examples) :
  (forall l example, In l stepsList -> In example examples ->
                     length (TableBody example) <= length l) ->
  pickSteps stepsList (length stepsList) examples
  = Ok (flat_map (fun example =>
                    flat_map (fun ci => map (fun l => nth ci l d) stepsList)
                             (seq 0 (length (TableBody example))))
                 examples).
Proof.
  intros Hlen. unfold pickSteps.
  apply collect_Ok. intros example Hex.
  apply collect_Ok. intros ci Hci. apply in_seq in Hci.
  rewrite <- (map_nth_seq (fun l => nth ci l d) [] stepsList).
  rewrite <- flat_map_singleton.
  apply collect_Ok. intros si Hsi. apply in_seq in Hsi.
  unfold index2.
  destruct (nth_error stepsList si) as [l|] eqn:Hl.
  - rewrite (nth_error_nth _ _ [] Hl).
    assert (Hin : In l stepsList) by (eapply nth_error_In; eauto).
    specialize (Hlen l example Hin Hex).
    destruct (nth_error l ci) as [st|] eqn:Hst.
    + rewrite (nth_error_nth _ _ d Hst). reflexivity.
    + apply nth_error_None in Hst. lia.
  - apply nth_error_None in Hl. lia.
Qed.

(** C4, on the code. With one example table the expansion is row-major:
    two steps and two rows give the two steps for row 1, then the two
    steps for row 2, and each row's pattern is registered with the
    fragment chosen by the cell ("3" gives the digit fragment, "2.5" the
    signed-float fragment, "abc" the capture-all fragment). With two
    tables of one row each, "1" and "2", the expansion of one step has two
    steps as well, but both carry the text of row "1": the rows of the
    second table are read from index zero of the step list, which holds
    the first table's steps. *)
Theorem getOutlineStep_repeats_first_table :
  (forall (d : Step) (stepsList : list (list Step)) (examples : list Examples),
      (forall l example, In l stepsList -> In example examples ->
                         length (TableBody example) <= length l) ->
      pickSteps stepsList (length stepsList) examples
      = Ok (flat_map (fun example =>
                        flat_map (fun ci => map (fun l => nth ci l d) stepsList)
                                 (seq 0 (length (TableBody example))))
                     examples))
  /\ map getRegexpForVar ["3"; "2.5"; "abc"]
     = ["(\d+)"; "([+-]?([0-9]*[.])?[0-9]+)"; "(.*)"]
  /\ stepFromExample "I eat <count> apples" (row ["3"]) ["<count>"]
     = Ok ("I eat 3 apples", "I eat (\d+) apples")
  /\ fst (getOutlineStep eatingAndLeft oneTable applesEnv)
     = Ok [given' "I eat 1 apples"; given' "I have 4 apples left";
           given' "I eat 2 apples"; given' "I have 3 apples left"]
  /\ fst (getOutlineStep eating twoTables applesEnv)
     = Ok [given' "I eat 1 apples"; given' "I eat 1 apples"]
  /\ fst (getOutlineStep eating twoTables applesEnv)
     <> Ok [given' "I eat 1 apples"; given' "I eat 2 apples"].
Proof.
  split; [exact pickSteps_restarts_at_row_zero|].
  repeat split; by_evaluation.
Qed.

Section SingleTable.
Context {E : Engine} {F : Floats}.

Lemma bind_Ok {S A B} (c : M S A) (k : A -> M S B) (s s' : S) (b : B) :
  rt.bind c k s = (Ok b, s') ->
  exists a s1, c s = (Ok a, s1) /\ k a s1 = (Ok b, s').
Proof.
  unfold rt.bind. destruct (c s) as [[a|v] s1]; [eauto|discriminate].
Qed.

Lemma stepFromRow_Ok (src : Step) (header row : TableRow)
      (e e' : Env) (o : option Step) :
  stepFromRow src (placeholdersOf header) row e = (Ok o, e') ->
  match o with
  | Some st => concreteStep src header row = Some st
  | None => True
  end.
Proof.
  unfold stepFromRow, concreteStep. intros H.
  apply bind_Ok in H as (p & e1 & Hp & H).
  unfold lift in Hp. inversion Hp as [[Hr He]]. rewrite Hr.
  destruct p as [stepText expr0].
  apply bind_Ok in H as (s0 & e2 & _ & H).
  destruct (findStepDef (steps s0) stepText) as [def [err|]].
  - inversion H. exact I.
  - apply bind_Ok in H as (u & e3 & _ & H). inversion H. reflexivity.
Qed.

Lemma stepsFromRows_Ok (src : Step) (header : TableRow) (rows : list TableRow) :
  forall (e e' : Env) (l : list Step),
    stepsFromRows src (placeholdersOf header) rows e = (Ok l, e') ->
    length l <= length rows
    /\ (length l = length rows ->
        map Some l = map (concreteStep src header) rows).
Proof.
  induction rows as [|row rows IH]; intros e e' l H.
  - inversion H. split; [reflexivity|reflexivity].
  - cbn [stepsFromRows] in H.
    apply bind_Ok in H as (o & e1 & Ho & H).
    apply bind_Ok in H as (rest & e2 & Hrest & H).
    inversion H; subst. clear H.
    apply stepFromRow_Ok in Ho. apply IH in Hrest as [Hle Heq].
    destruct o as [st|]; cbn [length map].
    + split; [lia|]. intros Hlen. rewrite Ho, Heq by lia. reflexivity.
    + split; [lia|]. intros Hlen. lia.
Qed.

Lemma stepsOfOutlineStep_Ok (src : Step) (example : Examples)
      (e e' : Env) (l : list Step) :
  stepsOfOutlineStep src [example] e = (Ok l, e') ->
  exists header,
    TableHeader example = Some header
    /\ length l <= length (TableBody example)
    /\ (length l = length (TableBody example) ->
        map Some l = map (concreteStep src header) (TableBody example)).
Proof.
  cbn [stepsOfOutlineStep]. intros H.
  apply bind_Ok in H as (l0 & e1 & Hl0 & H).
  apply bind_Ok in H as (rest & e2 & Hrest & H).
  inversion Hrest; subst. inversion H; subst. rewrite app_nil_r.
  unfold stepsFromExamples in Hl0.
  destruct (TableHeader example) as [header|]; [|discriminate].
  exists header. split; [reflexivity|].
  eapply stepsFromRows_Ok; eauto.
Qed.

Lemma buildStepsList_Ok (example : Examples) (outline : list Step) :
  forall (e e' : Env) (stepsList : list (list Step)),
    buildStepsList outline [example] e = (Ok stepsList, e') ->
    Forall2 (fun src l =>
               exists header,
                 TableHeader example = Some header
                 /\ length l <= length (TableBody example)
                 /\ (length l = length (TableBody example) ->
                     map Some l = map (concreteStep src header) (TableBody example)))
            outline stepsList.
Proof.
  induction outline as [|src outline IH]; intros e e' stepsList H.
  - inversion H. constructor.
  - cbn [buildStepsList] in H.
    apply bind_Ok in H as (l & e1 & Hl & H).
    apply bind_Ok in H as (rest & e2 & Hrest & H).
    inversion H; subst. constructor.
    + eapply stepsOfOutlineStep_Ok; eauto.
    + eapply IH; eauto.
Qed.

Lemma collect_Ok_inv {A B} (l : list A) (g : A -> Res (list B)) (r : list B) :
  collect l g = Ok r -> forall a, In a l -> exists x, g a = Ok x.
Proof.
  revert r. induction l as [|a0 l IH]; intros r H a Hin; [destruct Hin|].
  cbn [collect] in H.
  destruct (g a0) as [x|v] eqn:Hg; [|discriminate].
  destruct (collect l g) as [rest|v] eqn:Hc; [|discriminate].
  destruct Hin as [<-|Hin]; [eauto|]. eapply IH; eauto.
Qed.

(** The loops index every list of [stepsList] up to the last row of the
    table: they end without a panic only if no row was skipped. *)
Lemma pickSteps_Ok_lengths (stepsList : list (list Step)) (n : nat)
      (example : Examples) (sts : list Step) :
  pickSteps stepsList n [example] = Ok sts ->
  forall si l, si < n -> nth_error stepsList si = Some l ->
               length (TableBody example) <= length l.
Proof.
  intros H si l Hsi Hl. unfold pickSteps in H.
  destruct (length (TableBody example)) as [|r] eqn:Hr; [lia|].
  destruct (collect_Ok_inv _ _ H example (or_introl eq_refl)) as (x1 & H1).
  rewrite Hr in H1.
  assert (Hci : In r (seq 0 (S r))) by (apply in_seq; lia).
  destruct (collect_Ok_inv _ _ H1 r Hci) as (x2 & H2).
  assert (Hin : In si (seq 0 n)) by (apply in_seq; lia).
  destruct (collect_Ok_inv _ _ H2 si Hin) as (x3 & H3).
  unfold index2 in H3. rewrite Hl in H3.
  destruct (nth_error l r) as [st|] eqn:Hst; [|discriminate].
  assert (r < length l) by (apply nth_error_Some; congruence). lia.
Qed.

Lemma map_flat_map {A B C} (g : B -> C) (h : A -> list B) (l : list A) :
  map g (flat_map h l) = flat_map (fun a => map g (h a)) l.
Proof.
  induction l as [|a l IH]; [reflexivity|].
  cbn [flat_map]. now rewrite map_app, IH.
Qed.

Lemma flat_map_nth_seq {A B} (h : A -> list B) (d : A) (l : list A) :
  flat_map (fun i => h (nth i l d)) (seq 0 (length l)) = flat_map h l.
Proof.
  rewrite !flat_map_concat_map. f_equal. apply map_nth_seq.
Qed.

(** Reading the step lists row by row gives, for every row in turn, the
    concrete steps of the outline for that row. *)
Lemma rows_then_steps (header : TableRow) (d : Step) (outline : list Step)
      (stepsList : list (list Step)) (rows : list TableRow) :
  Forall2 (fun src l => map Some l = map (concreteStep src header) rows)
          outline stepsList ->
  map Some (flat_map (fun ci => map (fun l => nth ci l d) stepsList)
                     (seq 0 (length rows)))
  = flat_map (fun row => map (fun src => concreteStep src header row) outline) rows.
Proof.
  intros Hall.
  rewrite <- (flat_map_nth_seq
                (fun row => map (fun src => concreteStep src header row) outline)
                {| Cells := [] |} rows).
  rewrite map_flat_map, !flat_map_concat_map. f_equal.
  apply map_ext_in. intros ci Hci.
  apply in_seq in Hci. rewrite map_map.
  induction Hall as [|src l outline' stepsList' Hl Hall IH]; [reflexivity|].
  cbn [map]. f_equal; [|exact IH].
  assert (Hlen : length l = length rows).
  { apply (f_equal (@length _)) in Hl. now rewrite !length_map in Hl. }
  rewrite <- (map_nth Some l d ci), Hl.
  rewrite (nth_indep _ (Some d) (concreteStep src header {| Cells := [] |}))
    by (rewrite length_map; lia).
  apply map_nth.
Qed.

(** For an outline with a single example table, whenever the expansion
    returns, it returns one concrete step per row and outline step, in
    row-major order: the steps of the outline with the values of row 1,
    then those with the values of row 2, and so on. *)
Theorem single_table_expansion_is_row_major
        (outline : list Step) (example : Examples) (e e' : Env) (sts : list Step) :
  getOutlineStep outline [example] e = (Ok sts, e') ->
  length sts = length (TableBody example) * length outline
  /\ (outline <> [] ->
      exists header,
        TableHeader example = Some header
        /\ map Some sts
           = flat_map (fun row => map (fun src => concreteStep src header row) outline)
                      (TableBody example)).
Proof.
  unfold getOutlineStep. intros H.
  apply bind_Ok in H as (stepsList & e1 & Hbuild & H).
  apply buildStepsList_Ok in Hbuild.
  pose proof (Forall2_length Hbuild) as Hlen.
  destruct (Nat.eqb_spec (length stepsList) 0) as [Hz|Hnz].
  - inversion H; subst. destruct outline; [|cbn in Hlen; lia].
    split; [cbn; lia|]. intros Hne. congruence.
  - unfold lift in H. inversion H as [[Hpick He]]. clear H.
    destruct outline as [|src0 outline0] eqn:Hout; [cbn in Hlen; lia|].
    rewrite <- Hout in *.
    assert (Hheader : exists header, TableHeader example = Some header).
    { rewrite Hout in Hbuild. inversion Hbuild as [|? ? ? ? (header & Hh & _) _]; eauto. }
    destruct Hheader as (header & Hh).
    assert (Hfull : Forall2 (fun src l =>
                               map Some l
                               = map (concreteStep src header) (TableBody example))
                            outline stepsList).
    { assert (Hge : forall l, In l stepsList ->
                              length (TableBody example) <= length l).
      { intros l Hin. apply In_nth_error in Hin as (si & Hsi).
        eapply pickSteps_Ok_lengths; eauto.
        rewrite Hlen. apply nth_error_Some. congruence. }
      clear -Hbuild Hh Hge.
      induction Hbuild as [|src l o sl (header' & Hh' & Hle & Heq) Hrest IH];
        constructor.
      - rewrite Hh in Hh'. inversion Hh'; subst header'.
        apply Heq. specialize (Hge l (or_introl eq_refl)). lia.
      - apply IH. intros l0 Hl0. apply Hge. now right. }
    assert (Hsts : map Some sts
                   = flat_map (fun row => map (fun src => concreteStep src header row)
                                              outline)
                              (TableBody example)).
    { rewrite Hlen in Hpick.
      rewrite (pickSteps_restarts_at_row_zero (cloneStep src0 EmptyString)
                 stepsList [example]) in Hpick.
      - inversion Hpick as [Hs]. cbn [flat_map]. rewrite app_nil_r.
        apply rows_then_steps. exact Hfull.
      - intros l ex Hl [<-|[]].
        apply In_nth_error in Hl as (si & Hsi).
        eapply pickSteps_Ok_lengths; eauto.
        apply nth_error_Some. congruence. }
    split.
    + apply (f_equal (@length _)) in Hsts. rewrite length_map in Hsts.
      rewrite Hsts. clear.
      induction (TableBody example) as [|row rows IH]; [reflexivity|].
      cbn [flat_map length]. rewrite length_app, length_map, IH. lia.
    + intros _. exists header. split; [exact Hh|exact Hsts].
Qed.

End SingleTable.

(** An instance: two outline steps and a table of two rows expand to four
    steps. *)
Lemma two_steps_two_rows_expand_to_four :
  exists sts,
    fst (getOutlineStep eatingAndLeft [applesTable] applesEnv) = Ok sts
    /\ length sts = length (TableBody applesTable) * length eatingAndLeft.
Proof.
  pose (r := getOutlineStep eatingAndLeft [applesTable] applesEnv).
  assert (Hfst : fst r
                 = Ok [given' "I eat 1 apples"; given' "I have 4 apples left";
                       given' "I eat 2 apples"; given' "I have 3 apples left"])
    by by_evaluation.
  eexists. split; [exact Hfst|].
  apply (@single_table_expansion_is_row_major
           re2.engine ieee.IEEE eatingAndLeft applesTable applesEnv (snd r)).
  rewrite <- Hfst. subst r. apply surjective_pairing.
Defined.

End Outline.

(** ** What a run leaves alone *)

Module Invariants.
Import floats reflect rt regexp msgs gobdd Vocabulary.

Section Generic.
Context {S : Type} (R : S -> S -> Prop).
Hypothesis Rrefl : forall s, R s s.
Hypothesis Rtrans : forall a b c, R a b -> R b c -> R a c.

Lemma keeps_ret {A} (a : A) : keeps R (ret a).
Proof. intros s. apply Rrefl. Qed.

Lemma keeps_panic {A} (v : PanicValue) : keeps R (@panic S A v).
Proof. intros s. apply Rrefl. Qed.

Lemma keeps_lift {A} (r : Res A) : keeps R (lift r).
Proof. intros s. apply Rrefl. Qed.

Lemma keeps_bind {A B} (c : M S A) (k : A -> M S B) :
  keeps R c -> (forall a, keeps R (k a)) -> keeps R (bind c k).
Proof.
  intros Hc Hk s. unfold bind. specialize (Hc s).
  destruct (c s) as [[a|v] s']; cbn [snd] in *.
  - eapply Rtrans; [exact Hc|apply Hk].
  - exact Hc.
Qed.

Lemma keeps_forEach {A} (l : list A) (g : A -> M S unit) :
  (forall a, keeps R (g a)) -> keeps R (forEach l g).
Proof.
  intros Hg. induction l as [|a l IH]; cbn [forEach].
  - apply keeps_ret.
  - apply keeps_bind; [apply Hg|intros _; exact IH].
Qed.

Lemma keeps_defer {A} (d : M S unit) (body : M S A) :
  keeps R d -> keeps R body -> keeps R (defer d body).
Proof.
  intros Hd Hb s. unfold defer. specialize (Hb s).
  destruct (body s) as [r s']. specialize (Hd s').
  destruct (d s') as [[u|v] s'']; cbn [snd] in *; eapply Rtrans; eauto.
Qed.

Lemma keeps_recovering (h : PanicValue -> M S unit) (body : M S unit) :
  (forall v, keeps R (h v)) -> keeps R body -> keeps R (recovering h body).
Proof.
  intros Hh Hb s. unfold recovering. specialize (Hb s).
  destruct (body s) as [[u|[|msg]] s']; cbn [snd] in *; try exact Hb.
  eapply Rtrans; [exact Hb|apply Hh].
Qed.

End Generic.

Arguments keeps_ret {S R} Rrefl {A} a.
Arguments keeps_panic {S R} Rrefl {A} v.
Arguments keeps_lift {S R} Rrefl {A} r.
Arguments keeps_bind {S R} Rtrans {A B} c k.
Arguments keeps_forEach {S R} Rrefl Rtrans {A} l g.
Arguments keeps_defer {S R} Rtrans {A} d body.
Arguments keeps_recovering {S R} Rtrans h body.

Section Facts.
Context {E : Engine} {F : Floats}.

Lemma movedOn_refl (w : World) : movedOn w w.
Proof. split; [lia|]. exists []. now rewrite app_nil_r. Qed.

Lemma movedOn_trans (a b c : World) : movedOn a b -> movedOn b c -> movedOn a c.
Proof.
  intros [Hn1 [m1 Ht1]] [Hn2 [m2 Ht2]]. split; [lia|].
  exists (m1 ++ m2). rewrite Ht2, Ht1, app_assoc. reflexivity.
Qed.

Lemma onlyRegistered_refl (s : Suite) : onlyRegistered s s.
Proof. repeat split. exists []. now rewrite app_nil_r. Qed.

Lemma onlyRegistered_trans (a b c : Suite) :
  onlyRegistered a b -> onlyRegistered b c -> onlyRegistered a c.
Proof.
  intros (Ho1 & Hp1 & l1 & Hs1) (Ho2 & Hp2 & l2 & Hs2).
  split; [congruence|]. split; [congruence|].
  exists (l1 ++ l2). rewrite Hs2, Hs1, app_assoc. reflexivity.
Qed.

Lemma carriedOn_refl (e : Env) : carriedOn e e.
Proof. split; [apply onlyRegistered_refl|apply movedOn_refl]. Qed.

Lemma carriedOn_trans (a b c : Env) : carriedOn a b -> carriedOn b c -> carriedOn a c.
Proof.
  intros [Hs1 Hw1] [Hs2 Hw2].
  split; [eapply onlyRegistered_trans|eapply movedOn_trans]; eauto.
Qed.

Lemma keeps_record (ev : Event) (elapsed : nat) : keeps movedOn (record ev elapsed).
Proof.
  intros w. unfold record, movedOn. cbn [snd now trace].
  split; [lia|]. exists [ev]. reflexivity.
Qed.

Lemma keeps_callHook (ctx : context.Context) (h : Hook) :
  keeps movedOn (callHook ctx h).
Proof.
  intros w. unfold callHook.
  destruct (hookBody h ctx (trace w)).
  - apply (keeps_bind movedOn_trans); [apply keeps_record|].
    intros _. apply (keeps_panic movedOn_refl).
  - apply keeps_record.
Qed.

Lemma keeps_Call (d : FuncValue) (args : list reflect.Value) :
  keeps movedOn (Call d args).
Proof.
  intros w. unfold Call.
  destruct (body d args (trace w)).
  - apply (keeps_bind movedOn_trans); [apply keeps_record|].
    intros _. apply (keeps_ret movedOn_refl).
  - apply (keeps_bind movedOn_trans); [apply keeps_record|].
    intros _. apply (keeps_panic movedOn_refl).
Qed.

Lemma keeps_rangeMap {A} (m : list A) : keeps movedOn (rangeMap m).
Proof.
  intros w. unfold rangeMap, movedOn. cbn [snd now trace].
  split; [lia|]. exists []. now rewrite app_nil_r.
Qed.

Lemma keeps_inWorld {A} (c : M World A) :
  keeps movedOn c -> keeps carriedOn (inWorld c).
Proof.
  intros Hc e. unfold inWorld, zoom. specialize (Hc (world e)).
  destruct (c (world e)) as [r w']. cbn [snd] in *.
  split; [apply onlyRegistered_refl|exact Hc].
Qed.

Lemma keeps_getSuite : keeps carriedOn getSuite.
Proof. intros e. apply carriedOn_refl. Qed.

Lemma keeps_appendStep (d : stepDef) : keeps carriedOn (appendStep d).
Proof.
  intros e. cbn. split; [|apply movedOn_refl].
  repeat split. exists [d]. reflexivity.
Qed.

Ltac keeping :=
  repeat first
    [ assumption
    | match goal with H : _ |- _ => solve [apply H] end
    | apply (keeps_ret carriedOn_refl)
    | apply (keeps_panic carriedOn_refl)
    | apply (keeps_lift carriedOn_refl)
    | apply keeps_getSuite
    | apply keeps_appendStep
    | apply keeps_inWorld
    | apply keeps_rangeMap
    | apply keeps_callHook
    | apply keeps_Call
    | apply (keeps_bind carriedOn_trans); [|intros ?]
    | apply (keeps_forEach carriedOn_refl carriedOn_trans); intros ?
    | apply (keeps_defer carriedOn_trans)
    | apply (keeps_recovering carriedOn_trans); [intros ?|]
    | match goal with
      | |- keeps _ (match ?x with _ => _ end) => destruct x
      | |- keeps _ (if ?x then _ else _) => destruct x
      | |- keeps _ (let '(_, _) := ?x in _) => destruct x
      end ].

Lemma keeps_MustCompile (str : string) : keeps carriedOn (MustCompile str).
Proof. unfold MustCompile. keeping. Qed.

Lemma keeps_applyParameterTypes (expr0 : string) :
  keeps carriedOn (applyParameterTypes expr0).
Proof. unfold applyParameterTypes. keeping. Qed.

Lemma keeps_AddStep (expr0 : string) (step : Iface) :
  keeps carriedOn (AddStep expr0 step).
Proof.
  unfold AddStep. pose proof keeps_applyParameterTypes.
  pose proof keeps_MustCompile. keeping.
Qed.

Lemma keeps_AddRegexStep (re : Regexp) (step : Iface) :
  keeps carriedOn (AddRegexStep re step).
Proof. unfold AddRegexStep. keeping. Qed.

Lemma keeps_stepFromRow (src : Step) (phs : list string) (row : TableRow) :
  keeps carriedOn (stepFromRow src phs row).
Proof. unfold stepFromRow. pose proof keeps_AddStep. keeping. Qed.

Lemma keeps_stepsFromRows (src : Step) (phs : list string) (rows : list TableRow) :
  keeps carriedOn (stepsFromRows src phs rows).
Proof.
  pose proof keeps_stepFromRow.
  induction rows as [|row rows IH]; cbn [stepsFromRows]; keeping.
Qed.

Lemma keeps_stepsFromExamples (src : Step) (example : Examples) :
  keeps carriedOn (stepsFromExamples src example).
Proof. unfold stepsFromExamples. pose proof keeps_stepsFromRows. keeping. Qed.

Lemma keeps_stepsOfOutlineStep (src : Step) (examples : list Examples) :
  keeps carriedOn (stepsOfOutlineStep src examples).
Proof.
  pose proof keeps_stepsFromExamples.
  induction examples as [|x xs IH]; cbn [stepsOfOutlineStep]; keeping.
Qed.

Lemma keeps_buildStepsList (outline : list Step) (examples : list Examples) :
  keeps carriedOn (buildStepsList outline examples).
Proof.
  pose proof keeps_stepsOfOutlineStep.
  induction outline as [|x xs IH]; cbn [buildStepsList]; keeping.
Qed.

Lemma keeps_getOutlineStep (outline : list Step) (examples : list Examples) :
  keeps carriedOn (getOutlineStep outline examples).
Proof. unfold getOutlineStep. pose proof keeps_buildStepsList. keeping. Qed.

Lemma keeps_hooks (ctx : context.Context) (hooks : list Hook) :
  keeps carriedOn (forEach hooks (fun h => inWorld (callHook ctx h))).
Proof. keeping. Qed.

Lemma keeps_run (def : option stepDef) (ctx : context.Context)
      (params : list (option string)) :
  keeps carriedOn (run def ctx params).
Proof. unfold run, runBody. keeping. Qed.

Lemma keeps_runStep (ctx : context.Context) (step : Step) :
  keeps carriedOn (runStep ctx step).
Proof.
  unfold runStep, callBeforeSteps, callAfterSteps.
  pose proof keeps_run. pose proof keeps_hooks. keeping.
Qed.

(** The steps of a scenario, between its hooks. *)
Lemma keeps_scenario_steps (sc : Scenario) (bkg : option Background) :
  keeps carriedOn
        ((match bkg with
          | Some b => forEach (BackgroundSteps b) (runStep context.Background)
          | None => ret tt
          end) ;;
         if 0 <? length (ScenarioExamples sc) then
           sts <- getOutlineStep (ScenarioSteps sc) (ScenarioExamples sc) ;;
           forEach sts (runStep context.Background)
         else forEach (ScenarioSteps sc) (runStep context.Background))%go.
Proof.
  pose proof keeps_runStep. pose proof keeps_getOutlineStep. keeping.
Qed.

Lemma keeps_runScenario (sc : Scenario) (bkg : option Background) :
  keeps carriedOn (runScenario sc bkg).
Proof.
  unfold runScenario, callBeforeScenarios, callAfterScenarios.
  pose proof keeps_runStep. pose proof keeps_hooks.
  pose proof keeps_getOutlineStep. keeping.
Qed.

Lemma keeps_runFeature (feature : Feature) : keeps carriedOn (runFeature feature).
Proof. unfold runFeature. pose proof keeps_runScenario. keeping. Qed.

Lemma keeps_Run (load : string -> Parsed) : keeps carriedOn (Run load).
Proof. unfold Run. pose proof keeps_runFeature. keeping. Qed.

End Facts.

(** The suite's own code never reconfigures it. From [Suite.Run] down
    to [runStep], and in the registration methods [AddStep] and
    [AddRegexStep], whatever the features are, whatever the step
    functions and the hooks return or panic with (they act on the world,
    not on the suite), and whether the call returns or panics: the
    options and the parameter types are left as they were, the list of
    step definitions is only appended to (the expansion of an outline
    registers definitions), the trace is only extended and the clock
    does not go back. *)
Theorem running_only_registers_and_moves_on :
  forall (E : Engine) (F : Floats) (e : Env),
    (forall load, carriedOn e (snd (Run load e)))
    /\ (forall feature, carriedOn e (snd (runFeature feature e)))
    /\ (forall sc bkg, carriedOn e (snd (runScenario sc bkg e)))
    /\ (forall ctx step, carriedOn e (snd (runStep ctx step e)))
    /\ (forall outline examples,
           carriedOn e (snd (getOutlineStep outline examples e)))
    /\ (forall expr0 step, carriedOn e (snd (AddStep expr0 step e)))
    /\ (forall re step, carriedOn e (snd (AddRegexStep re step e))).
Proof.
  intros E F e.
  split; [intros load; apply keeps_Run|].
  split; [intros feature; apply keeps_runFeature|].
  split; [intros sc bkg; apply keeps_runScenario|].
  split; [intros ctx step; apply keeps_runStep|].
  split; [intros outline examples; apply keeps_getOutlineStep|].
  split; [intros expr0 step; apply keeps_AddStep|].
  intros re step. apply keeps_AddRegexStep.
Qed.

End Invariants.

(** ** Registration: step functions, definitions, parameter types *)

Module Registration.
Import floats reflect rt regexp msgs gobdd Vocabulary.

Section Facts.
Context {E : Engine} {F : Floats}.

(** What the loop of [findStepDef] has in its variables after a list in
    which some definition matches. *)
Lemma findStepDef_resolved (l : list stepDef) (text : string) :
  snd (findStepDef l text) = None ->
  exists d,
    findStepDef l text = (Some d, None)
    /\ fold_left (findStepDefStep text) l (None, 0, false)
       = (Some d, matchCount text d, true).
Proof.
  unfold findStepDef. intros Hres.
  pose proof (Resolve.findStepDef_loop text l None 0 false) as H.
  destruct (fold_left _ l _) as [[sd1 f1] m1].
  destruct H as [Hm H]. destruct m1; cbn in Hres; [|discriminate].
  destruct H as [(-> & -> & Hle)|(before & d & after & Hl & -> & -> & Hd & _)].
  - exfalso. cbn in Hm. symmetry in Hm.
    apply existsb_exists in Hm as (d & Hin & Hd).
    pose proof (Resolve.matchCount_pos _ _ Hd). specialize (Hle d Hin Hd). lia.
  - exists d. split; reflexivity.
Qed.

Lemma findStepDef_app (l l' : list stepDef) (text : string) (d : stepDef) :
  fold_left (findStepDefStep text) l (None, 0, false)
  = (Some d, matchCount text d, true) ->
  findStepDef (l ++ l') text = (Some d, None)
  \/ exists d', In d' l' /\ matchCount text d < matchCount text d'
                /\ findStepDef (l ++ l') text = (Some d', None).
Proof.
  intros Hfold. unfold findStepDef. rewrite fold_left_app, Hfold.
  pose proof (Resolve.findStepDef_loop text l' (Some d) (matchCount text d) true) as H.
  destruct (fold_left _ l' _) as [[sd2 f2] m2]. destruct H as [Hm H].
  cbn in Hm. subst m2. cbn [negb].
  destruct H as [(-> & -> & _)|(before & d' & after & Hl & -> & -> & Hd' & Hlt & _)].
  - left. reflexivity.
  - right. exists d'. split; [rewrite Hl; apply in_elt|].
    split; [exact Hlt|reflexivity].
Qed.

Lemma mapLookup_mapAppend_same (m : list (string * list string)) (k v : string) :
  mapLookup (mapAppend m k v) k = mapLookup m k ++ [v].
Proof.
  induction m as [|[k' vs] m IH]; cbn.
  - now rewrite String.eqb_refl.
  - destruct (String.eqb_spec k' k) as [->|Hne]; cbn.
    + now rewrite String.eqb_refl.
    + destruct (String.eqb_spec k' k); [contradiction|exact IH].
Qed.

Lemma mapLookup_mapAppend_other (m : list (string * list string)) (k v k0 : string) :
  k0 <> k -> mapLookup (mapAppend m k v) k0 = mapLookup m k0.
Proof.
  intros Hne. induction m as [|[k' vs] m IH]; cbn.
  - destruct (String.eqb_spec k k0); [congruence|reflexivity].
  - destruct (String.eqb_spec k' k) as [->|Hk]; cbn.
    + destruct (String.eqb_spec k k0); [congruence|reflexivity].
    + destruct (String.eqb_spec k' k0); [reflexivity|exact IH].
Qed.

Lemma keys_mapAppend (m : list (string * list string)) (k v : string) :
  (In k (map fst m) /\ map fst (mapAppend m k v) = map fst m)
  \/ (~ In k (map fst m) /\ map fst (mapAppend m k v) = map fst m ++ [k]).
Proof.
  induction m as [|[k' vs] m IH]; cbn.
  - right. split; [tauto|reflexivity].
  - destruct (String.eqb_spec k' k) as [->|Hk]; cbn.
    + left. split; [now left|reflexivity].
    + destruct IH as [[Hin Heq]|[Hnin Heq]]; rewrite Heq.
      * left. split; [now right|reflexivity].
      * right. split; [intros [H|H]; [congruence|contradiction]|reflexivity].
Qed.

Lemma NoDup_keys_mapAppend (m : list (string * list string)) (k v : string) :
  NoDup (map fst m) -> NoDup (map fst (mapAppend m k v)).
Proof.
  intros Hnd. destruct (keys_mapAppend m k v) as [[_ ->]|[Hnin ->]]; [exact Hnd|].
  apply NoDup_app; [exact Hnd|constructor; [intros []|constructor]|].
  intros x Hx [<-|[]]. contradiction.
Qed.

(** The map after the fragments [to] were appended under [from]. *)
Lemma appended_lookups (from : string) (to : list string) :
  forall m : list (string * list string),
    let m' := fold_left (fun m t => mapAppend m from t) to m in
    mapLookup m' from = mapLookup m from ++ to
    /\ (forall k, k <> from -> mapLookup m' k = mapLookup m k)
    /\ (NoDup (map fst m) -> NoDup (map fst m'))
    /\ (to = [] -> m' = m).
Proof.
  induction to as [|t to IH]; intros m; cbn [fold_left].
  - rewrite app_nil_r. repeat split; auto.
  - destruct (IH (mapAppend m from t)) as (Hsame & Hother & Hnd & _).
    cbv zeta. split; [|split; [|split]].
    + rewrite Hsame, mapLookup_mapAppend_same, <- app_assoc. reflexivity.
    + intros k Hk. rewrite Hother by exact Hk.
      apply mapLookup_mapAppend_other. exact Hk.
    + intros H. apply Hnd, NoDup_keys_mapAppend, H.
    + discriminate.
Qed.

Lemma AddParameterTypes_all (from : string) (to : list string) :
  forall (st : list stepDef) (op : SuiteOptions) (pt : list (string * list string))
         (w : World),
    (forall t, In t to -> Compile t <> None) ->
    AddParameterTypes from to
      {| suite := {| steps := st; options := op; parameterTypes := pt |};
         world := w |}
    = (Ok tt,
       {| suite := {| steps := st; options := op;
                      parameterTypes :=
                        fold_left (fun m t => mapAppend m from t) to pt |};
          world := w |}).
Proof.
  unfold AddParameterTypes.
  induction to as [|t to IH]; intros st op pt w Hok; [reflexivity|].
  rewrite Templates.forEach_cons.
  destruct (Compile t) eqn:Ht; [|exfalso; apply (Hok t); [now left|exact Ht]].
  cbn. apply IH. intros t' Hin. apply Hok. now right.
Qed.

Lemma AddParameterTypes_stops (from bad : string) (rest : list string) :
  forall (to : list string) (st : list stepDef) (op : SuiteOptions)
         (pt : list (string * list string)) (w : World),
    (forall t, In t to -> Compile t <> None) ->
    Compile bad = None ->
    AddParameterTypes from (to ++ bad :: rest)
      {| suite := {| steps := st; options := op; parameterTypes := pt |};
         world := w |}
    = (Panic (PVal ("the regular expresion for key " ++ from
                    ++ " doesn't compile: " ++ bad)%string),
       {| suite := {| steps := st; options := op;
                      parameterTypes :=
                        fold_left (fun m t => mapAppend m from t) to pt |};
          world := w |}).
Proof.
  unfold AddParameterTypes.
  induction to as [|t to IH]; intros st op pt w Hok Hbad; cbn [app].
  - rewrite Templates.forEach_cons, Hbad. reflexivity.
  - rewrite Templates.forEach_cons.
    destruct (Compile t) eqn:Ht; [|exfalso; apply (Hok t); [now left|exact Ht]].
    cbn. apply IH; [|exact Hbad]. intros t' Hin. apply Hok. now right.
Qed.

End Facts.

Import Fixtures.

(** Registering more definitions never unresolves a step. A text that
    [findStepDef] resolves in a list of definitions is resolved in every
    extension of the list, and to the same definition unless a definition
    added later has strictly more matches in the text. Since the code of
    a run only appends to the definitions, a text that resolves before
    [Suite.Run] resolves after it, however the run ends. *)
Theorem registering_never_unresolves :
  forall (E : Engine) (F : Floats) (l : list stepDef) (text : string),
    snd (findStepDef l text) = None ->
    exists d,
      findStepDef l text = (Some d, None)
      /\ (forall l',
             findStepDef (l ++ l') text = (Some d, None)
             \/ exists d', In d' l'
                           /\ matchCount text d < matchCount text d'
                           /\ findStepDef (l ++ l') text = (Some d', None))
      /\ (forall load e,
             steps (suite e) = l ->
             snd (findStepDef (steps (suite (snd (Run load e)))) text) = None).
Proof.
  intros E F l text Hres.
  destruct (findStepDef_resolved l text Hres) as (d & Hfind & Hfold).
  exists d. split; [exact Hfind|]. split.
  - intros l'. apply findStepDef_app, Hfold.
  - intros load e Hl.
    destruct (Invariants.keeps_Run load e) as [(_ & _ & added & Hsteps) _].
    rewrite Hsteps, Hl.
    destruct (findStepDef_app l added text Hfold) as [->|(d' & _ & _ & ->)];
      reflexivity.
Qed.

(** An instance: "I have 4 cucumbers" resolves in the suite with the
    definitions of "I have {int} cucumbers", and goes on resolving. *)
Lemma four_cucumbers_stay_resolved :
  exists d,
    findStepDef (steps (suite Fixtures.cucumberEnv)) "I have 4 cucumbers"
    = (Some d, None)
    /\ (forall l',
           findStepDef (steps (suite Fixtures.cucumberEnv) ++ l') "I have 4 cucumbers"
           = (Some d, None)
           \/ exists d', In d' l'
                         /\ matchCount "I have 4 cucumbers" d
                            < matchCount "I have 4 cucumbers" d'
                         /\ findStepDef (steps (suite Fixtures.cucumberEnv) ++ l')
                                        "I have 4 cucumbers"
                            = (Some d', None))
    /\ (forall load e,
           steps (suite e) = steps (suite Fixtures.cucumberEnv) ->
           snd (findStepDef (steps (suite (snd (Run load e)))) "I have 4 cucumbers")
           = None).
Proof.
  apply (@registering_never_unresolves re2.engine ieee.IEEE).
  by_evaluation.
Defined.

(** [validateStepFunc] accepts exactly the functions whose first
    parameter implements [context.Context]. With any other value,
    [AddStep] and [AddRegexStep] panic before they touch the suite:
    nothing is registered and the state is as it was. With an accepted
    function, [AddRegexStep] appends exactly one definition, holding the
    given expression and function, whatever the parameter types are. *)
Theorem registration_checks_the_step_function :
  forall (E : Engine) (F : Floats) (fn : Iface),
    (validateStepFunc fn = None
     <-> exists d t rest,
          fn = IFunc d /\ Ins d = t :: rest /\ ImplementsContext t = true)
    /\ (validateStepFunc fn <> None ->
        forall e expr0 re,
          (exists msg, AddStep expr0 fn e = (Panic (PVal msg), e))
          /\ (exists msg, AddRegexStep re fn e = (Panic (PVal msg), e)))
    /\ (validateStepFunc fn = None ->
        forall e re,
          AddRegexStep re fn e
          = (Ok tt,
             {| suite := {| steps := steps (suite e) ++ [{| expr := re; f := fn |}];
                            options := options (suite e);
                            parameterTypes := parameterTypes (suite e) |};
                world := world e |})).
Proof.
  intros E F fn. split; [|split].
  - unfold validateStepFunc. destruct fn as [d|k].
    + unfold NumIn. destruct (Ins d) as [|t rest] eqn:Hins; cbn.
      * split; [discriminate|]. intros (d' & t & rest & Hd & Hi & _).
        inversion Hd; subst. congruence.
      * destruct (ImplementsContext t) eqn:Himp; cbn.
        -- split; [intros _; exists d, t, rest; auto|reflexivity].
        -- split; [discriminate|]. intros (d' & t' & rest' & Hd & Hi & Ht).
           inversion Hd; subst. rewrite Hins in Hi. inversion Hi; subst. congruence.
    + split; [discriminate|]. intros (d & t & rest & Hd & _). discriminate.
  - intros Hbad e expr0 re. unfold AddStep, AddRegexStep.
    destruct (validateStepFunc fn) as [err|]; [|congruence].
    split; eexists; reflexivity.
  - intros Hok e re. unfold AddRegexStep. rewrite Hok. reflexivity.
Qed.

(** [AddParameterTypes], when every fragment compiles: the fragments are
    appended, in order, after those already registered for the token; no
    other token is touched, the keys of the map stay distinct, and
    nothing else of the state changes (with no fragment at all, not even
    the key is created). When a fragment does not compile the method
    panics with a message naming the token and the fragment, and the
    fragments before it stay registered. *)
Theorem AddParameterTypes_appends_in_order :
  forall (E : Engine) (F : Floats) (from : string) (to : list string) (e : Env),
    (forall t, In t to -> Compile t <> None) ->
    exists m',
      let e' := {| suite := {| steps := steps (suite e);
                               options := options (suite e);
                               parameterTypes := m' |};
                   world := world e |} in
      AddParameterTypes from to e = (Ok tt, e')
      /\ mapLookup m' from = mapLookup (parameterTypes (suite e)) from ++ to
      /\ (forall k, k <> from ->
                    mapLookup m' k = mapLookup (parameterTypes (suite e)) k)
      /\ (NoDup (map fst (parameterTypes (suite e))) -> NoDup (map fst m'))
      /\ (to = [] -> m' = parameterTypes (suite e))
      /\ (forall bad rest,
             Compile bad = None ->
             AddParameterTypes from (to ++ bad :: rest) e
             = (Panic (PVal ("the regular expresion for key " ++ from
                             ++ " doesn't compile: " ++ bad)%string), e')).
Proof.
  intros E F from to [[st op pt] w] Hok. cbn [suite world steps options parameterTypes].
  exists (fold_left (fun m t => mapAppend m from t) to pt). cbv zeta.
  destruct (appended_lookups from to pt) as (Hsame & Hother & Hnd & Hnil).
  split; [apply AddParameterTypes_all, Hok|].
  split; [exact Hsame|]. split; [exact Hother|]. split; [exact Hnd|].
  split; [exact Hnil|].
  intros bad rest Hbad. apply AddParameterTypes_stops; assumption.
Qed.

(** An instance: a second fragment for [{int}] in the default suite. *)
Lemma int_gets_a_second_fragment :
  exists m',
    let e' := {| suite := {| steps := steps (suite Fixtures.defaultEnv);
                             options := options (suite Fixtures.defaultEnv);
                             parameterTypes := m' |};
                 world := world Fixtures.defaultEnv |} in
    AddParameterTypes "{int}" ["(\d+)"] Fixtures.defaultEnv = (Ok tt, e')
    /\ mapLookup m' "{int}"
       = mapLookup (parameterTypes (suite Fixtures.defaultEnv)) "{int}" ++ ["(\d+)"]
    /\ (forall k, k <> "{int}" ->
                  mapLookup m' k
                  = mapLookup (parameterTypes (suite Fixtures.defaultEnv)) k)
    /\ (NoDup (map fst (parameterTypes (suite Fixtures.defaultEnv)))
        -> NoDup (map fst m'))
    /\ (["(\d+)"] = [] -> m' = parameterTypes (suite Fixtures.defaultEnv))
    /\ (forall bad rest,
           Compile bad = None ->
           AddParameterTypes "{int}" (["(\d+)"] ++ bad :: rest) Fixtures.defaultEnv
           = (Panic (PVal ("the regular expresion for key " ++ "{int}"
                           ++ " doesn't compile: " ++ bad)%string), e')).
Proof.
  apply (@AddParameterTypes_appends_in_order re2.engine ieee.IEEE).
  intros t [<-|[]]. by_evaluation.
Defined.

(** [NewSuite], with an engine that compiles the five default
    fragments: whatever the option closures, it returns a suite with no
    step definition, whose options are the defaults with the closures
    applied from left to right, and whose parameter types are exactly
    [{int}], [{float}], [{word}] and [{text}], the last with two
    fragments; the world is not touched. *)
Theorem NewSuite_registers_the_four_parameter_types :
  forall (E : Engine) (F : Floats)
         (optionClosures : list (SuiteOptions -> SuiteOptions)) (w : World),
    (forall t, In t ["(\d)"; "([-+]?\d*\.?\d*)"; "([\d\w]+)";
                     chr 34 ++ "([\d\w\-\s]+)" ++ chr 34;
                     "'([\d\w\-\s]+)'"]%string ->
               Compile t <> None) ->
    NewSuite optionClosures w
    = (Ok {| steps := [];
             options := fold_left (fun o c => c o) optionClosures NewSuiteOptions;
             parameterTypes :=
               [("{int}", ["(\d)"]);
                ("{float}", ["([-+]?\d*\.?\d*)"]);
                ("{word}", ["([\d\w]+)"]);
                ("{text}", [chr 34 ++ "([\d\w\-\s]+)" ++ chr 34;
                            "'([\d\w\-\s]+)'"])]%string |},
       w).
Proof.
  intros E F optionClosures w Hok. unfold NewSuite.
  unfold rt.bind.
  rewrite AddParameterTypes_all
    by (intros t [<-|[]]; apply Hok; cbn; tauto).
  rewrite AddParameterTypes_all
    by (intros t [<-|[]]; apply Hok; cbn; tauto).
  rewrite AddParameterTypes_all
    by (intros t [<-|[]]; apply Hok; cbn; tauto).
  rewrite AddParameterTypes_all
    by (intros t [<-|[<-|[]]]; apply Hok; cbn; tauto).
  reflexivity.
Qed.

(** An instance: the engine of the fixtures compiles the five default
    fragments. *)
Lemma the_default_suite_has_four_parameter_types :
  NewSuite [] w0
  = (Ok {| steps := [];
           options := fold_left (fun o c => c o) [] NewSuiteOptions;
           parameterTypes :=
             [("{int}", ["(\d)"]);
              ("{float}", ["([-+]?\d*\.?\d*)"]);
              ("{word}", ["([\d\w]+)"]);
              ("{text}", [chr 34 ++ "([\d\w\-\s]+)" ++ chr 34;
                          "'([\d\w\-\s]+)'"])]%string |},
     w0).
Proof.
  apply (@NewSuite_registers_the_four_parameter_types re2.engine ieee.IEEE [] w0).
  intros t Hin.
  repeat (destruct Hin as [<-|Hin]; [by_evaluation|]). destruct Hin.
Defined.

End Registration.

(** ** Hooks and calls: [def.run], [runStep], [runScenario] *)

Module Lifecycle.
Import floats reflect rt regexp msgs gobdd Vocabulary.

Section Facts.
Context {E : Engine} {F : Floats}.

Lemma after_nil (e : Env) : after e [] 0 = e.
Proof.
  destruct e as [s [n tr sc]]. unfold after. cbn.
  now rewrite Nat.add_0_r, app_nil_r.
Qed.

Lemma after_after (e : Env) (a b : list Event) (n m : nat) :
  after (after e a n) b m = after e (a ++ b) (n + m).
Proof. unfold after. cbn. now rewrite Nat.add_assoc, app_assoc. Qed.

Lemma callHook_returns (ctx : context.Context) (h : Hook) (e : Env) :
  hookBody h ctx (trace (world e)) = None ->
  inWorld (callHook ctx h) e = (Ok tt, after e [Hooked (HookName h) ctx] 0).
Proof. intros H. unfold inWorld, zoom, callHook. rewrite H. reflexivity. Qed.

Lemma callHook_panics (ctx : context.Context) (h : Hook) (e : Env) (v : PanicValue) :
  hookBody h ctx (trace (world e)) = Some v ->
  inWorld (callHook ctx h) e = (Panic v, after e [Hooked (HookName h) ctx] 0).
Proof. intros H. unfold inWorld, zoom, callHook. rewrite H. reflexivity. Qed.

(** Hooks that return are entered one after the other. *)
Lemma hooks_return (ctx : context.Context) (hooks : list Hook) :
  Forall returns hooks ->
  forall e, forEach hooks (fun h => inWorld (callHook ctx h)) e
            = (Ok tt, after e (hooked ctx hooks) 0).
Proof.
  induction 1 as [|h hooks Hh _ IH]; intros e.
  - cbn. now rewrite after_nil.
  - rewrite Templates.forEach_cons, (callHook_returns _ _ _ (Hh _ _)), IH, after_after.
    reflexivity.
Qed.

(** The first hook that panics ends the loop. *)
Lemma hooks_panic (ctx : context.Context) (h : Hook) (rest : list Hook)
      (v : PanicValue) (hs : list Hook) :
  Forall returns hs ->
  forall e,
    hookBody h ctx (trace (world e) ++ hooked ctx hs) = Some v ->
    forEach (hs ++ h :: rest) (fun h => inWorld (callHook ctx h)) e
    = (Panic v, after e (hooked ctx (hs ++ [h])) 0).
Proof.
  induction 1 as [|h0 hs Hh _ IH]; intros e Hv.
  - cbn [app hooked map] in *. rewrite app_nil_r in Hv.
    rewrite Templates.forEach_cons, (callHook_panics _ _ _ Hv). reflexivity.
  - cbn [app]. rewrite Templates.forEach_cons, (callHook_returns _ _ _ (Hh _ _)).
    rewrite IH, after_after; [reflexivity|].
    cbn [after world trace hooked map] in *. rewrite <- app_assoc. exact Hv.
Qed.

Lemma skipn_nth_error {A} (l : list A) :
  forall n t, nth_error l n = Some t -> skipn n l = t :: skipn (S n) l.
Proof.
  induction l as [|a l IH]; intros [|n] t H; cbn in *; try discriminate.
  - inversion H. reflexivity.
  - apply IH. exact H.
Qed.

Lemma coerce_Ok (d : FuncValue) (params : list (option string)) :
  forall i,
    i + length params + 1 <= NumIn d ->
    coerce i params d
    = Ok (map (fun pt => paramType (fst pt) (snd pt))
              (combine params (skipn (i + 1) (Ins d)))).
Proof.
  unfold NumIn.
  induction params as [|v rest IH]; intros i Hlen; cbn [coerce combine map length] in *.
  - reflexivity.
  - destruct (nth_error (Ins d) (i + 1)) as [t|] eqn:Hn.
    + rewrite (skipn_nth_error _ _ Hn). cbn [combine map fst snd].
      rewrite IH by lia. replace (S i + 1) with (S (i + 1)) by lia. reflexivity.
    + apply nth_error_None in Hn. lia.
Qed.

(** [def.run] on a definition: at most one call, and no panic. *)
Lemma run_Some (sd : stepDef) (ctx : context.Context)
      (params : list (option string)) (e : Env) :
  exists ticks,
    run (Some sd) ctx params e
    = (Ok tt, after e (callsOf ctx (f sd) params) ticks)
    /\ forall d,
        f sd = IFunc d -> length params + 1 = NumIn d ->
        ticks = elapsed (body d (VContext ctx :: argumentsOf d params)
                              (trace (world e))).
Proof.
  unfold run, recovering, runBody, callsOf.
  destruct (f sd) as [d|k].
  - destruct (Nat.eqb_spec (length params + 1) (NumIn d)) as [Heq|Hne]; cbn [negb].
    + assert (Hco : coerce 0 params d = Ok (argumentsOf d params)).
      { rewrite coerce_Ok by lia. unfold argumentsOf.
        destruct (Ins d); reflexivity. }
      unfold rt.bind, lift. rewrite Hco. unfold inWorld, zoom, Call.
      exists (elapsed (body d (VContext ctx :: argumentsOf d params) (trace (world e)))).
      split.
      * destruct (body d (VContext ctx :: argumentsOf d params) (trace (world e)))
          as [out el|[|msg] el]; reflexivity.
      * intros d' Hd _. inversion Hd. reflexivity.
    + exists 0. cbn. rewrite after_nil. split; [reflexivity|].
      intros d' Hd Hlen. inversion Hd; subst. contradiction.
  - exists 0. cbn. rewrite after_nil. split; [reflexivity|]. discriminate.
Qed.

(** A text that resolves: the definition found matches it, so
    [FindSubmatch] gives the whole match and the groups. *)
Lemma resolved_submatches (l : list stepDef) (text : string) :
  snd (findStepDef l text) = None ->
  exists sd whole groups,
    findStepDef l text = (Some sd, None)
    /\ FindSubmatch (expr sd) text = Some (whole :: groups)
    /\ submatches (Some sd) text = Ok groups.
Proof.
  intros Hres.
  destruct (Resolve.findStepDef_cases l text)
    as [[_ Hf]|(before & sd & after & _ & Hfind & Hm & _)].
  - rewrite Hf in Hres. discriminate.
  - unfold matchesText, MatchString in Hm. exists sd.
    unfold submatches, FindSubmatch.
    destruct (doExecute (expr sd) text 0) as [[m caps]|]; [|discriminate].
    do 2 eexists. split; [exact Hfind|]. split; reflexivity.
Qed.

Lemma runStep_resolved (ctx : context.Context) (step : Step) (e : Env)
      (def : option stepDef) :
  findStepDef (steps (suite e)) (Text step) = (def, None) ->
  runStep ctx step e
  = (params <- lift (submatches def (Text step)) ;;
     callBeforeSteps ctx ;;
     defer (callAfterSteps ctx) (run def ctx params))%go e.
Proof.
  intros H. unfold runStep. unfold rt.bind at 1. cbn [getSuite].
  rewrite H. reflexivity.
Qed.

Lemma callBefore_steps_eq (ctx : context.Context) (e : Env) :
  callBeforeSteps ctx e
  = forEach (beforeStep (options (suite e))) (fun h => inWorld (callHook ctx h)) e.
Proof. reflexivity. Qed.

Lemma callAfter_steps_eq (ctx : context.Context) (e : Env) :
  callAfterSteps ctx e
  = forEach (afterStep (options (suite e))) (fun h => inWorld (callHook ctx h)) e.
Proof. reflexivity. Qed.

Lemma callBefore_scenarios_eq (ctx : context.Context) (e : Env) :
  callBeforeScenarios ctx e
  = forEach (beforeScenario (options (suite e))) (fun h => inWorld (callHook ctx h)) e.
Proof. reflexivity. Qed.

Lemma callAfter_scenarios_eq (ctx : context.Context) (e : Env) :
  callAfterScenarios ctx e
  = forEach (afterScenario (options (suite e))) (fun h => inWorld (callHook ctx h)) e.
Proof. reflexivity. Qed.

End Facts.

Import Fixtures HookFixtures.

(** When the number of captured groups fits the function, [def.run]
    calls the function exactly once, with the context followed by one
    argument per group, each converted for the parameter it is passed as;
    what the function returns is dropped, and whether it returns or
    panics [def.run] returns normally, the call recorded and nothing else
    of the state changed. *)
Theorem run_calls_the_function_once :
  forall (E : Engine) (F : Floats) (sd : stepDef) (d : FuncValue)
         (ctx : context.Context) (params : list (option string)) (e : Env),
    f sd = IFunc d ->
    length params + 1 = NumIn d ->
    let args := VContext ctx :: argumentsOf d params in
    length args = NumIn d
    /\ run (Some sd) ctx params e
       = (Ok tt, after e [Called (FuncName d) args]
                       (elapsed (body d args (trace (world e))))).
Proof.
  intros E F sd d ctx params e Hf Hlen args. subst args. split.
  - unfold argumentsOf, NumIn in *. cbn [length].
    rewrite length_map, length_combine.
    destruct (Ins d) as [|t ts]; cbn [length tl] in *; lia.
  - destruct (run_Some sd ctx params e) as (ticks & Hrun & Ht).
    rewrite (Ht d Hf Hlen) in Hrun. rewrite Hrun.
    unfold callsOf. rewrite Hf.
    replace (length params + 1 =? NumIn d) with true
      by (symmetry; apply Nat.eqb_eq, Hlen).
    reflexivity.
Qed.

(** An instance: the group "4" for [cucumbers]. *)
Lemma cucumbers_is_called_once :
  let sd := {| expr := {| re2.root := re2.Empty; re2.NumCap := 0 |};
               f := IFunc cucumbers |} in
  let args := VContext context.Background :: argumentsOf cucumbers [Some "4"] in
  length args = NumIn cucumbers
  /\ run (Some sd) context.Background [Some "4"] cucumberEnv
     = (Ok tt, after cucumberEnv [Called (FuncName cucumbers) args]
                     (elapsed (body cucumbers args (trace (world cucumberEnv))))).
Proof.
  exact (@run_calls_the_function_once
           re2.engine ieee.IEEE
           {| expr := {| re2.root := re2.Empty; re2.NumCap := 0 |};
              f := IFunc cucumbers |}
           cucumbers context.Background [Some "4"] cucumberEnv
           eq_refl eq_refl).
Defined.

(** [runStep] on a step that resolves, with step hooks that return: the
    before-step hooks are entered in registration order, then the
    function is called once with the converted groups (not at all when
    the definition holds no function or the arity does not fit), then
    the after-step hooks are entered; [runStep] returns normally and
    leaves the suite as it was. *)
Theorem runStep_brackets_the_call :
  forall (E : Engine) (F : Floats) (ctx : context.Context) (step : Step) (e : Env),
    snd (findStepDef (steps (suite e)) (Text step)) = None ->
    Forall returns (beforeStep (options (suite e))) ->
    Forall returns (afterStep (options (suite e))) ->
    exists sd whole groups ticks,
      findStepDef (steps (suite e)) (Text step) = (Some sd, None)
      /\ FindSubmatch (expr sd) (Text step) = Some (whole :: groups)
      /\ runStep ctx step e
         = (Ok tt,
            after e (hooked ctx (beforeStep (options (suite e)))
                     ++ callsOf ctx (f sd) groups
                     ++ hooked ctx (afterStep (options (suite e))))
                  ticks).
Proof.
  intros E F ctx step e Hres Hbefore Hafter.
  destruct (resolved_submatches _ _ Hres) as (sd & whole & groups & Hfind & Hsub & Hgroups).
  destruct (run_Some sd ctx groups
                     (after e (hooked ctx (beforeStep (options (suite e)))) 0))
    as (ticks & Hrun & _).
  exists sd, whole, groups, (0 + ticks + 0).
  split; [exact Hfind|]. split; [exact Hsub|].
  rewrite (runStep_resolved ctx step e Hfind).
  unfold rt.bind at 1. unfold lift. rewrite Hgroups.
  unfold rt.bind. rewrite callBefore_steps_eq, (hooks_return ctx Hbefore).
  unfold defer. rewrite Hrun, callAfter_steps_eq.
  cbn [after suite]. rewrite (hooks_return ctx Hafter).
  rewrite !after_after. reflexivity.
Qed.

(** An instance: "I have 4 cucumbers" in a suite with one hook of each
    kind. *)
Lemma four_cucumbers_between_the_hooks :
  exists sd whole groups ticks,
    findStepDef (steps (suite hookedEnv)) "I have 4 cucumbers" = (Some sd, None)
    /\ FindSubmatch (expr sd) "I have 4 cucumbers" = Some (whole :: groups)
    /\ runStep context.Background (given "I have 4 cucumbers") hookedEnv
       = (Ok tt,
          after hookedEnv
                (hooked context.Background (beforeStep (options (suite hookedEnv)))
                 ++ callsOf context.Background (f sd) groups
                 ++ hooked context.Background (afterStep (options (suite hookedEnv))))
                ticks).
Proof.
  apply (@runStep_brackets_the_call re2.engine ieee.IEEE context.Background
                                    (given "I have 4 cucumbers") hookedEnv).
  - by_evaluation.
  - vm_eval (beforeStep (options (suite hookedEnv))).
    repeat constructor.
  - vm_eval (afterStep (options (suite hookedEnv))).
    repeat constructor.
Defined.

(** A before hook that panics stops what it precedes. When a before-step
    hook panics, [runStep] panics with the hook's value once the hooks
    before it were entered: the hooks after it, the step function and the
    after-step hooks are not run. In the same way, when a
    before-scenario hook panics [runScenario] runs no step and no
    after-scenario hook. *)
Theorem panicking_before_hook_stops_short :
  forall (E : Engine) (F : Floats) (ctx : context.Context) (e : Env)
         (hs : list Hook) (h : Hook) (rest : list Hook) (v : PanicValue),
    Forall returns hs ->
    hookBody h ctx (trace (world e) ++ hooked ctx hs) = Some v ->
    (forall step,
        beforeStep (options (suite e)) = hs ++ h :: rest ->
        snd (findStepDef (steps (suite e)) (Text step)) = None ->
        runStep ctx step e = (Panic v, after e (hooked ctx (hs ++ [h])) 0))
    /\ (forall sc bkg,
           ctx = context.Background ->
           beforeScenario (options (suite e)) = hs ++ h :: rest ->
           runScenario sc bkg e = (Panic v, after e (hooked ctx (hs ++ [h])) 0)).
Proof.
  intros E F ctx e hs h rest v Hhs Hv. split.
  - intros step Hb Hres.
    destruct (resolved_submatches _ _ Hres)
      as (sd & whole & groups & Hfind & _ & Hgroups).
    rewrite (runStep_resolved ctx step e Hfind).
    unfold rt.bind at 1. unfold lift. rewrite Hgroups.
    unfold rt.bind. rewrite callBefore_steps_eq, Hb.
    rewrite (hooks_panic ctx h rest Hhs e Hv). reflexivity.
  - intros sc bkg -> Hb. unfold runScenario. cbv zeta.
    unfold rt.bind at 1. rewrite callBefore_scenarios_eq, Hb.
    rewrite (hooks_panic context.Background h rest Hhs e Hv). reflexivity.
Qed.

(** An instance: the second before hook of the suite panics, before a
    step that resolves and before a scenario. *)
Lemma guard_stops_the_step :
  runStep context.Background (given "I have 4 cucumbers") refusingEnv
  = (Panic (PVal "not today"),
     after refusingEnv
           (hooked context.Background
                   ([noting "before"] ++ [refusing "guard" "not today"])) 0)
  /\ runScenario secondScenario None refusingEnv
     = (Panic (PVal "not today"),
        after refusingEnv
              (hooked context.Background
                      ([noting "before"] ++ [refusing "guard" "not today"])) 0).
Proof.
  destruct (@panicking_before_hook_stops_short
              re2.engine ieee.IEEE context.Background refusingEnv
              [noting "before"] (refusing "guard" "not today") []
              (PVal "not today")) as [Hstep Hscenario].
  - repeat constructor.
  - reflexivity.
  - split.
    + apply Hstep; by_evaluation.
    + apply Hscenario; [reflexivity|by_evaluation].
Defined.

(** Once the before-scenario hooks have returned, the after-scenario
    hooks always run: whatever the steps of the scenario do between
    them (return, panic inside a step function, or fail to resolve, which
    ends the scenario in a panic), the trace [runScenario] leaves is the
    before-scenario hooks in registration order, then what the steps
    recorded, then every after-scenario hook in registration order. *)
Theorem after_scenario_hooks_always_run :
  forall (E : Engine) (F : Floats) (sc : Scenario) (bkg : option Background)
         (e : Env),
    Forall returns (beforeScenario (options (suite e))) ->
    Forall returns (afterScenario (options (suite e))) ->
    exists between,
      trace (world (snd (runScenario sc bkg e)))
      = trace (world e)
        ++ hooked context.Background (beforeScenario (options (suite e)))
        ++ between
        ++ hooked context.Background (afterScenario (options (suite e))).
Proof.
  intros E F sc bkg e Hbefore Hafter.
  unfold runScenario. cbv zeta. unfold rt.bind at 1.
  rewrite callBefore_scenarios_eq, (hooks_return context.Background Hbefore).
  match goal with
  | |- context [defer ?d ?b ?s] =>
    assert (Hk : carriedOn s (snd (b s)))
      by apply (Invariants.keeps_scenario_steps sc bkg s)
  end.
  unfold defer.
  match type of Hk with carriedOn _ (snd ?x) => destruct x as [r e2] end.
  cbn [snd] in Hk. destruct Hk as [(Hopt & _ & _) (_ & between & Htr)].
  rewrite callAfter_scenarios_eq, Hopt. cbn [after suite].
  rewrite (hooks_return context.Background Hafter).
  exists between. cbn [snd after world trace] in *.
  rewrite Htr, <- !app_assoc. reflexivity.
Qed.

(** An instance: the suite with one hook of each kind. *)
Lemma scenario_hooks_frame_the_steps :
  exists between,
    trace (world (snd (runScenario secondScenario None hookedEnv)))
    = trace (world hookedEnv)
      ++ hooked context.Background (beforeScenario (options (suite hookedEnv)))
      ++ between
      ++ hooked context.Background (afterScenario (options (suite hookedEnv))).
Proof.
  apply (@after_scenario_hooks_always_run re2.engine ieee.IEEE secondScenario None
                                          hookedEnv).
  - vm_eval (beforeScenario (options (suite hookedEnv))).
    repeat constructor.
  - vm_eval (afterScenario (options (suite hookedEnv))).
    repeat constructor.
Defined.

End Lifecycle.

(** ** Which scenarios run: [runFeature] and [Suite.Run] *)

Module Selection.
Import floats reflect rt regexp msgs gobdd Vocabulary.

Section Facts.
Context {E : Engine} {F : Floats}.

Lemma forEach_app {S A} (l l' : list A) (g : A -> M S unit) (s : S) :
  forEach (l ++ l') g s
  = match forEach l g s with
    | (Ok _, s') => forEach l' g s'
    | (Panic v, s') => (Panic v, s')
    end.
Proof.
  revert s. induction l as [|a l IH]; intros s; [reflexivity|].
  cbn [app]. rewrite !Templates.forEach_cons.
  destruct (g a s) as [[u|v] s1]; [apply IH|reflexivity].
Qed.

(** The loop of [runFeature] over the children, from a state whose
    options are [o]. *)
Lemma children_selected (o : SuiteOptions) (children : list FeatureChild) :
  forall e : Env,
    options (suite e) = o ->
    forEach children
            (fun child =>
               match ChildScenario child with
               | None => ret tt
               | Some scenario =>
                 s' <- getSuite ;;
                 if skipScenario (options s') (ScenarioTags scenario) then ret tt
                 else runScenario scenario (ChildBackground child)
               end)%go e
    = forEach (flat_map (fun child =>
                           match ChildScenario child with
                           | None => []
                           | Some scenario =>
                             if skipScenario o (ScenarioTags scenario) then []
                             else [(scenario, ChildBackground child)]
                           end) children)
              (fun p => runScenario (fst p) (snd p)) e.
Proof.
  induction children as [|child children IH]; intros e Ho; [reflexivity|].
  cbn [flat_map]. rewrite Templates.forEach_cons.
  destruct (ChildScenario child) as [sc|].
  - unfold rt.bind at 1. cbn [getSuite]. rewrite Ho.
    destruct (skipScenario o (ScenarioTags sc)).
    + cbn [ret app]. apply IH, Ho.
    + cbn [app]. rewrite Templates.forEach_cons. cbn [fst snd].
      pose proof (Invariants.keeps_runScenario sc (ChildBackground child) e) as Hk.
      destruct (runScenario sc (ChildBackground child) e) as [[u|v] e1];
        [|reflexivity].
      apply IH. destruct Hk as [(Hopt & _) _]. cbn [snd] in Hopt. congruence.
  - cbn [ret app]. apply IH, Ho.
Qed.

Lemma runFeature_selected (feature : Feature) (e : Env) :
  runFeature feature e
  = forEach (selected (options (suite e)) feature)
            (fun p => runScenario (fst p) (snd p)) e.
Proof.
  unfold runFeature, selected. unfold rt.bind at 1. cbn [getSuite].
  destruct (existsb _ (FeatureTags feature)); [reflexivity|].
  apply children_selected. reflexivity.
Qed.

(** The loop of [Suite.Run] over paths that all load, from a state whose
    options are [o]. *)
Lemma paths_selected (load : string -> Parsed) (o : SuiteOptions)
      (paths : list string) :
  (forall p, In p paths -> forall err, load p <> ParseError err) ->
  forall e : Env,
    options (suite e) = o ->
    forEach paths
            (fun featurePath =>
               match load featurePath with
               | ParseError err =>
                 panic (PVal ("error while loading document: " ++ err
                              ++ chr 10)%string)
               | Document None => ret tt
               | Document (Some feature) => runFeature feature
               end) e
    = forEach (flat_map (selected o) (loaded load paths))
              (fun p => runScenario (fst p) (snd p)) e.
Proof.
  induction paths as [|p paths IH]; intros Hload e Ho; [reflexivity|].
  rewrite Templates.forEach_cons. unfold loaded. cbn [flat_map].
  fold (loaded load paths).
  assert (Hrest : forall q, In q paths -> forall err, load q <> ParseError err)
    by (intros q Hq; apply Hload; now right).
  destruct (load p) as [err|[feature|]] eqn:Hp.
  - exfalso. apply (Hload p (or_introl eq_refl) err). exact Hp.
  - cbn [app flat_map]. rewrite forEach_app.
    pose proof (Invariants.keeps_runFeature feature e) as Hk.
    rewrite runFeature_selected in *. rewrite Ho in *.
    destruct (forEach (selected o feature) _ e) as [[u|v] e1]; [|reflexivity].
    apply IH; [exact Hrest|]. destruct Hk as [(Hopt & _) _]. cbn [snd] in Hopt.
    congruence.
  - cbn [ret app]. apply IH; assumption.
Qed.

End Facts.

(** Which scenarios run is settled by the options the suite has when the
    run starts. [runFeature] runs, in the order of the document, the
    scenarios that [selected] keeps: none for a feature that carries an
    ignored tag, otherwise the children that hold a scenario that
    [skipScenario] does not exclude, each with its background; a panic of
    one of them ends the loop. When every path loads, [Suite.Run] runs in
    the same way the selected scenarios of the features of the documents
    that have one, in the order of the paths. No code of the suite that
    a scenario runs changes the selection of a later one. *)
Theorem the_options_select_the_scenarios :
  forall (E : Engine) (F : Floats) (e : Env),
    (forall feature,
        runFeature feature e
        = forEach (selected (options (suite e)) feature)
                  (fun p => runScenario (fst p) (snd p)) e)
    /\ (forall feature,
           selected (options (suite e)) feature = [] ->
           runFeature feature e = (Ok tt, e))
    /\ (forall load,
           (forall p, In p (features (options (suite e))) ->
                      forall err, load p <> ParseError err) ->
           Run load e
           = forEach (flat_map (selected (options (suite e)))
                               (loaded load (features (options (suite e)))))
                     (fun p => runScenario (fst p) (snd p)) e).
Proof.
  intros E F e. split; [|split].
  - intros feature. apply runFeature_selected.
  - intros feature Hnone. rewrite runFeature_selected, Hnone. reflexivity.
  - intros load Hload. unfold Run. unfold rt.bind at 1. cbn [getSuite].
    apply paths_selected; [exact Hload|reflexivity].
Qed.

Import Fixtures.

(** [Suite.Run] stops at the first document that fails to load: it
    panics with "error while loading document: ", the error and a
    newline, once the selected scenarios of the features loaded before it
    have run; what they did stays done, and the paths after it are never
    loaded. *)
Theorem Run_stops_at_the_first_load_error :
  forall (E : Engine) (F : Floats) (load : string -> Parsed) (e : Env)
         (ps : list string) (p : string) (qs : list string) (err : string),
    features (options (suite e)) = ps ++ p :: qs ->
    (forall q, In q ps -> forall err', load q <> ParseError err') ->
    load p = ParseError err ->
    Run load e
    = (forEach (flat_map (selected (options (suite e))) (loaded load ps))
               (fun sc => runScenario (fst sc) (snd sc)) ;;
       panic (PVal ("error while loading document: " ++ err ++ chr 10)%string))%go e.
Proof.
  intros E F load e ps p qs err Hfeat Hps Hp.
  unfold Run. unfold rt.bind at 1. cbn [getSuite]. rewrite Hfeat.
  rewrite forEach_app, (@paths_selected _ _ load (options (suite e)) ps Hps e eq_refl).
  unfold rt.bind.
  destruct (forEach (flat_map _ _) _ e) as [[u|v] e1]; [|reflexivity].
  rewrite Templates.forEach_cons, Hp. reflexivity.
Qed.

(** An instance: the only feature of the suite does not load. *)
Lemma a_feature_that_does_not_load :
  Run (fun _ => ParseError "no such file") twoScenarioEnv
  = (forEach (flat_map (selected (options (suite twoScenarioEnv)))
                       (loaded (fun _ => ParseError "no such file") []))
             (fun sc => runScenario (fst sc) (snd sc)) ;;
     panic (PVal ("error while loading document: " ++ "no such file" ++ chr 10)%string))%go
      twoScenarioEnv.
Proof.
  apply (@Run_stops_at_the_first_load_error
           re2.engine ieee.IEEE (fun _ => ParseError "no such file") twoScenarioEnv
           [] "cucumbers.feature" [] "no such file").
  - by_evaluation.
  - intros q [].
  - reflexivity.
Defined.

End Selection.

(** ** Outline rows: [stepFromExample] and the rows without a definition *)

Module Expansion.
Import floats reflect rt regexp msgs gobdd Vocabulary.

Section Facts.
Context {E : Engine} {F : Floats}.

Lemma replaceOld_absent (old new : string) :
  forall s, strings.Index s old = None -> strings.replaceOld 0 s old new = s.
Proof.
  induction s as [|c t IH]; intros H; [reflexivity|].
  cbn [strings.Index] in H. cbn [strings.replaceOld].
  destruct (strings.HasPrefix (String.String c t) old); [discriminate|].
  destruct (strings.Index t old); [discriminate|].
  f_equal. apply IH. reflexivity.
Qed.

(** Replacing what does not occur changes nothing. *)
Lemma ReplaceAll_absent (s old new : string) :
  strings.Contains s old = false -> strings.ReplaceAll s old new = s.
Proof.
  unfold strings.Contains, strings.ReplaceAll.
  destruct (strings.Index s old) eqn:Hi; [discriminate|]. intros _.
  destruct (String.eqb old new); [reflexivity|].
  destruct old; [|apply replaceOld_absent, Hi].
  destruct s; cbn in Hi; discriminate.
Qed.

Lemma substituted_absent (sub : string -> string) (name : string)
      (placeholders : list string) (row : TableRow) :
  (forall ph, In ph placeholders -> strings.Contains name ph = false) ->
  substituted sub name placeholders row = name.
Proof.
  unfold substituted. intros Habs.
  assert (H : forall pcs : list (string * TableCell),
             (forall pc, In pc pcs -> In (fst pc) placeholders) ->
             fold_left (fun s pc => strings.ReplaceAll s (fst pc) (sub (Value (snd pc))))
                       pcs name = name).
  { induction pcs as [|pc pcs IH]; intros Hin; [reflexivity|].
    cbn [fold_left]. rewrite ReplaceAll_absent.
    - apply IH. intros pc' H'. apply Hin. now right.
    - apply Habs, Hin. now left. }
  apply H. intros [ph cell] Hin. cbn [fst]. eapply in_combine_l, Hin.
Qed.

(** The loop of [stepFromExample] from the cell [i] on. *)
Lemma stepFromExampleLoop_eq (row : TableRow) (placeholders : list string) :
  forall (i : nat) (stepName expr0 : string),
    i <= length (Cells row) ->
    stepFromExampleLoop i placeholders row stepName expr0
    = if i + length placeholders <=? length (Cells row)
      then Ok (fold_left (fun s pc => strings.ReplaceAll s (fst pc) (Value (snd pc)))
                         (combine placeholders (skipn i (Cells row))) stepName,
               fold_left (fun s pc => strings.ReplaceAll s (fst pc)
                                                         (getRegexpForVar (Value (snd pc))))
                         (combine placeholders (skipn i (Cells row))) expr0)
      else indexOutOfRange (length (Cells row)) (length (Cells row)).
Proof.
  induction placeholders as [|ph rest IH]; intros i stepName expr0 Hi;
    cbn [stepFromExampleLoop length].
  - replace (i + 0 <=? length (Cells row)) with true
      by (symmetry; apply Nat.leb_le; lia).
    reflexivity.
  - destruct (nth_error (Cells row) i) as [cell|] eqn:Hn.
    + assert (i < length (Cells row)) by (apply nth_error_Some; congruence).
      rewrite IH by lia. rewrite (Lifecycle.skipn_nth_error _ _ Hn).
      replace (S i + length rest) with (i + S (length rest)) by lia.
      reflexivity.
    + apply nth_error_None in Hn.
      replace (i + S (length rest) <=? length (Cells row)) with false
        by (symmetry; apply Nat.leb_gt; lia).
      replace i with (length (Cells row)) by lia. reflexivity.
Qed.

Lemma stepFromExample_Ok (name : string) (row : TableRow) (placeholders : list string) :
  length placeholders <= length (Cells row) ->
  stepFromExample name row placeholders
  = Ok (substituted (fun v => v) name placeholders row,
        substituted getRegexpForVar name placeholders row).
Proof.
  intros Hlen. unfold stepFromExample. rewrite stepFromExampleLoop_eq by lia.
  replace (0 + length placeholders <=? length (Cells row)) with true
    by (symmetry; apply Nat.leb_le; lia).
  reflexivity.
Qed.

End Facts.

(** [stepFromExample] takes one cell per placeholder, in the order of
    the header. With a row that has a cell for every placeholder it
    returns the text with each placeholder replaced in turn by the value
    of its cell, and the expression with each placeholder replaced by the
    pattern chosen for that value; cells beyond the header are ignored,
    and a text that mentions none of the placeholders comes back
    unchanged, as text and as expression. With a row shorter than the
    header it panics, the index out of range being the number of cells of
    the row. *)
Theorem stepFromExample_takes_a_cell_per_placeholder :
  forall (F : Floats) (name : string) (row : TableRow) (placeholders : list string),
    (length placeholders <= length (Cells row) ->
     stepFromExample name row placeholders
     = Ok (substituted (fun v => v) name placeholders row,
           substituted getRegexpForVar name placeholders row))
    /\ (length placeholders <= length (Cells row) ->
        (forall ph, In ph placeholders -> strings.Contains name ph = false) ->
        stepFromExample name row placeholders = Ok (name, name))
    /\ (length (Cells row) < length placeholders ->
        stepFromExample name row placeholders
        = indexOutOfRange (length (Cells row)) (length (Cells row))).
Proof.
  intros F name row placeholders. split; [|split].
  - apply stepFromExample_Ok.
  - intros Hlen Habs. rewrite stepFromExample_Ok by exact Hlen.
    rewrite !substituted_absent by exact Habs. reflexivity.
  - intros Hlen. unfold stepFromExample. rewrite stepFromExampleLoop_eq by lia.
    replace (0 + length placeholders <=? length (Cells row)) with false
      by (symmetry; apply Nat.leb_gt; lia).
    reflexivity.
Qed.

Section Rows.
Context {E : Engine} {F : Floats}.




End Rows.

Import Fixtures.



End Expansion.

(** ** What [Step.Run] and [GenerateSteps] leave on record *)

Module Recording.
Import floats reflect rt models Records.

Section Facts.
Context {F : Floats}.

(** The three ways [Step.Run] ends, with what it leaves in the
    execution. *)
Lemma Run_cases (ctx : context.Context) (st : Step) (w : World) :
  exists x' w',
    Run ctx {| self := st; world := w |}
    = (Ok tt, {| self := withExecution x' st; world := w' |})
    /\ StartTime x' = now w
    /\ ((Result x' = Passed /\ Err x' = Err (Execution st)
         /\ exists d r0 ticks,
             Func st = IFunc d
             /\ body d (VContext ctx :: Args st) (trace w) = Returns [r0] ticks
             /\ IsNil r0 = inr true
             /\ EndTime x' = now w + ticks)
        \/ (Result x' = Failed /\ exists msg, Err x' = Some msg)
        \/ (Result x' = Result (Execution st) /\ Err x' = Err (Execution st)
            /\ exists d ticks,
                Func st = IFunc d
                /\ body d (VContext ctx :: Args st) (trace w) = Panics PNil ticks)).
Proof.
  destruct (Func st) as [d|k] eqn:Hf.
  - destruct (body d (VContext ctx :: Args st) (trace w)) as [out el|v el] eqn:Hb.
    + destruct st as [loc kw kt tx ds dt fn args x]. cbn in Hf, Hb. subst fn.
      unfold Run, recovering, rt.bind, inWorld, zoom, getSelf, modifyExecution,
        timeNow, CallValue, Call, record, rt.ret, rt.panic.
      cbn. rewrite Hb. cbn.
      destruct out as [|r0 [|r1 out']]; cbn.
      * do 2 eexists. split; [reflexivity|]. split; [reflexivity|].
        right. left. cbn. eauto.
      * assert (Hnil : (exists msg, IsNil r0 = inl (PVal msg)) \/ exists b, IsNil r0 = inr b).
        { destruct r0 as [[b|]| | | | | |k| |k r]; cbn; eauto;
            destruct (nillable k); eauto. }
        destruct Hnil as [[msg Hnil]|[[|] Hnil]]; rewrite Hnil; cbn.
        -- do 2 eexists. split; [reflexivity|]. split; [reflexivity|].
           right. left. cbn. eauto.
        -- do 2 eexists. split; [reflexivity|]. split; [reflexivity|].
           left. cbn. split; [reflexivity|]. split; [reflexivity|].
           exists d, r0, el. auto.
        -- destruct r0; cbn; do 2 eexists; (split; [reflexivity|]);
             (split; [reflexivity|]); right; left; cbn; eauto.
      * do 2 eexists. split; [reflexivity|]. split; [reflexivity|].
        right. left. cbn. eauto.
    + rewrite (Execution.Run_of_function_that_panics ctx st w Hf Hb).
      do 2 eexists. split; [reflexivity|]. split; [reflexivity|]. cbn.
      destruct v as [|msg]; [right; right|right; left]; eauto 8.
  - destruct (Execution.Run_of_non_function ctx st w Hf) as (msg & Hrun).
    do 2 eexists. split; [exact Hrun|]. split; [reflexivity|].
    right. left. cbn. eauto.
Qed.

(** The loop of [Scenario.Run] over steps that all pass. *)
Lemma runSteps_all_pass (ctx : context.Context) (sts : list Step) :
  Forall (passes ctx) sts ->
  forall w : World,
  exists sts' w',
    runSteps ctx sts w = (Ok tt, (sts', w'))
    /\ trace w' = trace w ++ flat_map (callOf ctx) sts
    /\ Forall2 (fun st st' => exists x, st' = withExecution x st /\ Result x = Passed)
               sts sts'.
Proof.
  induction 1 as [|step rest (d & Hf & Hbody) _ IH]; intros w.
  - exists [], w. cbn. rewrite app_nil_r. auto.
  - destruct (Hbody (trace w)) as (r0 & el & Hb & Hnil).
    destruct (Execution.Run_of_function_that_returns ctx step w Hf Hb)
      as (res & err & Hrun & _ & Hiff).
    assert (Hres : res = Passed) by (apply Hiff; eauto).
    subst res. cbn [runSteps]. rewrite Hrun. cbn [self world Execution withExecution Result].
    cbn [Z.eqb Passed negb].
    match goal with
    | |- context [runSteps ctx rest ?w1] =>
      destruct (IH w1) as (rest' & w' & Hrest & Htr & Hall); rewrite Hrest
    end.
    do 2 eexists. split; [reflexivity|]. split.
    + rewrite Htr. cbn [trace flat_map]. unfold callOf at 2. rewrite Hf.
      rewrite <- app_assoc. reflexivity.
    + constructor; [|exact Hall]. eexists. split; reflexivity.
Qed.

Lemma NewStep_cases (stepDoc : msgs.Step) (scheme : Step -> Step * option string) :
  (exists st, NewStep stepDoc scheme = (Some st, None))
  \/ (exists err, NewStep stepDoc scheme = (None, Some err)).
Proof.
  unfold NewStep. destruct (scheme _) as [s' [err|]]; eauto.
Qed.

Lemma GenerateSteps_cases (stepDocs : list msgs.Step)
      (scheme : Step -> Step * option string) :
  (exists l,
      GenerateSteps stepDocs scheme = (Some l, None)
      /\ Forall2 (fun stepDoc st => NewStep stepDoc scheme = (Some st, None))
                 stepDocs l)
  \/ (exists before stepDoc rest err,
         stepDocs = before ++ stepDoc :: rest
         /\ Forall (fun d => exists st, NewStep d scheme = (Some st, None)) before
         /\ NewStep stepDoc scheme = (None, Some err)
         /\ GenerateSteps stepDocs scheme = (None, Some err)).
Proof.
  induction stepDocs as [|doc docs IH]; cbn [GenerateSteps].
  - left. exists []. split; [reflexivity|constructor].
  - destruct (NewStep_cases doc scheme) as [[st Hst]|[err Herr]].
    + rewrite Hst.
      destruct IH as [(l & Hr & Hall)|(before & d & rest & err & Hl & Hb & Hd & Hr)];
        rewrite Hr.
      * left. exists (st :: l). split; [reflexivity|]. constructor; assumption.
      * right. exists (doc :: before), d, rest, err.
        split; [rewrite Hl; reflexivity|].
        split; [constructor; eauto|]. split; [exact Hd|reflexivity].
    + rewrite Herr. right. exists [], doc, docs, err.
      split; [reflexivity|]. split; [constructor|]. split; [exact Herr|reflexivity].
Qed.

End Facts.

Import StepFixtures RecordFixtures.

(** What [Step.Run] leaves on record. It never panics and changes
    nothing of the step but its execution, whose start time it sets. It
    keeps the record sound: a result [Failed] comes with an error. It
    never clears the error and never records [Skipped]; so a step that
    passes when it is run again after a failure reads [Passed] and still
    carries the error of the failure. *)
Theorem Step_Run_keeps_the_record_sound :
  forall (F : Floats) (ctx : context.Context) (st : Step) (w : World),
    exists x' w',
      Run ctx {| self := st; world := w |}
      = (Ok tt, {| self := withExecution x' st; world := w' |})
      /\ StartTime x' = now w
      /\ (sound (Execution st) -> sound x')
      /\ (Err (Execution st) <> None -> Err x' <> None)
      /\ (Result x' = Passed -> Err x' = Err (Execution st))
      /\ (Result x' = Skipped -> Result (Execution st) = Skipped).
Proof.
  intros F ctx st w.
  destruct (Run_cases ctx st w) as (x' & w' & Hrun & Hstart & Hcases).
  exists x', w'. split; [exact Hrun|]. split; [exact Hstart|].
  unfold sound.
  destruct Hcases as [(Hres & Herr & _)|[(Hres & msg & Herr)|(Hres & Herr & _)]].
  - rewrite Hres, Herr. repeat split; auto; discriminate.
  - rewrite Hres, Herr. repeat split; try discriminate.
  - rewrite Hres, Herr. repeat split; auto.
Qed.

(** [Scenario.Run] on steps that all pass: every step is run, in order,
    each keeps its identity and records [Passed], and the call returns
    normally. *)
Theorem ScenarioRun_runs_every_passing_step :
  forall (F : Floats) (ctx : context.Context) (sc : Scenario) (w : World),
    Forall (passes ctx) (Steps sc) ->
    let r := ScenarioRun ctx {| this := sc; sworld := w |} in
    fst r = Ok tt
    /\ trace (sworld (snd r)) = trace w ++ flat_map (callOf ctx) (Steps sc)
    /\ Forall2 (fun st st' => exists x, st' = withExecution x st /\ Result x = Passed)
               (Steps sc) (Steps (this (snd r))).
Proof.
  intros F ctx sc w Hall r. subst r. unfold ScenarioRun. cbn [this sworld].
  destruct (runSteps_all_pass Hall w) as (sts' & w' & Hrun & Htr & Hsteps).
  rewrite Hrun. cbn [fst snd this sworld Steps]. auto.
Qed.

(** An instance: two steps that return nil. *)
Lemma both_steps_are_run :
  let r := ScenarioRun context.Background
                       {| this := passingScenario; sworld := Fixtures.w0 |} in
  fst r = Ok tt
  /\ trace (sworld (snd r))
     = trace Fixtures.w0 ++ flat_map (callOf context.Background) (Steps passingScenario)
  /\ Forall2 (fun st st' => exists x, st' = withExecution x st /\ Result x = Passed)
             (Steps passingScenario) (Steps (this (snd r))).
Proof.
  apply (@ScenarioRun_runs_every_passing_step ieee.IEEE context.Background
                                              passingScenario Fixtures.w0).
  repeat constructor.
  - eexists. split; [reflexivity|]. intros tr. do 2 eexists. split; reflexivity.
  - eexists. split; [reflexivity|]. intros tr. do 2 eexists. split; reflexivity.
Defined.

(** [GenerateSteps] is all or nothing. Either every document step is
    bound, and the steps come back one per document step, in order, with
    no error; or it stops at the first document step that [NewStep]
    fails on and returns that error with no step at all, those bound
    before it being dropped. *)
Theorem GenerateSteps_is_all_or_nothing :
  forall (F : Floats) (stepDocs : list msgs.Step)
         (scheme : Step -> Step * option string),
    let r := GenerateSteps stepDocs scheme in
    (snd r = None
     /\ Forall2 (fun stepDoc st => NewStep stepDoc scheme = (Some st, None))
                stepDocs (elements (fst r)))
    \/ (exists before stepDoc rest err,
           stepDocs = before ++ stepDoc :: rest
           /\ Forall (fun d => exists st, NewStep d scheme = (Some st, None)) before
           /\ NewStep stepDoc scheme = (None, Some err)
           /\ r = (None, Some err)).
Proof.
  intros F stepDocs scheme. cbv zeta.
  destruct (GenerateSteps_cases stepDocs scheme)
    as [(l & Hr & Hall)|(before & d & rest & err & Hl & Hb & Hd & Hr)].
  - left. rewrite Hr. split; [reflexivity|exact Hall].
  - right. exists before, d, rest, err. auto.
Qed.

(** [NewScenario] binds the steps of the background, then those of the
    scenario, all or nothing. It copies location, tags, keyword and name
    from the scenario and keeps the background. When every step is
    bound, the steps of the result are those of the background followed
    by those of the scenario, one per document step, in order, and the
    error is nil. At the first step that cannot be bound, the error is
    returned together with the scenario, which then has no steps at all.
    A nil scenario or a nil background is dereferenced: the call
    panics. *)
Theorem NewScenario_binds_background_then_scenario :
  forall (F : Floats) (scheme : Step -> Step * option string),
    (forall bkg, scenario.NewScenario bkg None scheme = gobdd.nilDereference)
    /\ (forall scn, scenario.NewScenario None (Some scn) scheme = gobdd.nilDereference)
    /\ (forall b heading doc,
           let stepDocs := msgs.BackgroundSteps b ++ msgs.ScenarioSteps doc in
           exists s err,
             scenario.NewScenario (Some b) (Some (heading, doc)) scheme = Ok (s, err)
             /\ ScenarioLocation s = scenario.HeadingLocation heading
             /\ Tags s = msgs.ScenarioTags doc
             /\ ScenarioKeyword s = scenario.HeadingKeyword heading
             /\ Name s = scenario.HeadingName heading
             /\ Background s = Some b
             /\ ((err = None
                  /\ Forall2 (fun stepDoc st => NewStep stepDoc scheme = (Some st, None))
                             stepDocs (Steps s))
                 \/ (exists before stepDoc rest e,
                        stepDocs = before ++ stepDoc :: rest
                        /\ Forall (fun d => exists st, NewStep d scheme = (Some st, None))
                                  before
                        /\ NewStep stepDoc scheme = (None, Some e)
                        /\ err = Some e
                        /\ Steps s = []))).
Proof.
  intros F scheme. split; [reflexivity|]. split; [intros [heading doc]; reflexivity|].
  intros b heading doc stepDocs. subst stepDocs. unfold scenario.NewScenario.
  destruct (GenerateSteps_cases (msgs.BackgroundSteps b) scheme)
    as [(l1 & Hr1 & Hall1)|(before & d & rest & e & Hl & Hb & Hd & Hr1)];
    rewrite Hr1.
  - destruct (GenerateSteps_cases (msgs.ScenarioSteps doc) scheme)
      as [(l2 & Hr2 & Hall2)|(before & d & rest & e & Hl & Hb & Hd & Hr2)];
      rewrite Hr2.
    + do 2 eexists. split; [reflexivity|]. cbn. repeat (split; [reflexivity|]).
      left. split; [reflexivity|]. apply Forall2_app; assumption.
    + do 2 eexists. split; [reflexivity|]. cbn. repeat (split; [reflexivity|]).
      right. exists (msgs.BackgroundSteps b ++ before), d, rest, e.
      split; [rewrite Hl, app_assoc; reflexivity|].
      split; [|auto]. apply Forall_app. split; [|exact Hb].
      clear - Hall1. induction Hall1; constructor; eauto.
  - do 2 eexists. split; [reflexivity|]. cbn. repeat (split; [reflexivity|]).
    right. exists before, d, (rest ++ msgs.ScenarioSteps doc), e.
    split; [rewrite Hl, <- app_assoc; reflexivity|]. auto.
Qed.

End Recording.

(** ** Halting: [Suite.runScenario] beside [Scenario.Run] *)

Module Halting.
Import floats reflect rt regexp msgs gobdd Vocabulary.

Section Facts.
Context {E : Engine} {F : Floats}.

(** [runStep] on a step that resolves, with step hooks that return. *)
Lemma runStep_returns (ctx : context.Context) (step : Step) (e : Env) :
  snd (findStepDef (steps (suite e)) (Text step)) = None ->
  Forall returns (beforeStep (options (suite e))) ->
  Forall returns (afterStep (options (suite e))) ->
  exists ticks,
    runStep ctx step e = (Ok tt, after e (stepEvents ctx (suite e) step) ticks).
Proof.
  intros Hres Hbefore Hafter.
  destruct (Lifecycle.resolved_submatches _ _ Hres)
    as (sd & whole & groups & Hfind & Hsub & Hgroups).
  destruct (Lifecycle.run_Some
              sd ctx groups
              (after e (hooked ctx (beforeStep (options (suite e)))) 0))
    as (ticks & Hrun & _).
  exists (0 + ticks + 0).
  rewrite (Lifecycle.runStep_resolved ctx step e Hfind).
  unfold rt.bind at 1. unfold lift. rewrite Hgroups.
  unfold rt.bind. rewrite Lifecycle.callBefore_steps_eq, (Lifecycle.hooks_return ctx Hbefore).
  unfold defer. rewrite Hrun, Lifecycle.callAfter_steps_eq.
  cbn [after suite]. rewrite (Lifecycle.hooks_return ctx Hafter).
  rewrite !Lifecycle.after_after. unfold stepEvents. rewrite Hfind, Hsub.
  reflexivity.
Qed.

(** The loop over the steps goes through all of them. *)
Lemma steps_all_run (ctx : context.Context) (sts : list Step) :
  forall e : Env,
    Forall (fun step => snd (findStepDef (steps (suite e)) (Text step)) = None) sts ->
    Forall returns (beforeStep (options (suite e))) ->
    Forall returns (afterStep (options (suite e))) ->
    exists ticks,
      forEach sts (runStep ctx) e
      = (Ok tt, after e (flat_map (stepEvents ctx (suite e)) sts) ticks).
Proof.
  induction sts as [|step sts IH]; intros e Hres Hbefore Hafter.
  - exists 0. cbn. now rewrite Lifecycle.after_nil.
  - inversion Hres as [|? ? Hstep Hrest]; subst.
    destruct (runStep_returns ctx step e Hstep Hbefore Hafter) as (t1 & Hrun).
    destruct (IH (after e (stepEvents ctx (suite e) step) t1) Hrest Hbefore Hafter)
      as (t2 & Hloop).
    exists (t1 + t2).
    rewrite Templates.forEach_cons, Hrun, Hloop, Lifecycle.after_after.
    reflexivity.
Qed.

End Facts.

Import Fixtures HaltFixtures.

(** C5, on the code. [Suite.runScenario] does not halt at a step that
    fails. For a scenario without examples whose steps all resolve, with
    hooks that return, it runs every step, in order, whatever the step
    functions return or panic with: the trace it leaves is the
    before-scenario hooks, then for each step its before-step hooks, the
    call of its function and its after-step hooks, then the
    after-scenario hooks, and it returns normally; no result is recorded
    and nothing breaks the loop. With the four functions of the example
    registered as step definitions, of which the third returns an error,
    all four are called; [Scenario.Run] on the same four functions calls
    the first three and never the fourth. *)
Theorem runScenario_runs_on_after_a_failed_step :
  (forall (E : Engine) (F : Floats) (sc : Scenario) (e : Env),
      ScenarioExamples sc = [] ->
      Forall (fun step => snd (findStepDef (steps (suite e)) (Text step)) = None)
             (ScenarioSteps sc) ->
      Forall returns (beforeScenario (options (suite e))) ->
      Forall returns (afterScenario (options (suite e))) ->
      Forall returns (beforeStep (options (suite e))) ->
      Forall returns (afterStep (options (suite e))) ->
      exists ticks,
        runScenario sc None e
        = (Ok tt,
           after e (hooked context.Background (beforeScenario (options (suite e)))
                    ++ flat_map (stepEvents context.Background (suite e))
                                (ScenarioSteps sc)
                    ++ hooked context.Background (afterScenario (options (suite e))))
                 ticks))
  /\ fst (runScenario fourStepDoc None fourStepEnv) = Ok tt
  /\ trace (world (snd (runScenario fourStepDoc None fourStepEnv)))
     = [Called "first" [VContext context.Background];
        Called "second" [VContext context.Background];
        Called "third" [VContext context.Background];
        Called "fourth" [VContext context.Background]]
  /\ map (fun st => models.Result (models.Execution st))
         (models.Steps
            (models.this
               (snd (models.ScenarioRun
                       context.Background
                       {| models.this := StepFixtures.fourStepScenario;
                          models.sworld := w0 |}))))
     = [models.Passed; models.Passed; models.Failed; models.Passed]
  /\ trace (models.sworld
              (snd (models.ScenarioRun
                      context.Background
                      {| models.this := StepFixtures.fourStepScenario;
                         models.sworld := w0 |})))
     = [Called "first" [VContext context.Background];
        Called "second" [VContext context.Background];
        Called "third" [VContext context.Background]].
Proof.
  split; [|repeat split; by_evaluation].
  intros E F sc e Hex Hres HbS HaS Hbs Has.
  destruct (@steps_all_run
              E F context.Background (ScenarioSteps sc)
              (after e (hooked context.Background
                               (beforeScenario (options (suite e)))) 0)
              Hres Hbs Has) as (ticks & Hloop).
  exists (0 + ticks + 0).
  unfold runScenario. cbv zeta. unfold rt.bind at 1.
  rewrite Lifecycle.callBefore_scenarios_eq, (Lifecycle.hooks_return context.Background HbS).
  unfold defer. unfold rt.bind at 1. cbn [ret].
  rewrite Hex. cbn [length Nat.ltb Nat.leb].
  rewrite Hloop, Lifecycle.callAfter_scenarios_eq.
  cbn [after suite]. rewrite (Lifecycle.hooks_return context.Background HaS).
  rewrite !Lifecycle.after_after. reflexivity.
Qed.

End Halting.
